(** * TSDF fusion (fusion.py): a shallow embedding and its properties

    The embedding follows src/fusion.py: the [TSDFVolume] class (its
    constructor, [reset_visible], [get_volume], [integrate] with both
    the CUDA kernel and the vectorised numpy/numba path, and the three
    downsampled queries) and the module-level helpers [rigid_transform]
    and [get_view_frustum].  [get_point_cloud] and [get_mesh] hand the
    grid to skimage's marching cubes, [meshwrite] and [pcwrite] format
    floats into files: they are not embedded.

    Numbers.  The source computes in IEEE binary32 and binary64.  Here a
    finite float is an exact rational ([Q]) and the arithmetic operations
    are the exact ones: rounding error is not modelled, and equalities
    between computed floats are stated with [==] on [Q].  Division by the
    camera depth of a voxel, which valid inputs can make zero, is modelled
    with an explicit extension by infinities and NaN ([xfloat]); the other
    divisors (trunc_margin, the new weight, the focal lengths in
    [get_view_frustum]) are non-zero for a positive voxel size, positive
    observation weights and a proper camera, which the statements assume
    where they matter.  The decimal values of the example grids and
    frames (0.02, 1.02, ...) are taken as they are written.

    Integers.  The kernel computes the voxel index and the product of
    the grid dimensions it compares it with in 32 bits ([wrap32],
    [int_prod3]), and the grid coordinates of a voxel through binary32
    ([kernel_voxel_coords]): these are modelled as they are, and agree
    with the exact values on grids of at most 2^24 voxels.  The products
    of grid dimensions and of image sizes that Python computes are taken
    in [Z].

    Failure.  A Python call returns or raises ([result], [completion]); an
    access outside a device buffer has no defined behaviour and ends the
    call with [Undefined].

    Parallelism.  The threads of a launch address pairwise different
    voxels ([launch_thread_indices]) and are run here one after the
    other. *)

From Stdlib Require Import ZArith QArith Qround Qpower Qabs Lia Lqa String.
From stdpp Require Import base list strings.

Local Open Scope Z_scope.

(** ** Floating point helpers *)

Definition Qltb (x y : Q) : bool := negb (Qle_bool y x).

Definition Qmaxf (x y : Q) : Q := if Qle_bool x y then y else x.
Definition Qminf (x y : Q) : Q := if Qle_bool x y then x else y.

(** [floorf], [np.floor]: the result is still a float. *)
Definition floorf (x : Q) : Q := inject_Z (Qfloor x).

(** C [roundf]: to nearest, ties away from zero. *)
Definition roundf (x : Q) : Q :=
  if Qle_bool 0 x then inject_Z (Qfloor (x + (1 # 2)))
  else inject_Z (Qceiling (x - (1 # 2))).

(** [np.round]: to nearest, ties to even. *)
Definition np_round (x : Q) : Q :=
  let f := Qfloor x in
  let d := (x - inject_Z f)%Q in
  if Qltb d (1 # 2) then inject_Z f
  else if Qltb (1 # 2) d then inject_Z (f + 1)
  else if Z.even f then inject_Z f else inject_Z (f + 1).

(** Truncation toward zero, the value of a C cast [(int) x] of an
    in-range float. *)
Definition Qtrunc (x : Q) : Z :=
  if Qle_bool 0 x then Qfloor x else Qceiling x.

(** Floats extended with the results of a division by zero. *)
Inductive xfloat : Type :=
  | Fin (q : Q)
  | Inf (negative : bool)
  | NaN.

(** [x / z] in IEEE arithmetic, the zero divisor being taken as [+0]. *)
Definition xdiv (x z : Q) : xfloat :=
  if Qeq_bool z 0 then
    if Qeq_bool x 0 then NaN else Inf (Qltb x 0)
  else Fin (x / z).

(** [k * v] for a finite [k]. *)
Definition xscale (k : Q) (v : xfloat) : xfloat :=
  match v with
  | Fin q => Fin (k * q)
  | Inf s => if Qeq_bool k 0 then NaN else Inf (xorb s (Qltb k 0))
  | NaN => NaN
  end.

(** [v + c] for a finite [c]. *)
Definition xshift (v : xfloat) (c : Q) : xfloat :=
  match v with
  | Fin q => Fin (q + c)
  | _ => v
  end.

Definition xroundf (v : xfloat) : xfloat :=
  match v with
  | Fin q => Fin (roundf q)
  | _ => v
  end.

Definition INT_MAX : Z := 2147483647.
Definition INT_MIN : Z := -2147483648.

(** The device's float to [int] conversion: truncation, saturating at the
    ends of the range, NaN giving 0. *)
Definition to_int (v : xfloat) : Z :=
  match v with
  | Fin q => Z.max INT_MIN (Z.min INT_MAX (Qtrunc q))
  | Inf false => INT_MAX
  | Inf true => INT_MIN
  | NaN => 0
  end.

(** ** Arrays *)

(** Flat array access with an integer index; [None] is an access outside
    the buffer. *)
Definition ix {A : Type} (l : list A) (i : Z) : option A :=
  if i <? 0 then None else l !! Z.to_nat i.

(** Small parameter arrays (matrices, origin) read at a literal index. *)
Definition at_ (l : list Q) (i : nat) : Q := nth i l 0%Q.

(** A two-dimensional numpy array in C order. *)
Record ndarray2 (A : Type) : Type := mk_ndarray2 {
  nrows : Z;
  ncols : Z;
  flat : list A
}.
Arguments mk_ndarray2 {A} _ _ _.
Arguments nrows {A} _.
Arguments ncols {A} _.
Arguments flat {A} _.

(** ** Colour codec (lines 272, 174-176, 349-351) *)

Definition color_const : Q := 256 * 256.

(** Line 272: the three channels folded into one float. *)
Definition fold_color (rgb : Q * Q * Q) : Q :=
  let '(c0, c1, c2) := rgb in
  floorf (c2 * color_const + c1 * 256 + c0)%Q.

(** Lines 349-351 (and 174-176, 386-388): the channels of a packed colour,
    returned as (r, g, b). *)
Definition unpack_color (c : Q) : Q * Q * Q :=
  let b := floorf (c / color_const)%Q in
  let g := floorf ((c - b * color_const) / 256)%Q in
  let r := (c - b * color_const - g * 256)%Q in
  (r, g, b).

(** Componentwise equality of float triples. *)
Definition triple_eq (x y : Q * Q * Q) : Prop :=
  (x.1.1 == y.1.1 /\ x.1.2 == y.1.2 /\ x.2 == y.2)%Q.

(** ** Python exceptions *)

(** [TypingError] is numba's (numba.core.errors): what a jitted function
    raises at its first call when it cannot be typed, here because of a
    name that is not defined. *)
Inductive exn : Type :=
  | AssertionError
  | ValueError
  | ZeroDivisionError
  | TypingError (name : string)
  | IndexError
  | LinAlgError.

Inductive result (A : Type) : Type :=
  | Ok (a : A)
  | Raise (e : exn).
Arguments Ok {A} _.
Arguments Raise {A} _.

#[global] Instance result_ret : MRet result := fun _ a => Ok a.
#[global] Instance result_bind : MBind result := fun _ _ f m =>
  match m with
  | Ok a => f a
  | Raise e => Raise e
  end.

Definition raises {A : Type} (r : result A) : Prop :=
  match r with
  | Ok _ => False
  | Raise _ => True
  end.

(** ** The voxel grid *)

(** The five dense arrays of a grid, each flattened in C order
    (index x*Dy*Dz + y*Dz + z). *)
Record Volume : Type := mk_Volume {
  tsdf_vol : list Q;
  occl_vol : list Q;
  weight_vol : list Q;
  color_vol : list Q;
  mask_vol : list Z
}.

(** The attributes of [cuda.Device(0)] the constructor reads. *)
Record Device : Type := mk_Device {
  MAX_THREADS_PER_BLOCK : Z;
  MAX_GRID_DIM_X : Z;
  MAX_GRID_DIM_Y : Z;
  MAX_GRID_DIM_Z : Z
}.

(** What a grid in GPU mode owns beside the host arrays: the device
    buffers and the launch configuration of lines 190-197. *)
Record GpuState : Type := mk_GpuState {
  device : Volume;
  _max_gpu_threads_per_block : Z;
  _max_gpu_grid_dim : Z * Z * Z;
  _n_gpu_loops : Z
}.

Record TSDFVolume : Type := mk_TSDFVolume {
  _vol_bnds : ndarray2 Q;
  _voxel_size : Q;
  _trunc_margin : Q;
  _color_const : Q;
  _vol_dim : Z * Z * Z;
  _vol_origin : list Q;
  host : Volume;                 (* the five [_*_vol_cpu] arrays *)
  gpu : option GpuState;         (* present exactly when [gpu_mode] *)
  vox_coords : list (Z * Z * Z)  (* CPU mode only *)
}.

Definition gpu_mode (self : TSDFVolume) : bool :=
  match gpu self with Some _ => true | None => false end.

Definition prod3 (d : Z * Z * Z) : Z := d.1.1 * d.1.2 * d.2.

(** ** Constructor (lines 38-211) *)

Definition INT64_MIN : Z := - 2 ^ 63.
Definition INT64_MAX : Z := 2 ^ 63 - 1.

(** [np.ceil(x).astype(int)].  A finite value in range is converted
    exactly; for infinities, NaN and values out of range numpy returns what
    the x86-64 conversion instruction gives, the most negative int64. *)
Definition ceil_astype_int (v : xfloat) : Z :=
  match v with
  | Fin q =>
      let c := Qceiling q in
      if (INT64_MIN <=? c) && (c <=? INT64_MAX) then c else INT64_MIN
  | _ => INT64_MIN
  end.

(** [np.ones(shape)], [np.zeros(shape)]: a negative dimension is refused.
    Memory limits are not modelled. *)
Definition np_full {A : Type} (v : A) (shape : Z * Z * Z) : result (list A) :=
  let '(dx, dy, dz) := shape in
  if (dx <? 0) || (dy <? 0) || (dz <? 0) then Raise ValueError
  else Ok (replicate (Z.to_nat (dx * dy * dz)) v).

(** [floor(cbrt(n))] for a non-negative integer, bit by bit: the integer
    cube root.  Line 191 takes [np.cbrt] in binary64, whose value for a
    perfect cube can lie just below the root; the statements about the
    launch configuration of a constructed grid are about this exact
    root. *)
Fixpoint icbrt_bits (bits : nat) (acc n : Z) : Z :=
  match bits with
  | O => acc
  | S b =>
      let cand := acc + 2 ^ Z.of_nat b in
      icbrt_bits b (if cand * cand * cand <=? n then cand else acc) n
  end.
Definition icbrt (n : Z) : Z :=
  icbrt_bits (Z.to_nat (Z.log2 n `div` 3 + 1)) 0 n.

(** [int(np.ceil(float(a)/float(b)))] on Python numbers. *)
Definition py_ceil_div (a b : Z) : result Z :=
  if b =? 0 then Raise ZeroDivisionError
  else Ok (Qceiling (inject_Z a / inject_Z b)).

(** Lines 190-197: block and grid size.  Returns the grid dimensions and
    the number of launches per frame. *)
Definition gpu_dispatch (gpu_dev : Device) (n_voxels : Z)
  : result (Z * Z * Z * Z) :=
  let T := MAX_THREADS_PER_BLOCK gpu_dev in
  n_blocks ← py_ceil_div n_voxels T;
  let grid_dim_x := Z.min (MAX_GRID_DIM_X gpu_dev) (icbrt n_blocks) in
  if grid_dim_x =? 0 then Raise ZeroDivisionError else
  let grid_dim_y :=
    Z.min (MAX_GRID_DIM_Y gpu_dev) (Z.sqrt (n_blocks `div` grid_dim_x)) in
  q ← py_ceil_div n_blocks (grid_dim_x * grid_dim_y);
  let grid_dim_z := Z.min (MAX_GRID_DIM_Z gpu_dev) q in
  n_gpu_loops ← py_ceil_div n_voxels
                  (grid_dim_x * grid_dim_y * grid_dim_z * T);
  Ok (grid_dim_x, grid_dim_y, grid_dim_z, n_gpu_loops).

(** Lines 201-211: the voxel coordinates in meshgrid 'ij' order. *)
Definition meshgrid_ij (d : Z * Z * Z) : list (Z * Z * Z) :=
  let '(dx, dy, dz) := d in
  x ← seqZ 0 dx; y ← seqZ 0 dy; z ← seqZ 0 dz; [(x, y, z)].

(** Line 57: the number of voxels along each axis, with the difference
    and the quotient taken exactly ([binary64] tells when they are). *)
Definition derive_vol_dim (vol_bnds : ndarray2 Q) (voxel_size : Q)
  : Z * Z * Z :=
  let dim j :=
    ceil_astype_int
      (xdiv (at_ (flat vol_bnds) (2 * j + 1) - at_ (flat vol_bnds) (2 * j))
            voxel_size) in
  (dim 0%nat, dim 1%nat, dim 2%nat).

(** [TSDFVolume(vol_bnds, voxel_size, use_gpu)].  [pycuda] is the device
    found when PyCUDA was imported, [None] when the import failed
    ([FUSION_GPU_MODE = 0]).  [vol_bnds] is taken to be an array of
    floats: line 58 stores the new maxima into the array it was given,
    in that array's dtype, and an array of integers would truncate
    them. *)
Definition __init__ (pycuda : option Device)
    (vol_bnds : ndarray2 Q) (voxel_size : Q) (use_gpu : bool)
  : result TSDFVolume :=
  if negb ((nrows vol_bnds =? 3) && (ncols vol_bnds =? 2))
  then Raise AssertionError else
  let lo j := at_ (flat vol_bnds) (2 * j) in
  let trunc_margin := (5 * voxel_size)%Q in
  let vol_dim := derive_vol_dim vol_bnds voxel_size in
  let dim j := nth j [vol_dim.1.1; vol_dim.1.2; vol_dim.2] 0 in
  let snap j := (lo j + inject_Z (dim j) * voxel_size)%Q in
  let vol_bnds' :=
    mk_ndarray2 3 2 [lo 0%nat; snap 0%nat; lo 1%nat; snap 1%nat;
                     lo 2%nat; snap 2%nat] in
  let vol_origin := [lo 0%nat; lo 1%nat; lo 2%nat] in
  tsdf ← np_full 1%Q vol_dim;
  occl ← np_full (-100)%Q vol_dim;
  weight ← np_full 0%Q vol_dim;
  color ← np_full 0%Q vol_dim;
  mask ← np_full 0%Z vol_dim;
  let vols := mk_Volume tsdf occl weight color mask in
  match (if use_gpu then pycuda else None) with
  | Some gpu_dev =>
      '(gx, gy, gz, loops) ← gpu_dispatch gpu_dev (prod3 vol_dim);
      Ok (mk_TSDFVolume vol_bnds' voxel_size trunc_margin color_const
            vol_dim vol_origin vols
            (Some (mk_GpuState vols (MAX_THREADS_PER_BLOCK gpu_dev)
                     (gx, gy, gz) loops))
            [])
  | None =>
      Ok (mk_TSDFVolume vol_bnds' voxel_size trunc_margin color_const
            vol_dim vol_origin vols None (meshgrid_ij vol_dim))
  end.

(** ** The CUDA kernel (lines 91-185) *)

Record dim3 : Type := mk_dim3 { x3 : Z; y3 : Z; z3 : Z }.

(** The arguments of one launch that are not voxel arrays.  The six
    entries of [other_params] are the fields from [gpu_loop_idx] to
    [obs_weight]; the integers among them and the dimensions travel as
    binary32, which holds them exactly below 2^24. *)
Record KernelArgs : Type := mk_KernelArgs {
  vol_dim : Z * Z * Z;
  vol_origin : list Q;
  cam_intr : list Q;
  cam_pose : list Q;
  rgb_intr : list Q;
  rgb_pose : list Q;
  gpu_loop_idx : Z;
  voxel_size : Q;
  im_h : Z;
  im_w : Z;
  trunc_margin : Q;
  obs_weight : Q;
  color_im : list Q;
  depth_im : list Q;
  mask_im : list Z
}.

(** Two's complement wrap of the index arithmetic, which the kernel does
    in 32 bits. *)
Definition wrap32 (v : Z) : Z := (v + 2 ^ 31) `mod` 2 ^ 32 - 2 ^ 31.

(** Line 114: [vol_dim_x*vol_dim_y*vol_dim_z], a product of three [int]s.
    It is the number of voxels as long as that is below 2^31; a grid of
    2^31 voxels gives -2^31. *)
Definition int_prod3 (d : Z * Z * Z) : Z :=
  wrap32 (wrap32 (d.1.1 * d.1.2) * d.2).

(** Line 110. *)
Definition thread_voxel_idx (gridDim blockDim blockIdx threadIdx : dim3)
    (loop_idx : Z) : Z :=
  let max_threads_per_block := x3 blockDim in
  let block_idx :=
    z3 blockIdx * y3 gridDim * x3 gridDim + y3 blockIdx * x3 gridDim
    + x3 blockIdx in
  wrap32 (loop_idx * x3 gridDim * y3 gridDim * z3 gridDim
            * max_threads_per_block
          + block_idx * max_threads_per_block + x3 threadIdx).

(** The formulas of lines 117-119 in exact arithmetic: the coordinates
    (x, y, z) of the voxel stored at a flat index, the inverse of the
    C-order flattening.  The kernel computes them in binary32
    ([kernel_voxel_coords] below), which agrees with this on grids of at
    most 2^24 voxels ([kernel_voxel_coords_exact]). *)
Definition voxel_coords (d : Z * Z * Z) (voxel_idx : Z) : Q * Q * Q :=
  let '(_, vol_dim_y, vol_dim_z) := d in
  let voxel_x :=
    floorf (inject_Z voxel_idx / inject_Z (vol_dim_y * vol_dim_z)) in
  let voxel_y :=
    floorf (inject_Z (voxel_idx - Qtrunc voxel_x * vol_dim_y * vol_dim_z)
            / inject_Z vol_dim_z) in
  let voxel_z :=
    inject_Z (voxel_idx - Qtrunc voxel_x * vol_dim_y * vol_dim_z
              - Qtrunc voxel_y * vol_dim_z) in
  (voxel_x, voxel_y, voxel_z).

(** [(float) n] for an [int] n: n rounded to 24 significant bits, ties to
    even.  The result is an integer. *)
Definition float_of_int (n : Z) : Z :=
  let m := Z.abs n in
  let e := Z.log2 m in
  if e <? 24 then n else
  let ulp := 2 ^ (e - 23) in
  let q := m `div` ulp in
  let r := m `mod` ulp in
  let q' := if 2 * r <? ulp then q
            else if ulp <? 2 * r then q + 1
            else if Z.even q then q else q + 1 in
  Z.sgn n * (q' * ulp).

(** floor(log2 x) for a positive rational. *)
Definition Qlog2 (x : Q) : Z :=
  let e := Z.log2 (Qnum x) - Z.log2 (Z.pos (Qden x)) in
  if Qle_bool (2 ^ e) x then e else e - 1.

(** A real number rounded to binary32: to the nearest number with 24
    significant bits, ties to even.  The exponent range is not modelled;
    the quotients of two non-zero [int]s, which is what this is applied
    to, are well inside it. *)
Definition binary32 (x : Q) : Q :=
  if Qeq_bool x 0 then 0%Q else
  let ulp := (2 ^ (Qlog2 (Qabs x) - 23))%Q in
  (np_round (x / ulp) * ulp)%Q.

(** The same for binary64, with 53 significant bits: what a float64
    operation of numpy returns for the exact result [x].  An operation
    is exact when [binary64 x == x]. *)
Definition binary64 (x : Q) : Q :=
  if Qeq_bool x 0 then 0%Q else
  let ulp := (2 ^ (Qlog2 (Qabs x) - 52))%Q in
  (np_round (x / ulp) * ulp)%Q.

(** Lines 117-119: voxel grid coordinates as the kernel computes them,
    with the casts between [int] and [float] and the binary32 divisions.
    From the index 2^24 on the cast of [voxel_idx] rounds, and the last
    voxel of a slab can come out as (x + 1, -1, z).  The divisors are
    non-zero in every launch ([gpu_dispatch_nonempty]). *)
Definition kernel_voxel_coords (d : Z * Z * Z) (voxel_idx : Z) : Q * Q * Q :=
  let '(_, vol_dim_y, vol_dim_z) := d in
  let fdiv (a b : Z) :=
    binary32 (inject_Z (float_of_int a) / inject_Z (float_of_int b)) in
  let voxel_x := floorf (fdiv voxel_idx (wrap32 (vol_dim_y * vol_dim_z))) in
  let voxel_y :=
    floorf (fdiv (wrap32 (voxel_idx
                          - to_int (Fin voxel_x) * vol_dim_y * vol_dim_z))
                 vol_dim_z) in
  let voxel_z :=
    inject_Z (float_of_int
                (wrap32 (voxel_idx
                         - to_int (Fin voxel_x) * vol_dim_y * vol_dim_z
                         - to_int (Fin voxel_y) * vol_dim_z))) in
  (voxel_x, voxel_y, voxel_z).

(** Lines 121-124: voxel grid coordinates to world coordinates. *)
Definition world_point (origin : list Q) (size : Q) (v : Q * Q * Q)
  : Q * Q * Q :=
  let '(voxel_x, voxel_y, voxel_z) := v in
  (at_ origin 0 + voxel_x * size,
   at_ origin 1 + voxel_y * size,
   at_ origin 2 + voxel_z * size)%Q.

(** Lines 126-131 and 161-166: world coordinates to camera coordinates,
    for a pose flattened row by row. *)
Definition camera_point (pose : list Q) (pt : Q * Q * Q) : Q * Q * Q :=
  let '(pt_x, pt_y, pt_z) := pt in
  let tmp_pt_x := (pt_x - at_ pose (0 * 4 + 3))%Q in
  let tmp_pt_y := (pt_y - at_ pose (1 * 4 + 3))%Q in
  let tmp_pt_z := (pt_z - at_ pose (2 * 4 + 3))%Q in
  (at_ pose (0 * 4 + 0) * tmp_pt_x + at_ pose (1 * 4 + 0) * tmp_pt_y
     + at_ pose (2 * 4 + 0) * tmp_pt_z,
   at_ pose (0 * 4 + 1) * tmp_pt_x + at_ pose (1 * 4 + 1) * tmp_pt_y
     + at_ pose (2 * 4 + 1) * tmp_pt_z,
   at_ pose (0 * 4 + 2) * tmp_pt_x + at_ pose (1 * 4 + 2) * tmp_pt_y
     + at_ pose (2 * 4 + 2) * tmp_pt_z)%Q.

(** Lines 133-134 and 168-169: camera coordinates to image pixels. *)
Definition image_pixel (intr : list Q) (cam_pt : Q * Q * Q) : Z * Z :=
  let '(cam_pt_x, cam_pt_y, cam_pt_z) := cam_pt in
  (to_int (xroundf (xshift (xscale (at_ intr (0 * 3 + 0))
                                   (xdiv cam_pt_x cam_pt_z))
                           (at_ intr (0 * 3 + 2)))),
   to_int (xroundf (xshift (xscale (at_ intr (1 * 3 + 1))
                                   (xdiv cam_pt_y cam_pt_z))
                           (at_ intr (1 * 3 + 2))))).

(** Lines 138 and 170: the view frustum test. *)
Definition outside_frustum (a : KernelArgs) (pixel : Z * Z) (cam_pt_z : Q)
  : bool :=
  let '(pixel_x, pixel_y) := pixel in
  (pixel_x <? 0) || (pixel_x >=? im_w a) || (pixel_y <? 0)
  || (pixel_y >=? im_h a) || Qltb cam_pt_z 0.

(** Lines 181-183: the running mean of one colour channel. *)
Definition blend_channel (old new w_old obs w_new : Q) : Q :=
  Qminf (roundf ((old * w_old + obs * new) / w_new)) 255.

(** Lines 173-184. *)
Definition blend_color (old_color new_color w_old obs w_new : Q) : Q :=
  let '(old_r, old_g, old_b) := unpack_color old_color in
  let '(new_r, new_g, new_b) := unpack_color new_color in
  let new_b := blend_channel old_b new_b w_old obs w_new in
  let new_g := blend_channel old_g new_g w_old obs w_new in
  let new_r := blend_channel old_r new_r w_old obs w_new in
  (new_b * 256 * 256 + new_g * 256 + new_r)%Q.

Definition set_tsdf (g : Volume) (v : list Q) : Volume :=
  mk_Volume v (occl_vol g) (weight_vol g) (color_vol g) (mask_vol g).
Definition set_occl (g : Volume) (v : list Q) : Volume :=
  mk_Volume (tsdf_vol g) v (weight_vol g) (color_vol g) (mask_vol g).
Definition set_weight (g : Volume) (v : list Q) : Volume :=
  mk_Volume (tsdf_vol g) (occl_vol g) v (color_vol g) (mask_vol g).
Definition set_color (g : Volume) (v : list Q) : Volume :=
  mk_Volume (tsdf_vol g) (occl_vol g) (weight_vol g) v (mask_vol g).
Definition set_mask (g : Volume) (v : list Z) : Volume :=
  mk_Volume (tsdf_vol g) (occl_vol g) (weight_vol g) (color_vol g) v.

(** [a[i] = v] on a device buffer, after [a[i]] has been read. *)
Definition put {A : Type} (l : list A) (i : Z) (v : A) : list A :=
  <[Z.to_nat i := v]> l.

(** One thread of the kernel.  [None] stands for an access outside a
    buffer, whose behaviour on the device is undefined. *)
Definition integrate_kernel (gridDim blockDim blockIdx threadIdx : dim3)
    (a : KernelArgs) (g : Volume) : option Volume :=
  (* Get voxel index *)
  let voxel_idx :=
    thread_voxel_idx gridDim blockDim blockIdx threadIdx (gpu_loop_idx a) in
  if voxel_idx >? int_prod3 (vol_dim a) then Some g else
  (* Voxel grid coordinates, world coordinates, camera coordinates *)
  let pt :=
    world_point (vol_origin a) (voxel_size a)
      (kernel_voxel_coords (vol_dim a) voxel_idx) in
  let cam_pt := camera_point (cam_pose a) pt in
  let cam_pt_z := cam_pt.2 in
  (* Camera coordinates to image pixels *)
  let pixel := image_pixel (cam_intr a) cam_pt in
  (* Skip if outside view frustum *)
  if outside_frustum a pixel cam_pt_z then Some g else
  (* Skip invalid depth *)
  depth_value ← ix (depth_im a) (pixel.2 * im_w a + pixel.1);
  if Qeq_bool depth_value 0 then Some g else
  (* Integrate mask *)
  old_mask ← ix (mask_vol g) voxel_idx;
  new_mask ← ix (mask_im a) (pixel.2 * im_w a + pixel.1);
  let g := set_mask g (put (mask_vol g) voxel_idx (Z.lor old_mask new_mask)) in
  (* Integrate TSDF and Occlusion *)
  let depth_diff := (depth_value - cam_pt_z)%Q in
  old_occl ← ix (occl_vol g) voxel_idx;
  let g := set_occl g (put (occl_vol g) voxel_idx (Qmaxf old_occl depth_diff)) in
  if Qltb depth_diff (- trunc_margin a) then Some g else
  let dist := Qminf 1 (depth_diff / trunc_margin a) in
  w_old ← ix (weight_vol g) voxel_idx;
  let w_new := (w_old + obs_weight a)%Q in
  let g := set_weight g (put (weight_vol g) voxel_idx w_new) in
  old_tsdf ← ix (tsdf_vol g) voxel_idx;
  let g :=
    set_tsdf g (put (tsdf_vol g) voxel_idx
                  ((old_tsdf * w_old + obs_weight a * dist) / w_new)%Q) in
  (* World coordinates to rgb camera coordinates and pixels *)
  let rgb_pixel := image_pixel (rgb_intr a) (camera_point (rgb_pose a) pt) in
  if outside_frustum a rgb_pixel cam_pt_z then Some g else
  (* Integrate color *)
  old_color ← ix (color_vol g) voxel_idx;
  new_color ← ix (color_im a) (rgb_pixel.2 * im_w a + rgb_pixel.1);
  Some (set_color g (put (color_vol g) voxel_idx
                       (blend_color old_color new_color w_old
                          (obs_weight a) w_new))).

(** The threads of a launch with [grid = gridDim] and
    [block = (blockDim.x, 1, 1)], as (blockIdx, threadIdx) pairs. *)
Definition launch_threads (gridDim blockDim : dim3) : list (dim3 * dim3) :=
  bz ← seqZ 0 (z3 gridDim); by_ ← seqZ 0 (y3 gridDim);
  bx ← seqZ 0 (x3 gridDim); tx ← seqZ 0 (x3 blockDim);
  [(mk_dim3 bx by_ bz, mk_dim3 tx 0 0)].

(** A sequence of threads run one after the other.  The threads of a
    launch address pairwise different voxels, so the order is immaterial. *)
Fixpoint run_threads (gridDim blockDim : dim3) (a : KernelArgs)
    (ths : list (dim3 * dim3)) (g : Volume) : option Volume :=
  match ths with
  | [] => Some g
  | (blockIdx, threadIdx) :: ths' =>
      g' ← integrate_kernel gridDim blockDim blockIdx threadIdx a g;
      run_threads gridDim blockDim a ths' g'
  end.

Definition cuda_integrate (gridDim blockDim : dim3) (a : KernelArgs)
    (g : Volume) : option Volume :=
  run_threads gridDim blockDim a (launch_threads gridDim blockDim) g.

(** ** The numpy/numba helpers of the CPU path *)

(** [float -> int64] as numba compiles it for x86-64: truncation, and the
    most negative int64 for infinities, NaN and values out of range. *)
Definition astype_int64 (v : xfloat) : Z :=
  match v with
  | Fin q =>
      let t := Qtrunc q in
      if (INT64_MIN <=? t) && (t <=? INT64_MAX) then t else INT64_MIN
  | _ => INT64_MIN
  end.

Definition xnp_round (v : xfloat) : xfloat :=
  match v with
  | Fin q => Fin (np_round q)
  | _ => v
  end.

(** Lines 215-224. *)
Definition vox2world (origin : list Q) (coords : list (Z * Z * Z))
    (vox_size : Q) : list (Q * Q * Q) :=
  (fun c : Z * Z * Z =>
     (at_ origin 0 + vox_size * inject_Z c.1.1,
      at_ origin 1 + vox_size * inject_Z c.1.2,
      at_ origin 2 + vox_size * inject_Z c.2)%Q) <$> coords.

(** Lines 228-238.  The loop is a numba [prange], inside which a float
    division by zero follows IEEE and raises nothing. *)
Definition cam2pix (cam_pts : list (Q * Q * Q)) (intr : list Q)
  : list (Z * Z) :=
  let fx := at_ intr (0 * 3 + 0) in
  let fy := at_ intr (1 * 3 + 1) in
  let cx := at_ intr (0 * 3 + 2) in
  let cy := at_ intr (1 * 3 + 2) in
  (fun p : Q * Q * Q =>
     (astype_int64 (xnp_round (xshift (xdiv (p.1.1 * fx) p.2) cx)),
      astype_int64 (xnp_round (xshift (xdiv (p.1.2 * fy) p.2) cy))))
  <$> cam_pts.

(** Lines 484-489, for a 4x4 transform flattened row by row. *)
Definition rigid_transform (xyz : list (Q * Q * Q)) (transform : list Q)
  : list (Q * Q * Q) :=
  let row i (p : Q * Q * Q) :=
    (at_ transform (i * 4 + 0) * p.1.1 + at_ transform (i * 4 + 1) * p.1.2
     + at_ transform (i * 4 + 2) * p.2 + at_ transform (i * 4 + 3) * 1)%Q in
  (fun p => (row 0%nat p, row 1%nat p, row 2%nat p)) <$> xyz.

(** Determinant by expansion along the first row; [n] is the size. *)
Fixpoint det (n : nat) (m : list (list Q)) : Q :=
  match n, m with
  | S n', row :: rest =>
      foldr Qplus 0%Q
        (imap (fun j a =>
                 ((if Nat.even j then a else - a) * det n' (delete j <$> rest))%Q)
              row)
  | _, _ => 1%Q
  end.

Definition reshape4 (l : list Q) : list (list Q) :=
  [take 4 l; take 4 (drop 4 l); take 4 (drop 8 l); take 4 (drop 12 l)].

(** [np.linalg.inv] of a 4x4 matrix in exact arithmetic: the inverse,
    and [LinAlgError] for a singular matrix.  (In binary64 the
    factorisation raises only when it meets a pivot that is exactly
    zero, so that some singular matrices get a result; the statements
    below use the inverse of invertible matrices only.) *)
Definition linalg_inv (m : list Q) : result (list Q) :=
  let rows := reshape4 m in
  let d := det 4 rows in
  if Qeq_bool d 0 then Raise LinAlgError else
  Ok (i ← seq 0 4; j ← seq 0 4;
      [((if Nat.even (i + j) then 1 else - (1)) *
        det 3 (delete i <$> delete j rows) / d)%Q]).

(** [a[y, x]] on a two-dimensional array: a negative index counts from the
    end, an index outside the axis raises. *)
Definition np_axis (n i : Z) : result Z :=
  if (0 <=? i) && (i <? n) then Ok i
  else if (- n <=? i) && (i <? 0) then Ok (i + n)
  else Raise IndexError.

Definition np_getitem2 {A : Type} (a : ndarray2 A) (y x : Z) : result A :=
  y' ← np_axis (nrows a) y;
  x' ← np_axis (ncols a) x;
  match ix (flat a) (y' * ncols a + x') with
  | Some v => Ok v
  | None => Raise IndexError
  end.

(** Flat position of [vol[x, y, z]] in a C-ordered array of shape [d]. *)
Definition ravel (d : Z * Z * Z) (c : Z * Z * Z) : Z :=
  c.1.1 * d.1.2 * d.2 + c.1.2 * d.2 + c.2.

(** [vol[valid_vox_x, valid_vox_y, valid_vox_z]]. *)
Definition gather {A : Type} (d : Z * Z * Z) (vol : list A)
    (coords : list (Z * Z * Z)) : result (list A) :=
  mapM (fun c => match ix vol (ravel d c) with
                 | Some v => Ok v
                 | None => Raise IndexError
                 end) coords.

(** [vol[valid_vox_x, valid_vox_y, valid_vox_z] = vals]. *)
Definition scatter {A : Type} (d : Z * Z * Z) (vol : list A)
    (coords : list (Z * Z * Z)) (vals : list A) : list A :=
  foldl (fun acc cv => put acc (ravel d cv.1) cv.2) vol (zip coords vals).

(** [a[m]] for a boolean vector [m]. *)
Definition select {A : Type} (m : list bool) (a : list A) : list A :=
  (zip m a) ≫= (fun p : bool * A => if p.1 then [p.2] else []).

(** ** [integrate_tsdf] (lines 242-252) *)

(** The names the body of [integrate_tsdf] binds: its parameters and the
    targets of its assignments.  Line 247, which would bind [w_new], is a
    comment. *)
Definition integrate_tsdf_locals : list string :=
  ["tsdf_vol"; "occl_vol"; "dist"; "w_old"; "obs_weight";
   "tsdf_vol_int"; "occl_vol_int"; "i"]%string.

(** The names bound at module level. *)
Definition module_globals : list string :=
  ["np"; "njit"; "prange"; "measure"; "cuda"; "pycuda"; "SourceModule";
   "FUSION_GPU_MODE"; "TSDFVolume"; "rigid_transform"; "get_view_frustum";
   "meshwrite"; "pcwrite"]%string.

(** The builtins the function uses. *)
Definition builtins : list string := ["len"; "max"; "range"]%string.

Definition name_bound (x : string) : bool :=
  bool_decide (x ∈ integrate_tsdf_locals ++ module_globals ++ builtins).

(** The loop of lines 248-251, had [w_new] been an array of the size of
    [w_old]. *)
Definition integrate_tsdf_loop (tsdf_vol occl_vol dist w_old : list Q)
    (obs_weight : Q) : list Q * list Q * list Q :=
  let w_new := (fun w => (w + obs_weight)%Q) <$> w_old in
  let tsdf_vol_int :=
    (fun p : Q * Q * Q * Q =>
       let '(w, t, d, wn) := p in ((w * t + obs_weight * d) / wn)%Q)
    <$> zip (zip (zip w_old tsdf_vol) dist) w_new in
  let occl_vol_int :=
    (fun p : Q * Q => Qmaxf p.1 p.2) <$> zip occl_vol dist in
  (tsdf_vol_int, w_new, occl_vol_int).

(** The function reads [w_new] on lines 249 and 252 (a subscript
    assignment looks its target up, it does not bind it).  The name is
    neither local nor global, so numba, which compiles the function at
    its first call, cannot type it and raises its [TypingError] (plain
    Python would raise NameError at line 249): the call raises whatever
    its arguments. *)
Definition integrate_tsdf (tsdf_vol occl_vol dist w_old : list Q)
    (obs_weight : Q) : result (list Q * list Q * list Q) :=
  if name_bound "w_new"
  then Ok (integrate_tsdf_loop tsdf_vol occl_vol dist w_old obs_weight)
  else Raise (TypingError "w_new").

(** ** [integrate] (lines 254-364) *)

Module Frame.
(** The arguments of [integrate].  Intrinsics (3x3) and poses (4x4) are
    given flattened row by row. *)
Record t : Type := mk {
  color_im : ndarray2 (Q * Q * Q);
  depth_im : ndarray2 Q;
  mask_im : ndarray2 Z;
  cam_intr : list Q;
  cam_pose : list Q;
  rgb_intr : list Q;
  rgb_pose : list Q;
  obs_weight : Q
}.
End Frame.

(** How a method call ends: it returns, it raises (the object keeps what
    was written before), or it runs into undefined behaviour on the
    device. *)
Inductive completion : Type :=
  | Returned (self : TSDFVolume)
  | Raised (e : exn) (self : TSDFVolume)
  | Undefined.

Definition with_host (self : TSDFVolume) (v : Volume) : TSDFVolume :=
  mk_TSDFVolume (_vol_bnds self) (_voxel_size self) (_trunc_margin self)
    (_color_const self) (_vol_dim self) (_vol_origin self) v (gpu self)
    (vox_coords self).

Definition with_device (self : TSDFVolume) (s : GpuState) (v : Volume)
  : TSDFVolume :=
  mk_TSDFVolume (_vol_bnds self) (_voxel_size self) (_trunc_margin self)
    (_color_const self) (_vol_dim self) (_vol_origin self) (host self)
    (Some (mk_GpuState v (_max_gpu_threads_per_block s)
             (_max_gpu_grid_dim s) (_n_gpu_loops s)))
    (vox_coords self).

(** [a.astype(np.uint32)]. *)
Definition astype_uint32 (m : Z) : Z := m `mod` 2 ^ 32.

(** The kernel arguments of lines 276-297 for one value of the loop
    index. *)
Definition kernel_args (self : TSDFVolume) (fr : Frame.t) (loop_idx : Z)
  : KernelArgs :=
  mk_KernelArgs (_vol_dim self) (_vol_origin self)
    (Frame.cam_intr fr) (Frame.cam_pose fr)
    (Frame.rgb_intr fr) (Frame.rgb_pose fr)
    loop_idx (_voxel_size self)
    (nrows (Frame.depth_im fr)) (ncols (Frame.depth_im fr))
    (_trunc_margin self) (Frame.obs_weight fr)
    (fold_color <$> flat (Frame.color_im fr))
    (flat (Frame.depth_im fr))
    (astype_uint32 <$> flat (Frame.mask_im fr)).

Definition gpu_grid (s : GpuState) : dim3 :=
  mk_dim3 (_max_gpu_grid_dim s).1.1 (_max_gpu_grid_dim s).1.2
          (_max_gpu_grid_dim s).2.
Definition gpu_block (s : GpuState) : dim3 :=
  mk_dim3 (_max_gpu_threads_per_block s) 1 1.

(** Lines 275-304: one launch per loop index. *)
Fixpoint gpu_loops (self : TSDFVolume) (s : GpuState) (fr : Frame.t)
    (loops : list Z) (g : Volume) : option Volume :=
  match loops with
  | [] => Some g
  | gpu_loop_idx :: rest =>
      g' ← cuda_integrate (gpu_grid s) (gpu_block s)
             (kernel_args self fr gpu_loop_idx) g;
      gpu_loops self s fr rest g'
  end.

(** Lines 307-311 and 341-345: voxels to camera points and pixels. *)
Definition cpu_project (self : TSDFVolume) (pose intr : list Q)
  : result (list (Q * Q * Q) * list (Z * Z)) :=
  let pts :=
    vox2world (_vol_origin self) (vox_coords self) (_voxel_size self) in
  inv ← linalg_inv pose;
  let pts := rigid_transform pts inv in
  Ok (pts, cam2pix pts intr).

(** Lines 314-318. *)
Definition valid_pixel (im_h im_w : Z) (pix : Z * Z) (pix_z : Q) : bool :=
  (pix.1 >=? 0) && ((pix.1 <? im_w) && ((pix.2 >=? 0) &&
    ((pix.2 <? im_h) && Qltb 0 pix_z))).

(** Lines 307-334: the mask [valid_pts] over all voxels and the vector
    [valid_dist]. *)
Definition cpu_depth_stage (self : TSDFVolume) (fr : Frame.t)
  : result (list bool * list Q) :=
  let im_h := nrows (Frame.depth_im fr) in
  let im_w := ncols (Frame.depth_im fr) in
  '(cam_pts, pix) ← cpu_project self (Frame.cam_pose fr) (Frame.cam_intr fr);
  let pix_z := (fun p : Q * Q * Q => p.2) <$> cam_pts in
  depth_val ←
    mapM (fun pz : (Z * Z) * Q =>
            if valid_pixel im_h im_w pz.1 pz.2
            then np_getitem2 (Frame.depth_im fr) pz.1.2 pz.1.1
            else Ok 0%Q)
         (zip pix pix_z);
  let depth_diff :=
    (fun p : Q * Q => (p.1 - p.2)%Q) <$> zip depth_val pix_z in
  let valid_pts := (fun d => negb (Qeq_bool d 0)) <$> depth_val in
  let dist := (fun d => (d / _trunc_margin self)%Q) <$> depth_diff in
  Ok (valid_pts, select valid_pts dist).

(** Lines 356-358. *)
Definition np_blend_channel (old new w_old obs w_new : Q) : Q :=
  Qminf 255 (np_round ((w_old * old + obs * new) / w_new)).

(** Lines 348-359 for one voxel. *)
Definition np_blend_color (cc : Q) (old_color new_color w_old obs w_new : Q)
  : Q :=
  let old_b := floorf (old_color / cc) in
  let old_g := floorf ((old_color - old_b * cc) / 256) in
  let old_r := (old_color - old_b * cc - old_g * 256)%Q in
  let new_b := floorf (new_color / cc) in
  let new_g := floorf ((new_color - new_b * cc) / 256) in
  let new_r := (new_color - new_b * cc - new_g * 256)%Q in
  let new_b := np_blend_channel old_b new_b w_old obs w_new in
  let new_g := np_blend_channel old_g new_g w_old obs w_new in
  let new_r := np_blend_channel old_r new_r w_old obs w_new in
  (new_b * cc + new_g * 256 + new_r)%Q.

(** [im[pix_y[valid_pts], pix_x[valid_pts]]]. *)
Definition gather_pixels {A : Type} (im : ndarray2 A) (pix : list (Z * Z))
  : result (list A) :=
  mapM (fun p : Z * Z => np_getitem2 im p.2 p.1) pix.

(** Lines 340-358: the RGB pixels of the valid voxels and the new packed
    colours.  Nothing is written here. *)
Definition cpu_color_stage (self : TSDFVolume) (fr : Frame.t)
    (color_im : ndarray2 Q) (valid_pts : list bool)
    (valid_vox : list (Z * Z * Z)) (w_old w_new : list Q) (vol : Volume)
  : result (list (Z * Z) * list Q) :=
  '(_, pix) ← cpu_project self (Frame.rgb_pose fr) (Frame.rgb_intr fr);
  old_color ← gather (_vol_dim self) (color_vol vol) valid_vox;
  let rgb_pix := select valid_pts pix in
  new_color ← gather_pixels color_im rgb_pix;
  Ok (rgb_pix,
      (fun p : Q * Q * Q * Q =>
         let '(oc, nc, wo, wn) := p in
         np_blend_color (_color_const self) oc nc wo (Frame.obs_weight fr) wn)
      <$> zip (zip (zip old_color new_color) w_old) w_new).

(** Lines 362-363. *)
Definition cpu_mask_stage (self : TSDFVolume) (fr : Frame.t)
    (rgb_pix : list (Z * Z)) (valid_vox : list (Z * Z * Z)) (vol : Volume)
  : result (list Z) :=
  old_mask ← gather (_vol_dim self) (mask_vol vol) valid_vox;
  new_mask ← gather_pixels (Frame.mask_im fr) rgb_pix;
  Ok ((fun p : Z * Z => Z.lor p.1 p.2) <$> zip old_mask new_mask).

(** Lines 307-335: everything up to and including the call of
    [integrate_tsdf]. *)
Definition cpu_tsdf_stage (self : TSDFVolume) (fr : Frame.t)
  : result (list bool * list (Z * Z * Z) * list Q
            * (list Q * list Q * list Q)) :=
  let d := _vol_dim self in
  let vol := host self in
  '(valid_pts, valid_dist) ← cpu_depth_stage self fr;
  let valid_vox := select valid_pts (vox_coords self) in
  w_old ← gather d (weight_vol vol) valid_vox;
  tsdf_vals ← gather d (tsdf_vol vol) valid_vox;
  occl_vals ← gather d (occl_vol vol) valid_vox;
  r ← integrate_tsdf tsdf_vals occl_vals valid_dist w_old
        (Frame.obs_weight fr);
  Ok (valid_pts, valid_vox, w_old, r).

(** Lines 336-364: the writes that follow [integrate_tsdf]. *)
Definition cpu_write_stage (self : TSDFVolume) (fr : Frame.t)
    (color_im : ndarray2 Q)
    (st : list bool * list (Z * Z * Z) * list Q
          * (list Q * list Q * list Q)) : completion :=
  let d := _vol_dim self in
  let vol := host self in
  let '(valid_pts, valid_vox, w_old, (tsdf_vol_new, w_new, occl_vol_new)) :=
    st in
  let vol := set_weight vol (scatter d (weight_vol vol) valid_vox w_new) in
  let vol := set_tsdf vol (scatter d (tsdf_vol vol) valid_vox tsdf_vol_new) in
  let vol := set_occl vol (scatter d (occl_vol vol) valid_vox occl_vol_new) in
  match cpu_color_stage self fr color_im valid_pts valid_vox w_old w_new vol
  with
  | Raise e => Raised e (with_host self vol)
  | Ok (rgb_pix, colors) =>
      let vol := set_color vol (scatter d (color_vol vol) valid_vox colors) in
      match cpu_mask_stage self fr rgb_pix valid_vox vol with
      | Raise e => Raised e (with_host self vol)
      | Ok masks =>
          Returned
            (with_host self
               (set_mask vol (scatter d (mask_vol vol) valid_vox masks)))
      end
  end.

(** Line 272 applied to the colour image of a frame. *)
Definition folded_color_im (fr : Frame.t) : ndarray2 Q :=
  mk_ndarray2 (nrows (Frame.color_im fr)) (ncols (Frame.color_im fr))
    (fold_color <$> flat (Frame.color_im fr)).

Definition integrate (self : TSDFVolume) (fr : Frame.t) : completion :=
  match gpu self with
  | Some s =>
      (* GPU mode: integrate voxel volume (calls CUDA kernel) *)
      match gpu_loops self s fr (seqZ 0 (_n_gpu_loops s)) (device s) with
      | Some g => Returned (with_device self s g)
      | None => Undefined
      end
  | None =>
      (* CPU mode: integrate voxel volume (vectorized implementation) *)
      let color_im := folded_color_im fr in
      match cpu_tsdf_stage self fr with
      | Raise e => Raised e self
      | Ok st => cpu_write_stage self fr color_im st
      end
  end.


(** ** [reset_visible] (lines 22-35) *)

(** [a[:] = 0.0]. *)
Definition fill_zero {A : Type} (zero : A) (a : list A) : list A :=
  (fun _ => zero) <$> a.

Definition reset_visible (self : TSDFVolume) : TSDFVolume :=
  let h := host self in
  let h := set_weight h (fill_zero 0%Q (weight_vol h)) in
  let h := set_mask h (fill_zero 0%Z (mask_vol h)) in
  let self := with_host self h in
  (* Copy voxel volumes to GPU *)
  match gpu self with
  | Some s =>
      let g := device s in
      let g := set_weight g (weight_vol h) in
      let g := set_mask g (mask_vol h) in
      with_device self s g
  | None => self
  end.

(** [get_volume] (lines 366-372): the host arrays after the device to
    host copies; the weight array is not copied back. *)
Definition get_volume (self : TSDFVolume)
  : TSDFVolume * (list Q * list Q * list Q * list Z) :=
  let h := host self in
  let h :=
    match gpu self with
    | Some s =>
        mk_Volume (tsdf_vol (device s)) (occl_vol (device s)) (weight_vol h)
          (color_vol (device s)) (mask_vol (device s))
    | None => h
    end in
  (with_host self h, (tsdf_vol h, occl_vol h, color_vol h, mask_vol h)).

(** ** Sequences of calls *)

(** The object a caller holds after a call that returned or whose
    exception it caught. *)
Definition state_after (c : completion) : option TSDFVolume :=
  match c with
  | Returned self => Some self
  | Raised _ self => Some self
  | Undefined => None
  end.

Fixpoint integrate_all (self : TSDFVolume) (frames : list Frame.t)
  : option TSDFVolume :=
  match frames with
  | [] => Some self
  | fr :: rest =>
      self' ← state_after (integrate self fr);
      integrate_all self' rest
  end.

(** The arrays the active path works on: the device buffers in GPU mode,
    the host arrays in CPU mode. *)
Definition grid (self : TSDFVolume) : Volume :=
  match gpu self with
  | Some s => device s
  | None => host self
  end.

(** ** The kernel seen from one voxel *)

(** The five entries of the arrays at one index. *)
Record Voxel : Type := mk_Voxel {
  tsdf : Q;
  occl : Q;
  weight : Q;
  color : Q;
  mask : Z
}.

Definition cell (g : Volume) (i : Z) : option Voxel :=
  t ← ix (tsdf_vol g) i;
  o ← ix (occl_vol g) i;
  w ← ix (weight_vol g) i;
  c ← ix (color_vol g) i;
  m ← ix (mask_vol g) i;
  Some (mk_Voxel t o w c m).

Definition write_cell (g : Volume) (i : Z) (c : Voxel) : Volume :=
  mk_Volume (put (tsdf_vol g) i (tsdf c)) (put (occl_vol g) i (occl c))
    (put (weight_vol g) i (weight c)) (put (color_vol g) i (color c))
    (put (mask_vol g) i (mask c)).

(** Lines 117-143 for the voxel [voxel_idx]: [None] when the kernel
    returns at the frustum test or at the depth test, else the flat index
    of the depth pixel and [depth_diff]. *)
Definition observe (a : KernelArgs) (voxel_idx : Z) : option (Z * Q) :=
  let pt :=
    world_point (vol_origin a) (voxel_size a)
      (kernel_voxel_coords (vol_dim a) voxel_idx) in
  let cam_pt := camera_point (cam_pose a) pt in
  let pixel := image_pixel (cam_intr a) cam_pt in
  if outside_frustum a pixel cam_pt.2 then None else
  match ix (depth_im a) (pixel.2 * im_w a + pixel.1) with
  | Some depth_value =>
      if Qeq_bool depth_value 0 then None
      else Some (pixel.2 * im_w a + pixel.1, (depth_value - cam_pt.2)%Q)
  | None => None
  end.

(** Lines 161-171 and 177: the packed colour the kernel reads for the
    voxel, [None] when it returns at the second frustum test. *)
Definition rgb_sample (a : KernelArgs) (voxel_idx : Z) : option Q :=
  let pt :=
    world_point (vol_origin a) (voxel_size a)
      (kernel_voxel_coords (vol_dim a) voxel_idx) in
  let rgb_pixel := image_pixel (rgb_intr a) (camera_point (rgb_pose a) pt) in
  if outside_frustum a rgb_pixel (camera_point (cam_pose a) pt).2 then None
  else ix (color_im a) (rgb_pixel.2 * im_w a + rgb_pixel.1).

(** What one run of the kernel body does to the entries of its voxel. *)
Definition voxel_step (a : KernelArgs) (voxel_idx : Z) (c : Voxel) : Voxel :=
  match observe a voxel_idx with
  | None => c
  | Some (p, depth_diff) =>
      let m := Z.lor (mask c) (default 0 (ix (mask_im a) p)) in
      let o := Qmaxf (occl c) depth_diff in
      if Qltb depth_diff (- trunc_margin a)
      then mk_Voxel (tsdf c) o (weight c) (color c) m
      else
        let dist := Qminf 1 (depth_diff / trunc_margin a) in
        let w_new := (weight c + obs_weight a)%Q in
        let t := ((tsdf c * weight c + obs_weight a * dist) / w_new)%Q in
        match rgb_sample a voxel_idx with
        | None => mk_Voxel t o w_new (color c) m
        | Some new_color =>
            mk_Voxel t o w_new
              (blend_color (color c) new_color (weight c) (obs_weight a)
                 w_new) m
        end
  end.

(** The voxel index of a launched thread, given as (blockIdx, threadIdx). *)
Definition thread_idx (gridDim blockDim : dim3) (a : KernelArgs)
    (th : dim3 * dim3) : Z :=
  thread_voxel_idx gridDim blockDim th.1 th.2 (gpu_loop_idx a).

(** The number of threads of a launch. *)
Definition launch_size (gridDim blockDim : dim3) : Z :=
  x3 gridDim * y3 gridDim * z3 gridDim * x3 blockDim.

(** The index of a thread before the 32-bit wrap, [base] being the offset
    of the launch. *)
Definition raw_thread_idx (gridDim blockDim : dim3) (base : Z)
    (th : dim3 * dim3) : Z :=
  base + ((z3 th.1 * y3 gridDim * x3 gridDim + y3 th.1 * x3 gridDim
           + x3 th.1) * x3 blockDim + x3 th.2).

(** A device whose limits are positive. *)
Definition device_ok (dev : Device) : Prop :=
  0 < MAX_THREADS_PER_BLOCK dev /\ 0 < MAX_GRID_DIM_X dev /\
  0 < MAX_GRID_DIM_Y dev /\ 0 < MAX_GRID_DIM_Z dev.



(** The five arrays of a grid have one length. *)
Definition wf_volume (g : Volume) : Prop :=
  length (occl_vol g) = length (tsdf_vol g) /\
  length (weight_vol g) = length (tsdf_vol g) /\
  length (color_vol g) = length (tsdf_vol g) /\
  length (mask_vol g) = length (tsdf_vol g).

(** The launch configuration of a grid reaches every voxel, and its
    thread indices stay within 32 bits.  A grid of 2^31 voxels fits, for
    which the product of line 114 wraps ([int_prod3]). *)
Definition launch_covers (self : TSDFVolume) (s : GpuState) : Prop :=
  0 < _max_gpu_threads_per_block s /\
  0 < (_max_gpu_grid_dim s).1.1 /\
  0 < (_max_gpu_grid_dim s).1.2 /\
  0 < (_max_gpu_grid_dim s).2 /\
  0 <= _n_gpu_loops s /\
  prod3 (_vol_dim self)
    <= _n_gpu_loops s *
       ((_max_gpu_grid_dim s).1.1 * (_max_gpu_grid_dim s).1.2 *
        (_max_gpu_grid_dim s).2 * _max_gpu_threads_per_block s) /\
  _n_gpu_loops s *
    ((_max_gpu_grid_dim s).1.1 * (_max_gpu_grid_dim s).1.2 *
     (_max_gpu_grid_dim s).2 * _max_gpu_threads_per_block s) <= 2 ^ 31.

(** The voxel [v] passes the frustum test, the depth test and the
    truncation test of the frame [fr], which then contributes the weight
    [ws.1] and the truncated distance [ws.2]. *)
Definition observed_at (self : TSDFVolume) (fr : Frame.t) (v : Z)
    (ws : Q * Q) : Prop :=
  (ws.1 == Frame.obs_weight fr)%Q /\ (0 < ws.1)%Q /\
  exists p depth_diff,
    observe (kernel_args self fr 0) v = Some (p, depth_diff) /\
    (- _trunc_margin self <= depth_diff)%Q /\
    (ws.2 == Qminf 1 (depth_diff / _trunc_margin self))%Q.

(** Weighted sums over a list of (weight, distance) observations. *)
Definition sum_w (obs : list (Q * Q)) : Q :=
  foldr (fun p acc => (p.1 + acc)%Q) 0%Q obs.
Definition sum_ws (obs : list (Q * Q)) : Q :=
  foldr (fun p acc => (p.1 * p.2 + acc)%Q) 0%Q obs.

(** The invariant of C3 on the arrays of a grid. *)
Definition tsdf_bounded (g : Volume) : Prop :=
  Forall (fun t => (-1 <= t <= 1)%Q) (tsdf_vol g) /\
  Forall (fun w => (0 <= w)%Q) (weight_vol g).

(** The arrays of a grid of [n] voxels after construction. *)
Definition fresh_volume (n : nat) : Volume :=
  mk_Volume (replicate n 1%Q) (replicate n (-100)%Q) (replicate n 0%Q)
    (replicate n 0%Q) (replicate n 0).

(** What a sequence of calls keeps true of an object. *)
Definition tsdf_invariant (self : TSDFVolume) : Prop :=
  (0 < _trunc_margin self)%Q /\ wf_volume (grid self) /\
  tsdf_bounded (grid self) /\ tsdf_bounded (host self).

(** ** Sequences of frames seen from one voxel *)

(** What a sequence of GPU calls does to the entries of one voxel. *)
Definition voxel_steps (self : TSDFVolume) (frames : list Frame.t) (v : Z)
    (c : Voxel) : Voxel :=
  foldl (fun c fr => voxel_step (kernel_args self fr 0) v c) c frames.

(** What a frame adds to the running mean of a voxel: its weight and the
    truncated distance, [None] when the kernel returns before line 155. *)
Definition contribution (self : TSDFVolume) (v : Z) (fr : Frame.t)
  : option (Q * Q) :=
  match observe (kernel_args self fr 0) v with
  | Some (_, depth_diff) =>
      if Qltb depth_diff (- _trunc_margin self) then None
      else Some (Frame.obs_weight fr,
                 Qminf 1 (depth_diff / _trunc_margin self))
  | None => None
  end.


(** ** Colours and poses the statements speak of *)

(** A packed colour: an integer below 2^24 with its three bytes. *)
Definition packed (c : Q) : Prop :=
  exists r g b : Z, 0 <= r <= 255 /\ 0 <= g <= 255 /\ 0 <= b <= 255 /\
    (c == inject_Z (b * 65536 + g * 256 + r))%Q.

(** A pixel of an 8-bit colour image. *)
Definition rgb8 (p : Q * Q * Q) : Prop :=
  exists r g b : Z, 0 <= r <= 255 /\ 0 <= g <= 255 /\ 0 <= b <= 255 /\
    triple_eq p (inject_Z r, inject_Z g, inject_Z b).

(** A 4x4 matrix whose last row is (0, 0, 0, 1), as camera poses are. *)
Definition affine (pose : list Q) : Prop :=
  length pose = 16%nat /\
  (at_ pose 12 == 0 /\ at_ pose 13 == 0 /\ at_ pose 14 == 0 /\
   at_ pose 15 == 1)%Q.

(** The columns of the rotation part of a pose are orthonormal. *)
Definition orthonormal (pose : list Q) : Prop :=
  let dot (i j : nat) :=
    (at_ pose (0 * 4 + i) * at_ pose (0 * 4 + j)
     + at_ pose (1 * 4 + i) * at_ pose (1 * 4 + j)
     + at_ pose (2 * 4 + i) * at_ pose (2 * 4 + j))%Q in
  (dot 0 0 == 1 /\ dot 1 1 == 1 /\ dot 2 2 == 1 /\
   dot 0 1 == 0 /\ dot 0 2 == 0 /\ dot 1 2 == 0)%nat%Q.

(** ** The downsampled queries (lines 398-462) *)

(** The indices [a[::step]] selects on an axis of length [n]: from 0
    upwards for a positive step, from [n - 1] downwards for a negative
    one; a zero step is refused. *)
Definition slice_indices (n step : Z) : result (list Z) :=
  if step =? 0 then Raise ValueError
  else if 0 <? step
  then Ok ((fun i => i * step) <$> seqZ 0 ((n + step - 1) `div` step))
  else Ok ((fun i => n - 1 + i * step)
           <$> seqZ 0 ((n - step - 1) `div` (- step))).

(** [vol[::step, ::step, ::step]] on an array of shape [d] kept flat:
    the shape of the result and its entries in C order. *)
Definition strided3 {A : Type} (d : Z * Z * Z) (vol : list A) (step : Z)
  : result (Z * Z * Z * list A) :=
  xs ← slice_indices d.1.1 step;
  ys ← slice_indices d.1.2 step;
  zs ← slice_indices d.2 step;
  vals ← gather d vol (x ← xs; y ← ys; z ← zs; [(x, y, z)]);
  Ok ((Z.of_nat (length xs), Z.of_nat (length ys), Z.of_nat (length zs)),
      vals).

(** Lines 422-423 for one voxel. *)
Definition occupied (occl tsdf : Q) : bool :=
  (Qltb (-100) occl && Qltb occl 0)
  || (Qltb (- (1 # 2)) tsdf && Qltb tsdf (9 # 10)).

(** The method returns the points and the flags; the object is the one
    [get_volume] leaves, also when the slicing raises. *)
Definition get_downsampled_all_voxels_pcd_and_voxel_mask
    (self : TSDFVolume) (reduce : Z)
  : TSDFVolume * result (list (Q * Q * Q) * list bool) :=
  (* Get the voxel grid data *)
  let '(self, (tsdf_vol, occl_vol, color_vol, mask_vol)) := get_volume self in
  (self,
   let d := _vol_dim self in
   (* Downsample everything using strided slicing *)
   let occupied_mask :=
     (fun p : Q * Q => occupied p.1 p.2) <$> zip occl_vol tsdf_vol in
   '(shape, _) ← strided3 d tsdf_vol reduce;
   _ ← strided3 d color_vol reduce;
   _ ← strided3 d mask_vol reduce;
   (* Adjust voxel size for proper scaling *)
   let downsampled_voxel_size := (_voxel_size self * inject_Z reduce)%Q in
   (* Generate voxel grid coordinates *)
   let points :=
     (fun c : Z * Z * Z =>
        (inject_Z c.1.1 * downsampled_voxel_size + at_ (_vol_origin self) 0,
         inject_Z c.1.2 * downsampled_voxel_size + at_ (_vol_origin self) 1,
         inject_Z c.2 * downsampled_voxel_size + at_ (_vol_origin self) 2)%Q)
     <$> meshgrid_ij shape in
   '(_, occupied_mask) ← strided3 d occupied_mask reduce;
   Ok (points, occupied_mask)).

Definition get_downsampled_all_voxels_pcd (self : TSDFVolume) (reduce : Z)
  : TSDFVolume * result (list (Q * Q * Q)) :=
  let r := get_downsampled_all_voxels_pcd_and_voxel_mask self reduce in
  (r.1, '(pc, _) ← r.2; Ok pc).

Definition get_downsampled_voxel_collision_mask (self : TSDFVolume)
    (reduce : Z) : TSDFVolume * result (list bool) :=
  let r := get_downsampled_all_voxels_pcd_and_voxel_mask self reduce in
  (r.1, '(_, occupied_mask) ← r.2; Ok occupied_mask).

(** The number of entries [a[::step]] keeps of an axis. *)
Definition sliced_len (n step : Z) : Z := (n + step - 1) `div` step.

(** ** [get_view_frustum] (lines 492-504) *)

(** [np.max] of an array, which an empty array has not. *)
Definition np_max (a : list Q) : result Q :=
  match a with
  | [] => Raise ValueError
  | x :: a' => Ok (foldl Qmaxf x a')
  end.

(** The five corners of the view frustum, returned as the three rows of
    a 3x5 array.  The focal lengths divide: the statements below take
    them non-zero. *)
Definition get_view_frustum (depth_im : ndarray2 Q) (cam_intr cam_pose : list Q)
  : result (list Q * list Q * list Q) :=
  let im_h := nrows depth_im in
  let im_w := ncols depth_im in
  max_depth ← np_max (flat depth_im);
  let depths := [0; max_depth; max_depth; max_depth; max_depth]%Q in
  let view_frust_pts :=
    ((fun p : Z * Q =>
        ((inject_Z p.1 - at_ cam_intr (0 * 3 + 2)) * p.2
         / at_ cam_intr (0 * 3 + 0))%Q) <$> zip [0; 0; 0; im_w; im_w] depths,
     (fun p : Z * Q =>
        ((inject_Z p.1 - at_ cam_intr (1 * 3 + 2)) * p.2
         / at_ cam_intr (1 * 3 + 1))%Q) <$> zip [0; 0; im_h; 0; im_h] depths,
     depths) in
  let view_frust_pts :=
    rigid_transform
      (zip (zip view_frust_pts.1.1 view_frust_pts.1.2) view_frust_pts.2)
      cam_pose in
  Ok ((fun p : Q * Q * Q => p.1.1) <$> view_frust_pts,
      (fun p : Q * Q * Q => p.1.2) <$> view_frust_pts,
      (fun p : Q * Q * Q => p.2) <$> view_frust_pts).

(** The columns of the array [get_view_frustum] returns. *)
Definition columns (a : list Q * list Q * list Q) : list (Q * Q * Q) :=
  zip (zip a.1.1 a.1.2) a.2.

(** ** Concrete scenes *)

(** A device with the limits of current hardware. *)
Definition demo_device : Device := mk_Device 1024 2147483647 65535 65535.

Definition I3 : list Q := [1; 0; 0; 0; 1; 0; 0; 0; 1]%Q.
Definition I4 : list Q := [1; 0; 0; 0; 0; 1; 0; 0; 0; 0; 1; 0; 0; 0; 0; 1]%Q.

(** Bounds of a grid of one voxel of 2 cm whose corner is at depth [z0]. *)
Definition one_voxel_bnds (z0 : Q) : ndarray2 Q :=
  mk_ndarray2 3 2 [0; 2 # 100; 0; 2 # 100; z0; z0 + (2 # 100)]%Q.

(** A frame of one pixel with colour (100, 150, 200) and mask 3. *)
Definition one_pixel_frame (intr : list Q) (depth : Q) (rgb_pose : list Q)
    (w : Q) : Frame.t :=
  Frame.mk (mk_ndarray2 1 1 [(100, 150, 200)%Q]) (mk_ndarray2 1 1 [depth])
    (mk_ndarray2 1 1 [3]) intr I4 intr rgb_pose w.

Definition no_volume : TSDFVolume :=
  mk_TSDFVolume (mk_ndarray2 0 0 []) 0 0 0 (0, 0, 0) []
    (mk_Volume [] [] [] [] []) None [].

(** The object a successful construction returns. *)
Definition built (r : result TSDFVolume) : TSDFVolume :=
  match r with
  | Ok self => self
  | Raise _ => no_volume
  end.

(** The arrays of a volume with every float reduced to lowest terms. *)
Definition reduced (g : Volume)
  : list Q * list Q * list Q * list Q * list Z :=
  (Qred <$> tsdf_vol g, Qred <$> occl_vol g, Qred <$> weight_vol g,
   Qred <$> color_vol g, mask_vol g).

(** Two frames seen by a voxel at depth 1 cm: depth 1 m with weight 1,
    then depth 5 cm with weight 3. *)
Definition mean_self : TSDFVolume :=
  built (__init__ (Some demo_device) (one_voxel_bnds (1 # 100)) (2 # 100) true).
Definition mean_frames : list Frame.t :=
  [one_pixel_frame I3 1 I4 1; one_pixel_frame I3 (5 # 100) I4 3].
Definition mean_after : TSDFVolume :=
  default no_volume (integrate_all mean_self mean_frames).

(** A voxel at depth 1 m seen behind a surface at 0.5 m. *)
Definition zoom_intr : list Q := [100; 0; 0; 0; 100; 0; 0; 0; 1]%Q.
Definition far_self : TSDFVolume :=
  built (__init__ (Some demo_device) (one_voxel_bnds 1) (2 # 100) true).
Definition near_frame : Frame.t := one_pixel_frame zoom_intr (1 # 2) I4 1.

(** The grid of [mean_self] in CPU mode, and a frame whose surface is 4 cm
    behind the voxel. *)
Definition mean_self_cpu : TSDFVolume :=
  built (__init__ None (one_voxel_bnds (1 # 100)) (2 # 100) true).
Definition close_frame : Frame.t := one_pixel_frame I3 (5 # 100) I4 1.

(** Two frames with depths 0.5 m and 2 m. *)
Definition occl_frames : list Frame.t :=
  [one_pixel_frame I3 (1 # 2) I4 1; one_pixel_frame I3 2 I4 1].

(** A grid whose only voxel is at the camera centre. *)
Definition centre_self : TSDFVolume :=
  built (__init__ (Some demo_device) (one_voxel_bnds 0) (2 # 100) true).
Definition unit_frame : Frame.t := one_pixel_frame I3 1 I4 1.

(** The grid of [far_self] in CPU mode. *)
Definition far_self_cpu : TSDFVolume :=
  built (__init__ None (one_voxel_bnds 1) (2 # 100) true).

(** An RGB camera one metre to the left of the depth camera. *)
Definition shifted_pose : list Q :=
  [1; 0; 0; -1; 0; 1; 0; 0; 0; 0; 1; 0; 0; 0; 0; 1]%Q.
Definition shifted_frame : Frame.t :=
  one_pixel_frame zoom_intr 1 shifted_pose 1.

(** Bounds with min > max on every axis, with min = max on the first
    axis, and of the unit cube. *)
Definition flipped_bnds : ndarray2 Q := mk_ndarray2 3 2 [1; 0; 1; 0; 1; 0]%Q.
Definition flat_bnds : ndarray2 Q := mk_ndarray2 3 2 [0; 0; 0; 1; 0; 1]%Q.
Definition unit_bnds : ndarray2 Q := mk_ndarray2 3 2 [0; 1; 0; 1; 0; 1]%Q.

(** The grid of [mean_self] after the first frame of [mean_frames], after
    that frame twice, and after the two frames in the other order. *)
Definition mean_first : TSDFVolume :=
  default no_volume (integrate_all mean_self (take 1 mean_frames)).
Definition mean_twice : TSDFVolume :=
  default no_volume
    (integrate_all mean_self (take 1 mean_frames ++ take 1 mean_frames)).
Definition mean_swapped : TSDFVolume :=
  default no_volume (integrate_all mean_self (reverse mean_frames)).


(** A camera at (1, 2, 3) turned by a quarter about its z axis. *)
Definition turned_pose : list Q :=
  [0; -1; 0; 1; 1; 0; 0; 2; 0; 0; 1; 3; 0; 0; 0; 1]%Q.

(** The unit cube in voxels of 25 cm, in CPU mode. *)
Definition cube_self : TSDFVolume :=
  built (__init__ None unit_bnds (1 # 4) false).

(** A depth image of two rows and three columns. *)
Definition small_depth : ndarray2 Q :=
  mk_ndarray2 2 3 [1; 2; 1; (3 # 2); 1; 1]%Q.

(** * Properties *)

(** ** Colour codec *)

Lemma Qfloor_div_inject (n m : Z) :
  Qfloor (inject_Z n / inject_Z m) = n `div` m.
Proof. symmetry. apply Zdiv_Qdiv. Qed.

(** C5. For integer channels r, g, b in [0,255], unpacking the packed
    value b*65536 + g*256 + r by b' = floor(c/65536),
    g' = floor((c - b'*65536)/256), r' = c - b'*65536 - g'*256 returns
    exactly (r, g, b). *)
Theorem unpack_fold_color (r g b : Z) :
  0 <= r <= 255 -> 0 <= g <= 255 -> 0 <= b <= 255 ->
  fold_color (inject_Z r, inject_Z g, inject_Z b)
    == inject_Z (b * 65536 + g * 256 + r) /\
  triple_eq (unpack_color (inject_Z (b * 65536 + g * 256 + r)))
            (inject_Z r, inject_Z g, inject_Z b).
Proof.
  intros Hr Hg Hb.
  assert (Hc : (inject_Z b * color_const + inject_Z g * 256 + inject_Z r
                == inject_Z (b * 65536 + g * 256 + r))%Q).
  { unfold color_const. rewrite !inject_Z_plus, !inject_Z_mult. ring. }
  split.
  { unfold fold_color, floorf. rewrite Hc, Qfloor_Z. reflexivity. }
  unfold unpack_color, triple_eq, floorf; cbn [fst snd].
  set (c := b * 65536 + g * 256 + r).
  assert (Hfb : Qfloor (inject_Z c / color_const) = b).
  { change color_const with (inject_Z 65536).
    rewrite Qfloor_div_inject. subst c.
    symmetry. apply (Z.div_unique _ _ _ (g * 256 + r)); lia. }
  rewrite Hfb.
  assert (Hg' : (inject_Z c - inject_Z b * color_const
                 == inject_Z (g * 256 + r))%Q).
  { subst c. unfold color_const.
    rewrite !inject_Z_plus, !inject_Z_mult. ring. }
  assert (Hfg : Qfloor ((inject_Z c - inject_Z b * color_const) / 256) = g).
  { rewrite Hg'. change (256%Q) with (inject_Z 256).
    rewrite Qfloor_div_inject.
    symmetry. apply (Z.div_unique _ _ _ r); lia. }
  rewrite Hfg.
  repeat split; try reflexivity.
  subst c. unfold color_const.
  rewrite !inject_Z_plus, !inject_Z_mult. ring.
Qed.

Lemma unpack_fold_color_witness :
  fold_color (inject_Z 100, inject_Z 150, inject_Z 200)
    == inject_Z (200 * 65536 + 150 * 256 + 100) /\
  triple_eq (unpack_color (inject_Z (200 * 65536 + 150 * 256 + 100)))
            (inject_Z 100, inject_Z 150, inject_Z 200).
Proof.
  apply (unpack_fold_color 100 150 200); lia.
Defined.

(** ** Buffers and cells *)

Lemma ix_Some_range {A} (l : list A) i x :
  ix l i = Some x -> 0 <= i < Z.of_nat (length l).
Proof.
  unfold ix. destruct (Z.ltb_spec i 0); [done|].
  intros H'%lookup_lt_Some. lia.
Qed.

Lemma ix_in_range {A} (l : list A) i :
  0 <= i < Z.of_nat (length l) -> exists x, ix l i = Some x.
Proof.
  intros Hi. unfold ix. destruct (Z.ltb_spec i 0); [lia|].
  apply lookup_lt_is_Some_2. lia.
Qed.

Lemma ix_put_eq {A} (l : list A) i x y :
  ix l i = Some x -> ix (put l i y) i = Some y.
Proof.
  unfold ix, put. destruct (Z.ltb_spec i 0); [done|].
  intros H'%lookup_lt_Some. by apply list_lookup_insert_eq.
Qed.

Lemma ix_put_ne {A} (l : list A) i j y :
  0 <= i -> i <> j -> ix (put l i y) j = ix l j.
Proof.
  unfold ix, put. intros Hi Hne. destruct (Z.ltb_spec j 0); [done|].
  apply list_lookup_insert_ne. lia.
Qed.

Lemma put_id {A} (l : list A) i x : ix l i = Some x -> put l i x = l.
Proof.
  unfold ix, put. destruct (Z.ltb_spec i 0); [done|].
  apply list_insert_id.
Qed.

Lemma length_put {A} (l : list A) i x : length (put l i x) = length l.
Proof. apply length_insert. Qed.

Lemma wf_cell g v (m : Z) :
  wf_volume g -> ix (mask_vol g) v = Some m ->
  exists t o w c, ix (tsdf_vol g) v = Some t /\ ix (occl_vol g) v = Some o /\
    ix (weight_vol g) v = Some w /\ ix (color_vol g) v = Some c.
Proof.
  intros (Ho & Hw & Hc & Hm) Hv%ix_Some_range.
  destruct (ix_in_range (tsdf_vol g) v) as [t Ht]; [lia|].
  destruct (ix_in_range (occl_vol g) v) as [o Ho']; [lia|].
  destruct (ix_in_range (weight_vol g) v) as [w Hw']; [lia|].
  destruct (ix_in_range (color_vol g) v) as [c Hc']; [lia|].
  eauto 10.
Qed.

(** ** 32-bit integers *)

Lemma wrap32_id (v : Z) : - 2 ^ 31 <= v < 2 ^ 31 -> wrap32 v = v.
Proof. intros Hv. unfold wrap32. rewrite Z.mod_small; lia. Qed.

Lemma wrap32_range (v : Z) : - 2 ^ 31 <= wrap32 v < 2 ^ 31.
Proof.
  unfold wrap32. pose proof (Z.mod_pos_bound (v + 2 ^ 31) (2 ^ 32)). lia.
Qed.

Lemma wrap32_mul_l (a b : Z) : wrap32 (wrap32 a * b) = wrap32 (a * b).
Proof.
  unfold wrap32. f_equal.
  set (k := (a + 2 ^ 31) `div` 2 ^ 32).
  assert (E : (a + 2 ^ 31) `mod` 2 ^ 32 - 2 ^ 31 = a - k * 2 ^ 32).
  { unfold k. pose proof (Z.div_mod (a + 2 ^ 31) (2 ^ 32)). lia. }
  rewrite E.
  replace ((a - k * 2 ^ 32) * b + 2 ^ 31)
    with (a * b + 2 ^ 31 + (- k * b) * 2 ^ 32) by ring.
  apply Z_mod_plus_full.
Qed.

Lemma int_prod3_wrap d : int_prod3 d = wrap32 (prod3 d).
Proof. unfold int_prod3, prod3. apply wrap32_mul_l. Qed.

(** Below 2^31 the product of line 114 is the number of voxels. *)
Lemma int_prod3_id d : - 2 ^ 31 <= prod3 d < 2 ^ 31 -> int_prod3 d = prod3 d.
Proof. intros H. rewrite int_prod3_wrap. by apply wrap32_id. Qed.


Lemma thread_voxel_idx_range gd bd bi ti l :
  - 2 ^ 31 <= thread_voxel_idx gd bd bi ti l < 2 ^ 31.
Proof. apply wrap32_range. Qed.

Lemma integrate_kernel_spec gd bd bi ti a g g' :
  wf_volume g ->
  integrate_kernel gd bd bi ti a g = Some g' ->
  let v := thread_voxel_idx gd bd bi ti (gpu_loop_idx a) in
  (int_prod3 (vol_dim a) < v /\ g' = g) \/
  (v <= int_prod3 (vol_dim a) /\ observe a v = None /\ g' = g) \/
  (exists c, v <= int_prod3 (vol_dim a) /\ cell g v = Some c /\
             g' = write_cell g v (voxel_step a v c)).
Proof.
  intros Hwf H v. unfold integrate_kernel in H. fold v in H.
  destruct (Z.gtb_spec v (int_prod3 (vol_dim a))) as [Hgt|Hle].
  { left. split; [lia|congruence]. }
  right.
  unfold voxel_step, observe, rgb_sample.
  set (pt := world_point _ _ _) in *.
  set (cam_pt := camera_point (cam_pose a) pt) in *.
  set (pixel := image_pixel (cam_intr a) cam_pt) in *.
  destruct (outside_frustum a pixel cam_pt.2).
  { left. split; [done|]. split; [done|congruence]. }
  destruct (ix (depth_im a) _) as [depth_value|] eqn:Hd; [|done].
  cbn [mbind option_bind] in H.
  destruct (Qeq_bool depth_value 0).
  { left. split; [done|]. split; [done|congruence]. }
  right.
  destruct (ix (mask_vol g) v) as [old_mask|] eqn:Hm; [|done].
  destruct (wf_cell g v old_mask Hwf Hm) as (t & o & w & c & Ht & Ho & Hw & Hc).
  exists (mk_Voxel t o w c old_mask).
  split; [done|]. split.
  { unfold cell. rewrite Ht, Ho, Hw, Hc, Hm. done. }
  cbn [mbind option_bind] in H.
  destruct (ix (mask_im a) _) as [new_mask|] eqn:Hnm; [|done].
  cbn [mbind option_bind set_mask set_occl set_weight set_tsdf set_color
       weight_vol tsdf_vol color_vol mask_vol occl_vol] in H.
  rewrite Ho in H. 
  cbn [mbind option_bind set_mask set_occl set_weight set_tsdf set_color
       weight_vol tsdf_vol color_vol mask_vol occl_vol] in H.
  cbn [tsdf occl weight color mask default].
  destruct (Qltb _ _).
  { inversion H; subst g'. unfold write_cell; cbn.
    by rewrite (put_id _ _ _ Ht), (put_id _ _ _ Hw), (put_id _ _ _ Hc). }
  rewrite Hw in H.
  cbn [mbind option_bind set_mask set_occl set_weight set_tsdf set_color
       weight_vol tsdf_vol color_vol mask_vol occl_vol] in H.
  rewrite Ht in H.
  cbn [mbind option_bind set_mask set_occl set_weight set_tsdf set_color
       weight_vol tsdf_vol color_vol mask_vol occl_vol] in H.
  destruct (outside_frustum a _ _).
  { inversion H; subst g'. unfold write_cell; cbn.
    by rewrite (put_id _ _ _ Hc). }
  rewrite Hc in H.
  cbn [mbind option_bind] in H.
  destruct (ix (color_im a) _) as [new_color|]; [|done].
  inversion H; subst g'. reflexivity.
Qed.

Lemma cell_Some_range g v c : cell g v = Some c -> 0 <= v.
Proof.
  unfold cell. destruct (ix (tsdf_vol g) v) eqn:Ht; [|done].
  intros _. apply ix_Some_range in Ht. lia.
Qed.

Lemma cell_write_eq g v c c' :
  cell g v = Some c -> cell (write_cell g v c') v = Some c'.
Proof.
  unfold cell, write_cell; cbn [tsdf_vol occl_vol weight_vol color_vol mask_vol].
  destruct (ix (tsdf_vol g) v) eqn:Ht; [|done].
  destruct (ix (occl_vol g) v) eqn:Ho; [|done].
  destruct (ix (weight_vol g) v) eqn:Hw; [|done].
  destruct (ix (color_vol g) v) eqn:Hc; [|done].
  destruct (ix (mask_vol g) v) eqn:Hm; [|done].
  intros _.
  rewrite (ix_put_eq _ _ _ _ Ht), (ix_put_eq _ _ _ _ Ho),
    (ix_put_eq _ _ _ _ Hw), (ix_put_eq _ _ _ _ Hc), (ix_put_eq _ _ _ _ Hm).
  by destruct c'.
Qed.

Lemma cell_write_ne g v u c' :
  0 <= v -> v <> u -> cell (write_cell g v c') u = cell g u.
Proof.
  intros Hv Hne.
  unfold cell, write_cell; cbn [tsdf_vol occl_vol weight_vol color_vol mask_vol].
  by rewrite !ix_put_ne.
Qed.

Lemma wf_write_cell g v c : wf_volume g -> wf_volume (write_cell g v c).
Proof.
  unfold wf_volume, write_cell;
    cbn [tsdf_vol occl_vol weight_vol color_vol mask_vol].
  by rewrite !length_put.
Qed.

Lemma length_write_cell g v c :
  length (tsdf_vol (write_cell g v c)) = length (tsdf_vol g).
Proof. apply length_put. Qed.

Lemma voxel_step_unobserved a v c : observe a v = None -> voxel_step a v c = c.
Proof. unfold voxel_step. by intros ->. Qed.

(** ** One thread *)

Section kernel.
Context (gd bd : dim3) (a : KernelArgs).

Lemma integrate_kernel_wf bi ti g g' :
  wf_volume g -> integrate_kernel gd bd bi ti a g = Some g' ->
  wf_volume g' /\ length (tsdf_vol g') = length (tsdf_vol g).
Proof.
  intros Hwf H.
  destruct (integrate_kernel_spec _ _ _ _ _ _ _ Hwf H)
    as [[_ ->]|[(_ & _ & ->)|(c & _ & _ & ->)]]; try done.
  split; [by apply wf_write_cell|apply length_write_cell].
Qed.

(** A thread changes no voxel but its own. *)
Lemma integrate_kernel_other bi ti g g' u :
  wf_volume g -> integrate_kernel gd bd bi ti a g = Some g' ->
  u <> thread_voxel_idx gd bd bi ti (gpu_loop_idx a) ->
  cell g' u = cell g u.
Proof.
  intros Hwf H Hne.
  destruct (integrate_kernel_spec _ _ _ _ _ _ _ Hwf H)
    as [[_ ->]|[(_ & _ & ->)|(c & _ & Hc & ->)]]; try done.
  apply cell_write_ne; [by eapply cell_Some_range|done].
Qed.

(** A thread whose index is not beyond the guard applies [voxel_step] to
    its voxel. *)
Lemma integrate_kernel_self bi ti g g' :
  wf_volume g -> integrate_kernel gd bd bi ti a g = Some g' ->
  let v := thread_voxel_idx gd bd bi ti (gpu_loop_idx a) in
  v <= int_prod3 (vol_dim a) ->
  cell g' v = voxel_step a v <$> cell g v.
Proof.
  intros Hwf H v Hv.
  pose proof (integrate_kernel_spec _ _ _ _ _ _ _ Hwf H) as Hs.
  cbv zeta in Hs. fold v in Hs.
  destruct Hs as [[? ->]|[(_ & Hobs & ->)|(c & _ & Hc & ->)]].
  - lia.
  - destruct (cell g v); [|done]. cbn. by rewrite voxel_step_unobserved.
  - rewrite Hc. cbn. by eapply cell_write_eq.
Qed.

(** A thread whose index is beyond the guard returns at once. *)
Lemma integrate_kernel_beyond bi ti g :
  int_prod3 (vol_dim a) < thread_voxel_idx gd bd bi ti (gpu_loop_idx a) ->
  integrate_kernel gd bd bi ti a g = Some g.
Proof.
  intros H. unfold integrate_kernel.
  destruct (Z.gtb_spec (thread_voxel_idx gd bd bi ti (gpu_loop_idx a))
              (int_prod3 (vol_dim a))); [done|lia].
Qed.

(** ** A sequence of threads *)

Lemma run_threads_wf ths g g' :
  wf_volume g -> run_threads gd bd a ths g = Some g' ->
  wf_volume g' /\ length (tsdf_vol g') = length (tsdf_vol g).
Proof.
  revert g. induction ths as [|[bi ti] ths IH]; intros g Hwf H.
  { by inversion H; subst. }
  cbn in H.
  destruct (integrate_kernel gd bd bi ti a g) as [g1|] eqn:Hk; [|done].
  cbn in H. destruct (integrate_kernel_wf _ _ _ _ Hwf Hk) as [Hwf1 Hl1].
  destruct (IH _ Hwf1 H) as [? Hl]. split; [done|congruence].
Qed.

Lemma run_threads_other ths g g' u :
  wf_volume g -> run_threads gd bd a ths g = Some g' ->
  u ∉ thread_idx gd bd a <$> ths ->
  cell g' u = cell g u.
Proof.
  revert g. induction ths as [|[bi ti] ths IH]; intros g Hwf H Hu.
  { by inversion H; subst. }
  cbn in H.
  destruct (integrate_kernel gd bd bi ti a g) as [g1|] eqn:Hk; [|done].
  cbn in H. rewrite fmap_cons, not_elem_of_cons in Hu.
  destruct Hu as [Hne Hu].
  destruct (integrate_kernel_wf _ _ _ _ Hwf Hk) as [Hwf1 _].
  rewrite (IH _ Hwf1 H Hu).
  by eapply integrate_kernel_other.
Qed.

Lemma run_threads_self ths g g' u :
  wf_volume g -> run_threads gd bd a ths g = Some g' ->
  NoDup (thread_idx gd bd a <$> ths) ->
  u ∈ thread_idx gd bd a <$> ths -> u <= int_prod3 (vol_dim a) ->
  cell g' u = voxel_step a u <$> cell g u.
Proof.
  revert g. induction ths as [|[bi ti] ths IH]; intros g Hwf H Hnd Hu HN.
  { by apply elem_of_nil in Hu. }
  cbn in H.
  destruct (integrate_kernel gd bd bi ti a g) as [g1|] eqn:Hk; [|done].
  cbn in H. rewrite fmap_cons in Hnd, Hu.
  apply NoDup_cons in Hnd as [Hnotin Hnd].
  destruct (integrate_kernel_wf _ _ _ _ Hwf Hk) as [Hwf1 _].
  destruct (decide (u = thread_idx gd bd a (bi, ti))) as [->|Hne].
  - rewrite (run_threads_other _ _ _ _ Hwf1 H Hnotin).
    by apply integrate_kernel_self.
  - apply elem_of_cons in Hu as [?|Hu]; [done|].
    rewrite (IH _ Hwf1 H Hnd Hu HN).
    by rewrite (integrate_kernel_other _ _ _ _ _ Hwf Hk Hne).
Qed.

Lemma run_threads_beyond ths g :
  Forall (fun th => int_prod3 (vol_dim a) < thread_idx gd bd a th) ths ->
  run_threads gd bd a ths g = Some g.
Proof.
  induction 1 as [|[bi ti] ths Hth _ IH]; [done|].
  cbn [run_threads]. rewrite integrate_kernel_beyond by exact Hth. exact IH.
Qed.
End kernel.

(** ** The voxel indices of a launch *)

Lemma fmap_list_bind {A B C} (f : B -> C) (k : A -> list B) (l : list A) :
  f <$> (l ≫= k) = l ≫= (fun x => f <$> k x).
Proof.
  induction l as [|x l IH]; [done|].
  by rewrite !bind_cons, fmap_app, IH.
Qed.

Lemma bind_seqZ_blocks (c n m : Z) :
  0 <= n -> 0 <= m ->
  (seqZ 0 n ≫= fun i => seqZ (c + i * m) m) = seqZ c (n * m).
Proof.
  intros Hn Hm. rewrite <-(Z2Nat.id n) by done.
  induction (Z.to_nat n) as [|k IH]; [done|].
  rewrite seqZ_S, bind_app, bind_singleton, IH.
  replace (Z.of_nat (S k) * m) with (Z.of_nat k * m + m) by lia.
  rewrite seqZ_app by lia. do 2 f_equal.
Qed.

Lemma bind_singleton_fmap {A B} (f : A -> B) (l : list A) :
  (l ≫= fun x => [f x]) = f <$> l.
Proof. induction l as [|x l IH]; [done|]. rewrite bind_cons, IH. done. Qed.

Section launch_indices.
Context (gd bd : dim3) (base : Z).

Local Abbreviation raw := (raw_thread_idx gd bd base).

Lemma raw_threads_of_block (bz by_ bx : Z) :
  raw <$> (seqZ 0 (x3 bd) ≫= fun tx => [(mk_dim3 bx by_ bz, mk_dim3 tx 0 0)])
  = seqZ (base + (bz * y3 gd * x3 gd + by_ * x3 gd) * x3 bd + bx * x3 bd)
         (x3 bd).
Proof.
  rewrite fmap_list_bind.
  rewrite (list_bind_ext _
    (fun tx => [(base + (bz * y3 gd * x3 gd + by_ * x3 gd) * x3 bd
                 + bx * x3 bd) + tx]) _ (seqZ 0 (x3 bd)));
    [|intros tx; unfold raw_thread_idx; cbn; f_equal; lia|done].
  rewrite (bind_singleton_fmap (Z.add _)), fmap_add_seqZ.
  f_equal; lia.
Qed.

Lemma raw_threads_of_row (bz by_ : Z) :
  0 <= x3 gd -> 0 <= x3 bd ->
  raw <$> (seqZ 0 (x3 gd) ≫= fun bx =>
           seqZ 0 (x3 bd) ≫= fun tx =>
           [(mk_dim3 bx by_ bz, mk_dim3 tx 0 0)])
  = seqZ (base + bz * (y3 gd * (x3 gd * x3 bd)) + by_ * (x3 gd * x3 bd))
         (x3 gd * x3 bd).
Proof.
  intros Hx HT. rewrite fmap_list_bind.
  rewrite (list_bind_ext _ _ _ (seqZ 0 (x3 gd))
             (raw_threads_of_block bz by_) eq_refl).
  rewrite bind_seqZ_blocks by done. f_equal; lia.
Qed.

Lemma raw_threads_of_plane (bz : Z) :
  0 <= x3 gd -> 0 <= y3 gd -> 0 <= x3 bd ->
  raw <$> (seqZ 0 (y3 gd) ≫= fun by_ =>
           seqZ 0 (x3 gd) ≫= fun bx =>
           seqZ 0 (x3 bd) ≫= fun tx =>
           [(mk_dim3 bx by_ bz, mk_dim3 tx 0 0)])
  = seqZ (base + bz * (y3 gd * (x3 gd * x3 bd))) (y3 gd * (x3 gd * x3 bd)).
Proof.
  intros Hx Hy HT. rewrite fmap_list_bind.
  rewrite (list_bind_ext _ _ _ (seqZ 0 (y3 gd))
             (fun by_ => raw_threads_of_row bz by_ Hx HT) eq_refl).
  rewrite bind_seqZ_blocks by lia. done.
Qed.

Lemma raw_launch_threads :
  0 <= x3 gd -> 0 <= y3 gd -> 0 <= z3 gd -> 0 <= x3 bd ->
  raw <$> launch_threads gd bd
  = seqZ base (x3 gd * y3 gd * z3 gd * x3 bd).
Proof.
  intros Hx Hy Hz HT. unfold launch_threads. rewrite fmap_list_bind.
  rewrite (list_bind_ext _ _ _ (seqZ 0 (z3 gd))
             (fun bz => raw_threads_of_plane bz Hx Hy HT) eq_refl).
  rewrite bind_seqZ_blocks by lia. f_equal; lia.
Qed.
End launch_indices.

(** The threads of one launch address the voxel indices of a block of
    consecutive integers, each once. *)
Lemma launch_thread_indices (gd bd : dim3) (a : KernelArgs) :
  0 <= x3 gd -> 0 <= y3 gd -> 0 <= z3 gd -> 0 <= x3 bd ->
  0 <= gpu_loop_idx a ->
  (gpu_loop_idx a + 1) * launch_size gd bd <= 2 ^ 31 ->
  thread_idx gd bd a <$> launch_threads gd bd
  = seqZ (gpu_loop_idx a * launch_size gd bd) (launch_size gd bd).
Proof.
  intros Hx Hy Hz HT Hl Hb.
  pose proof (raw_launch_threads gd bd (gpu_loop_idx a * launch_size gd bd)
                Hx Hy Hz HT) as Hraw.
  fold (launch_size gd bd) in Hraw. rewrite <-Hraw.
  apply list_fmap_ext. intros i th Hth.
  assert (Hin : raw_thread_idx gd bd (gpu_loop_idx a * launch_size gd bd) th
                ∈ seqZ (gpu_loop_idx a * launch_size gd bd)
                    (launch_size gd bd)).
  { rewrite <-Hraw. apply list_elem_of_fmap. exists th. split; [done|].
    by eapply list_elem_of_lookup_2. }
  apply elem_of_seqZ in Hin.
  unfold thread_idx, thread_voxel_idx.
  assert (0 <= launch_size gd bd)
    by (unfold launch_size; repeat apply Z.mul_nonneg_nonneg; lia).
  unfold raw_thread_idx in *. clear Hraw Hth.
  set (G := launch_size gd bd) in *.
  replace (gpu_loop_idx a * x3 gd * y3 gd * z3 gd * x3 bd)
    with (gpu_loop_idx a * G) by (unfold G, launch_size; ring).
  rewrite wrap32_id; [ring|nia].
Qed.

(** ** One launch and one frame on the device *)

Lemma cuda_integrate_wf gd bd a g g' :
  wf_volume g -> cuda_integrate gd bd a g = Some g' ->
  wf_volume g' /\ length (tsdf_vol g') = length (tsdf_vol g).
Proof. apply run_threads_wf. Qed.

Section launch.
Context (gd bd : dim3) (a : KernelArgs).
Local Abbreviation GT := (launch_size gd bd).
Context (Hx : 0 <= x3 gd) (Hy : 0 <= y3 gd) (Hz : 0 <= z3 gd)
        (HT : 0 <= x3 bd) (Hl : 0 <= gpu_loop_idx a)
        (Hb : (gpu_loop_idx a + 1) * GT <= 2 ^ 31).

Lemma cuda_integrate_other g g' u :
  wf_volume g -> cuda_integrate gd bd a g = Some g' ->
  ¬ (gpu_loop_idx a * GT <= u < (gpu_loop_idx a + 1) * GT) ->
  cell g' u = cell g u.
Proof.
  intros Hwf H Hu. eapply run_threads_other; [done..|].
  rewrite launch_thread_indices by done.
  rewrite elem_of_seqZ. lia.
Qed.

Lemma cuda_integrate_self g g' u :
  wf_volume g -> cuda_integrate gd bd a g = Some g' ->
  gpu_loop_idx a * GT <= u < (gpu_loop_idx a + 1) * GT ->
  u <= int_prod3 (vol_dim a) ->
  cell g' u = voxel_step a u <$> cell g u.
Proof.
  intros Hwf H Hu HN. eapply run_threads_self; [done..| | |done].
  - rewrite launch_thread_indices by done. apply NoDup_seqZ.
  - rewrite launch_thread_indices by done.
    rewrite elem_of_seqZ. lia.
Qed.

(** A launch on a grid whose [int] product is negative changes nothing. *)
Lemma cuda_integrate_beyond g :
  int_prod3 (vol_dim a) < 0 -> cuda_integrate gd bd a g = Some g.
Proof.
  intros HN. apply run_threads_beyond. apply Forall_forall. intros th Hth.
  assert (Hin : thread_idx gd bd a th
                ∈ thread_idx gd bd a <$> launch_threads gd bd)
    by (apply list_elem_of_fmap; eauto).
  rewrite launch_thread_indices in Hin by done.
  apply elem_of_seqZ in Hin.
  assert (0 <= launch_size gd bd)
    by (unfold launch_size; repeat apply Z.mul_nonneg_nonneg; lia).
  nia.
Qed.
End launch.

Lemma launch_size_pos gd bd :
  0 < x3 gd -> 0 < y3 gd -> 0 < z3 gd -> 0 < x3 bd -> 0 < launch_size gd bd.
Proof. intros. unfold launch_size. repeat apply Z.mul_pos_pos; done. Qed.

Section frame.
Context (self : TSDFVolume) (s : GpuState) (fr : Frame.t).
Local Abbreviation GT := (launch_size (gpu_grid s) (gpu_block s)).
Context (Hx : 0 < x3 (gpu_grid s)) (Hy : 0 < y3 (gpu_grid s))
      (Hz : 0 < z3 (gpu_grid s)) (HT : 0 < x3 (gpu_block s)).

Lemma gpu_loops_wf loops g g' :
wf_volume g -> gpu_loops self s fr loops g = Some g' ->
wf_volume g' /\ length (tsdf_vol g') = length (tsdf_vol g).
Proof.
revert g. induction loops as [|l loops IH]; intros g Hwf H.
{ by inversion H; subst. }
cbn in H.
destruct (cuda_integrate _ _ _ g) as [g1|] eqn:Hk; [|done]. cbn in H.
destruct (cuda_integrate_wf _ _ _ _ _ Hwf Hk) as [Hwf1 Hl1].
destruct (IH _ Hwf1 H) as [? ?]. split; [done|congruence].
Qed.

Lemma gpu_loops_other loops g g' u :
wf_volume g -> gpu_loops self s fr loops g = Some g' ->
Forall (fun l => 0 <= l /\ (l + 1) * GT <= 2 ^ 31) loops ->
Forall (fun l => ¬ (l * GT <= u < (l + 1) * GT)) loops ->
cell g' u = cell g u.
Proof.
revert g. induction loops as [|l loops IH]; intros g Hwf H Hr Hu.
{ by inversion H; subst. }
cbn in H.
destruct (cuda_integrate _ _ _ g) as [g1|] eqn:Hk; [|done]. cbn in H.
apply Forall_cons in Hr as [[Hl0 Hl1] Hr].
apply Forall_cons in Hu as [Hul Hu].
destruct (cuda_integrate_wf _ _ _ _ _ Hwf Hk) as [Hwf1 _].
rewrite (IH _ Hwf1 H Hr Hu).
apply (cuda_integrate_other (gpu_grid s) (gpu_block s)
         (kernel_args self fr l) ltac:(lia) ltac:(lia) ltac:(lia)
         ltac:(lia) Hl0 Hl1 g g1 u Hwf Hk Hul).
Qed.

Lemma gpu_loops_self loops g g' u l0 :
wf_volume g -> gpu_loops self s fr loops g = Some g' ->
Forall (fun l => 0 <= l /\ (l + 1) * GT <= 2 ^ 31) loops ->
NoDup loops -> l0 ∈ loops ->
l0 * GT <= u < (l0 + 1) * GT -> u <= int_prod3 (_vol_dim self) ->
cell g' u = voxel_step (kernel_args self fr 0) u <$> cell g u.
Proof.
revert g. induction loops as [|l loops IH];
  intros g Hwf H Hr Hnd Hin Hu HN.
{ by apply elem_of_nil in Hin. }
cbn in H.
destruct (cuda_integrate _ _ _ g) as [g1|] eqn:Hk; [|done]. cbn in H.
apply Forall_cons in Hr as [[Hl0 Hl1] Hr].
apply NoDup_cons in Hnd as [Hnotin Hnd].
destruct (cuda_integrate_wf _ _ _ _ _ Hwf Hk) as [Hwf1 _].
pose proof (launch_size_pos _ _ Hx Hy Hz HT) as HGT.
destruct (decide (l0 = l)) as [->|Hne].
- rewrite (gpu_loops_other _ _ _ _ Hwf1 H Hr).
  + change (voxel_step (kernel_args self fr 0) u)
      with (voxel_step (kernel_args self fr l) u).
    apply (cuda_integrate_self (gpu_grid s) (gpu_block s)
             (kernel_args self fr l) ltac:(lia) ltac:(lia) ltac:(lia)
             ltac:(lia) Hl0 Hl1 g g1 u Hwf Hk Hu HN).
  + apply Forall_forall. intros l' Hl' Hrange.
    assert (l' = l) by nia. congruence.
- apply elem_of_cons in Hin as [?|Hin]; [done|].
  rewrite (IH _ Hwf1 H Hr Hnd Hin Hu HN).
  f_equal.
  apply (cuda_integrate_other (gpu_grid s) (gpu_block s)
           (kernel_args self fr l) ltac:(lia) ltac:(lia) ltac:(lia)
           ltac:(lia) Hl0 Hl1 g g1 u Hwf Hk).
  intros Hrange. apply Hne.
  change (gpu_loop_idx (kernel_args self fr l)) with l in Hrange. nia.
Qed.

Lemma gpu_loops_beyond loops g :
int_prod3 (_vol_dim self) < 0 ->
Forall (fun l => 0 <= l /\ (l + 1) * GT <= 2 ^ 31) loops ->
gpu_loops self s fr loops g = Some g.
Proof.
intros HN. induction 1 as [|l loops [Hl0 Hl1] _ IH]; [done|].
cbn [gpu_loops].
rewrite (cuda_integrate_beyond (gpu_grid s) (gpu_block s)
           (kernel_args self fr l) ltac:(lia) ltac:(lia) ltac:(lia)
           ltac:(lia) Hl0 Hl1 g HN).
exact IH.
Qed.
End frame.

(** In GPU mode a call of [integrate] that returns has applied
    [voxel_step] once to every voxel of the grid. *)
Lemma integrate_gpu_cell self s fr self' u :
  gpu self = Some s -> wf_volume (device s) -> launch_covers self s ->
  integrate self fr = Returned self' ->
  0 <= u < prod3 (_vol_dim self) ->
  prod3 (_vol_dim self) < 2 ^ 31 ->
  cell (grid self') u
  = voxel_step (kernel_args self fr 0) u <$> cell (grid self) u.
Proof.
  intros Hs Hwf (HT & Hx & Hy & Hz & HL & Hcov & Hmax) H Hu H31.
  unfold integrate in H. rewrite Hs in H.
  destruct (gpu_loops _ _ _ _ _) as [g|] eqn:Hg; [|done].
  inversion H; subst self'. unfold grid at 1 2. rewrite Hs. cbn.
  pose proof (launch_size_pos (gpu_grid s) (gpu_block s) Hx Hy Hz HT) as HGT.
  change ((_max_gpu_grid_dim s).1.1 * (_max_gpu_grid_dim s).1.2 *
          (_max_gpu_grid_dim s).2 * _max_gpu_threads_per_block s)
    with (launch_size (gpu_grid s) (gpu_block s)) in Hcov, Hmax.
  set (GT := launch_size (gpu_grid s) (gpu_block s)) in *.
  pose proof (Z.div_mod u GT ltac:(lia)).
  pose proof (Z.mod_pos_bound u GT HGT).
  assert (0 <= u `div` GT < _n_gpu_loops s).
  { split; [apply Z.div_pos; lia|].
    apply Z.div_lt_upper_bound; [lia|]. lia. }
  apply (gpu_loops_self self s fr Hx Hy Hz HT (seqZ 0 (_n_gpu_loops s))
           (device s) g u (u `div` GT) Hwf Hg).
  - apply Forall_seqZ. intros l Hl. split; [lia|]. fold GT. nia.
  - apply NoDup_seqZ.
  - apply elem_of_seqZ. lia.
  - fold GT. lia.
  - rewrite int_prod3_id; lia.
Qed.

(** On a grid of 2^31 voxels the product of line 114 is negative, every
    thread returns at the guard and a call changes nothing. *)
Lemma integrate_gpu_idle self s fr self' :
  gpu self = Some s -> launch_covers self s ->
  integrate self fr = Returned self' ->
  2 ^ 31 <= prod3 (_vol_dim self) ->
  self' = with_device self s (device s).
Proof.
  intros Hs (HT & Hx & Hy & Hz & HL & Hcov & Hmax) H H31.
  unfold integrate in H. rewrite Hs in H.
  pose proof (launch_size_pos (gpu_grid s) (gpu_block s) Hx Hy Hz HT) as HGT.
  change ((_max_gpu_grid_dim s).1.1 * (_max_gpu_grid_dim s).1.2 *
          (_max_gpu_grid_dim s).2 * _max_gpu_threads_per_block s)
    with (launch_size (gpu_grid s) (gpu_block s)) in Hcov, Hmax.
  rewrite (gpu_loops_beyond self s fr Hx Hy Hz HT) in H.
  - by inversion H.
  - rewrite int_prod3_wrap.
    replace (prod3 (_vol_dim self)) with (2 ^ 31) by lia. done.
  - apply Forall_seqZ. intros l Hl. split; [lia|]. nia.
Qed.

Lemma integrate_gpu_state self s fr self' :
  gpu self = Some s -> wf_volume (device s) ->
  integrate self fr = Returned self' ->
  exists g, self' = with_device self s g /\ wf_volume g /\
            length (tsdf_vol g) = length (tsdf_vol (device s)).
Proof.
  intros Hs Hwf H. unfold integrate in H. rewrite Hs in H.
  destruct (gpu_loops _ _ _ _ _) as [g|] eqn:Hg; [|done].
  inversion H; subst self'. exists g. split; [done|].
  by eapply gpu_loops_wf.
Qed.

(** ** When a launch is defined *)


Lemma pixel_index_in_range {A} (l : list A) (h w px py : Z) :
  Z.of_nat (length l) = h * w -> 0 <= px < w -> 0 <= py < h ->
  exists x, ix l (py * w + px) = Some x.
Proof. intros Hl Hx Hy. apply ix_in_range. nia. Qed.







(** ** The CPU path *)

Lemma integrate_tsdf_unbound tsdf_vol occl_vol dist w_old obs_weight :
  integrate_tsdf tsdf_vol occl_vol dist w_old obs_weight
  = Raise (TypingError "w_new").
Proof. reflexivity. Qed.

Lemma cpu_tsdf_stage_raises self fr : exists e, cpu_tsdf_stage self fr = Raise e.
Proof.
  unfold cpu_tsdf_stage.
  destruct (cpu_depth_stage self fr) as [[valid_pts valid_dist]|e];
    [|by exists e].
  cbn [mbind result_bind].
  destruct (gather _ (weight_vol _) _) as [w_old|e]; [|by exists e].
  cbn [mbind result_bind].
  destruct (gather _ (tsdf_vol _) _) as [tsdf_vals|e]; [|by exists e].
  cbn [mbind result_bind].
  destruct (gather _ (occl_vol _) _) as [occl_vals|e]; [|by exists e].
  cbn [mbind result_bind].
  rewrite integrate_tsdf_unbound. by eexists.
Qed.

(** In CPU mode every call of [integrate] raises before it has written
    anything. *)
Lemma integrate_cpu_raises self fr :
  gpu self = None -> exists e, integrate self fr = Raised e self.
Proof.
  intros Hs. unfold integrate. rewrite Hs.
  destruct (cpu_tsdf_stage_raises self fr) as [e ->]. by exists e.
Qed.

Lemma integrate_all_cpu self frames :
  gpu self = None -> integrate_all self frames = Some self.
Proof.
  intros Hs. induction frames as [|fr frames IH]; [done|].
  cbn. destruct (integrate_cpu_raises self fr Hs) as [e ->]. cbn. done.
Qed.

(** ** Comparisons on floats *)

Lemma Qltb_true x y : Qltb x y = true <-> (x < y)%Q.
Proof.
  unfold Qltb. rewrite negb_true_iff.
  split.
  - intros H. apply Qnot_le_lt. intros Hle%Qle_bool_iff. congruence.
  - intros H. destruct (Qle_bool y x) eqn:E; [|done].
    apply Qle_bool_iff in E. lra.
Qed.

Lemma Qltb_false x y : Qltb x y = false <-> (y <= x)%Q.
Proof.
  unfold Qltb. rewrite negb_false_iff. apply Qle_bool_iff.
Qed.

Lemma Qminf_spec x y :
  ((x <= y)%Q /\ Qminf x y = x) \/ ((y < x)%Q /\ Qminf x y = y).
Proof.
  unfold Qminf. destruct (Qle_bool x y) eqn:E.
  - left. by apply Qle_bool_iff in E.
  - right. split; [|done]. apply Qnot_le_lt. intros H%Qle_bool_iff. congruence.
Qed.

Lemma Qmaxf_spec x y :
  ((x <= y)%Q /\ Qmaxf x y = y) \/ ((y < x)%Q /\ Qmaxf x y = x).
Proof.
  unfold Qmaxf. destruct (Qle_bool x y) eqn:E.
  - left. by apply Qle_bool_iff in E.
  - right. split; [|done]. apply Qnot_le_lt. intros H%Qle_bool_iff. congruence.
Qed.

Lemma voxel_step_observed a v c p d :
  observe a v = Some (p, d) -> (- trunc_margin a <= d)%Q ->
  weight (voxel_step a v c) = (weight c + obs_weight a)%Q /\
  tsdf (voxel_step a v c)
  = ((tsdf c * weight c
      + obs_weight a * Qminf 1 (d / trunc_margin a))
     / (weight c + obs_weight a))%Q.
Proof.
  intros Hobs Hd. unfold voxel_step. rewrite Hobs.
  apply Qltb_false in Hd. rewrite Hd.
  by destruct (rgb_sample a v).
Qed.

Lemma voxel_step_truncated a v c p d :
  observe a v = Some (p, d) -> (d < - trunc_margin a)%Q ->
  weight (voxel_step a v c) = weight c /\
  tsdf (voxel_step a v c) = tsdf c /\
  color (voxel_step a v c) = color c.
Proof.
  intros Hobs Hd. unfold voxel_step. rewrite Hobs.
  apply Qltb_true in Hd. by rewrite Hd.
Qed.

Lemma voxel_step_occl a v c p d :
  observe a v = Some (p, d) ->
  occl (voxel_step a v c) = Qmaxf (occl c) d.
Proof.
  intros Hobs. unfold voxel_step. rewrite Hobs.
  destruct (Qltb _ _); [done|]. by destruct (rgb_sample a v).
Qed.

(** The occlusion entry never decreases. *)
Lemma voxel_step_occl_mono a v c : (occl c <= occl (voxel_step a v c))%Q.
Proof.
  destruct (observe a v) as [[p d]|] eqn:Ho.
  - rewrite (voxel_step_occl _ _ _ _ _ Ho).
    destruct (Qmaxf_spec (occl c) d) as [[? ->]|[? ->]]; lra.
  - rewrite voxel_step_unobserved by done. lra.
Qed.

Lemma sum_w_cons ws obs : sum_w (ws :: obs) = (ws.1 + sum_w obs)%Q.
Proof. reflexivity. Qed.

Lemma sum_ws_cons ws obs :
  sum_ws (ws :: obs) = (ws.1 * ws.2 + sum_ws obs)%Q.
Proof. reflexivity. Qed.

Lemma sum_w_pos obs :
  Forall (fun ws : Q * Q => (0 < ws.1)%Q) obs -> obs <> [] -> (0 < sum_w obs)%Q.
Proof.
  intros H Hne. destruct H as [|ws obs Hws H]; [done|]. clear Hne.
  assert (0 <= sum_w obs)%Q.
  { induction H as [|? ? ? ? IH]; [cbn; lra|]. rewrite sum_w_cons. lra. }
  rewrite sum_w_cons. lra.
Qed.

(** The running mean of the kernel, from any weight and value. *)
Lemma gpu_running_mean (s : GpuState) (frames : list Frame.t) :
  forall (self self' : TSDFVolume) (obs : list (Q * Q)) (v : Z) (c : Voxel),
  gpu self = Some s -> wf_volume (device s) -> launch_covers self s ->
  0 <= v < prod3 (_vol_dim self) -> prod3 (_vol_dim self) < 2 ^ 31 ->
  integrate_all self frames = Some self' ->
  Forall2 (fun fr ws => observed_at self fr v ws) frames obs ->
  cell (grid self) v = Some c -> (0 <= weight c)%Q ->
  exists c', cell (grid self') v = Some c' /\
    (weight c' == weight c + sum_w obs)%Q /\
    (tsdf c' * (weight c + sum_w obs)
     == tsdf c * weight c + sum_ws obs)%Q.
Proof.
  revert s.
  induction frames as [|fr frames IH];
    intros s self self' obs v c Hs Hwf Hcov Hv H31 Hall Hobs Hc Hw.
  { inversion Hall; subst self'. apply Forall2_nil_inv_l in Hobs as ->.
    exists c. split; [done|]. cbn. split; ring. }
  apply Forall2_cons_inv_l in Hobs as (ws & obs' & Hws & Hobs & ->).
  cbn in Hall.
  destruct (integrate self fr) as [self1|e self1|] eqn:Hint; [| |done].
  2:{ unfold integrate in Hint. rewrite Hs in Hint.
      by destruct (gpu_loops _ _ _ _ _). }
  cbn in Hall.
  pose proof (integrate_gpu_cell _ _ _ _ v Hs Hwf Hcov Hint Hv H31) as Hcell.
  rewrite Hc in Hcell. cbn in Hcell.
  destruct (integrate_gpu_state _ _ _ _ Hs Hwf Hint) as (g & -> & Hwfg & _).
  destruct Hws as (Hw1 & Hpos & p & d & Hob & Hd & Hs2).
  destruct (voxel_step_observed _ _ c _ _ Hob Hd) as [Hw' Ht'].
  cbn [kernel_args trunc_margin obs_weight] in Hw', Ht'.
  set (c1 := voxel_step (kernel_args self fr 0) v c) in *.
  edestruct (IH (mk_GpuState g (_max_gpu_threads_per_block s)
                  (_max_gpu_grid_dim s) (_n_gpu_loops s))
               (with_device self s g) self' obs' v c1)
    as (c' & Hc' & Hwc' & Htc'); try done.
  { rewrite Hw'. rewrite <-Hw1. lra. }
  exists c'. split; [done|].
  rewrite Hw' in Hwc', Htc'. rewrite Ht' in Htc'.
  rewrite sum_w_cons, sum_ws_cons.
  split; [rewrite Hwc', Hw1; ring|].
  transitivity (tsdf c' * (weight c + Frame.obs_weight fr + sum_w obs'))%Q;
    [rewrite Hw1; ring|].
  rewrite Htc', Hw1, Hs2. field. lra.
Qed.

(** ** Weighted mean *)

(** C1, as amended.  On the GPU path, on a grid of at most 2^24 voxels
    (where the 32-bit product of line 114 is the number of voxels and the
    binary32 casts of lines 117-119 are exact), from a voxel of weight 0,
    after n >= 1 calls of [integrate] with positive [obs_weight] in each
    of which the voxel passes the frustum test, the depth test and the
    truncation test (depth_diff >= -trunc_margin), with s_i = min(1,
    depth_diff_i / trunc_margin): tsdf = (sum w_i s_i) / (sum w_i) and
    weight = sum w_i. *)
Theorem gpu_weighted_mean (self self' : TSDFVolume) (s : GpuState)
    (frames : list Frame.t) (obs : list (Q * Q)) (v : Z) (c : Voxel) :
  gpu self = Some s -> wf_volume (device s) -> launch_covers self s ->
  prod3 (_vol_dim self) <= 2 ^ 24 ->
  0 <= v < prod3 (_vol_dim self) ->
  frames <> [] ->
  integrate_all self frames = Some self' ->
  Forall2 (fun fr ws => observed_at self fr v ws) frames obs ->
  cell (grid self) v = Some c -> (weight c == 0)%Q ->
  exists c', cell (grid self') v = Some c' /\
    (tsdf c' == sum_ws obs / sum_w obs)%Q /\ (weight c' == sum_w obs)%Q.
Proof.
  intros Hs Hwf Hcov H24 Hv Hne Hall Hobs Hc Hw0.
  destruct (gpu_running_mean s frames self self' obs v c)
    as (c' & Hc' & Hw' & Ht'); try done.
  { lia. }
  { rewrite Hw0. lra. }
  assert (Hpos : (0 < sum_w obs)%Q).
  { apply sum_w_pos.
    - clear -Hobs. induction Hobs as [|fr ws ? ? (_ & ? & _) _ IH];
        by constructor.
    - intros ->. apply Forall2_nil_inv_r in Hobs. done. }
  exists c'. split; [done|]. rewrite Hw0 in Hw', Ht'.
  split; [|rewrite Hw'; ring].
  transitivity ((tsdf c' * (0 + sum_w obs)) / sum_w obs)%Q; [field; lra|].
  rewrite Ht'. field. lra.
Qed.

Lemma gpu_weighted_mean_witness :
  exists c', cell (grid mean_after) 0 = Some c' /\
    (tsdf c' == sum_ws [(1, 1); (3, 4 # 10)] / sum_w [(1, 1); (3, 4 # 10)])%Q
    /\ (weight c' == sum_w [(1, 1); (3, 4 # 10)])%Q.
Proof.
  eapply (gpu_weighted_mean mean_self mean_after
            _ mean_frames [(1, 1); (3, 4 # 10)]%Q 0
            (mk_Voxel 1 (-100) 0 0 0)).
  - vm_compute. reflexivity.
  - vm_compute. auto.
  - vm_compute. repeat split; congruence.
  - vm_compute. congruence.
  - vm_compute. split; congruence.
  - discriminate.
  - vm_compute. reflexivity.
  - repeat constructor; cbn [fst snd]; try (vm_compute; reflexivity);
      try (vm_compute; congruence).
    all: eexists _, _; split; [vm_compute; reflexivity|]; split;
      [vm_compute; congruence|reflexivity].
  - vm_compute. reflexivity.
  - reflexivity.
Defined.

(** C1 as stated fails on the GPU path: a voxel that passes the frustum
    and depth tests of a call with [obs_weight = 1] but lies more than
    [trunc_margin] behind the surface keeps weight 0. *)
Lemma weighted_mean_truncated :
  exists self' c',
    integrate far_self near_frame = Returned self' /\
    (0 < Frame.obs_weight near_frame)%Q /\
    (exists p d, observe (kernel_args far_self near_frame 0) 0 = Some (p, d)) /\
    cell (grid self') 0 = Some c' /\
    ~ (weight c' == Frame.obs_weight near_frame)%Q.
Proof.
  eexists _, _. split; [vm_compute; reflexivity|].
  split; [reflexivity|]. split; [eexists _, _; vm_compute; reflexivity|].
  split; [vm_compute; reflexivity|]. vm_compute. discriminate.
Qed.

(** ** The range of tsdf *)

Lemma ix_Forall {A} (P : A -> Prop) (l : list A) i x :
  Forall P l -> ix l i = Some x -> P x.
Proof.
  unfold ix. destruct (i <? 0); [done|].
  intros H Hl. by eapply Forall_lookup_1.
Qed.

Lemma put_Forall {A} (P : A -> Prop) (l : list A) i x :
  Forall P l -> P x -> Forall P (put l i x).
Proof. intros. by apply Forall_insert. Qed.

Lemma running_mean_bounds (t w obs d : Q) :
  (-1 <= t <= 1 -> 0 <= w -> 0 < obs -> -1 <= d <= 1 ->
   -1 <= (t * w + obs * d) / (w + obs) <= 1)%Q.
Proof.
  intros Ht Hw Hobs Hd. split.
  - apply Qle_shift_div_l; [lra|]. nra.
  - apply Qle_shift_div_r; [lra|]. nra.
Qed.

Lemma truncated_dist_bounds (d tm : Q) :
  (0 < tm -> - tm <= d -> -1 <= Qminf 1 (d / tm) <= 1)%Q.
Proof.
  intros Htm Hd.
  assert (-1 <= d / tm)%Q by (apply Qle_shift_div_l; lra).
  destruct (Qminf_spec 1 (d / tm)) as [[? ->]|[? ->]]; lra.
Qed.

Lemma voxel_step_bounds a v c :
  (0 < trunc_margin a)%Q -> (0 < obs_weight a)%Q ->
  (-1 <= tsdf c <= 1)%Q -> (0 <= weight c)%Q ->
  (-1 <= tsdf (voxel_step a v c) <= 1)%Q /\ (0 <= weight (voxel_step a v c))%Q.
Proof.
  intros Htm Hobs Ht Hw.
  destruct (observe a v) as [[p d]|] eqn:Ho.
  2:{ by rewrite voxel_step_unobserved. }
  destruct (Qlt_le_dec d (- trunc_margin a)) as [Hd|Hd].
  - destruct (voxel_step_truncated a v c p d Ho Hd) as (-> & -> & _). done.
  - destruct (voxel_step_observed a v c p d Ho Hd) as (-> & ->).
    split; [|lra].
    apply running_mean_bounds; try done.
    by apply truncated_dist_bounds.
Qed.

Lemma write_cell_bounded g v c' :
  tsdf_bounded g ->
  (-1 <= tsdf c' <= 1)%Q -> (0 <= weight c')%Q ->
  tsdf_bounded (write_cell g v c').
Proof.
  intros [Ht Hw] ? ?. split; cbn; by apply put_Forall.
Qed.

Lemma cell_bounded g v c :
  tsdf_bounded g -> cell g v = Some c ->
  (-1 <= tsdf c <= 1)%Q /\ (0 <= weight c)%Q.
Proof.
  intros [Ht Hw]. unfold cell.
  destruct (ix (tsdf_vol g) v) as [t|] eqn:Et; [|done].
  destruct (ix (occl_vol g) v); [|done].
  destruct (ix (weight_vol g) v) as [w|] eqn:Ew; [|done].
  destruct (ix (color_vol g) v); [|done].
  destruct (ix (mask_vol g) v); [|done].
  intros [= <-]. cbn. split.
  - by apply (ix_Forall _ _ _ _ Ht Et).
  - by apply (ix_Forall _ _ _ _ Hw Ew).
Qed.

Section bounded.
Context (gd bd : dim3) (a : KernelArgs).
Context (Htm : (0 < trunc_margin a)%Q) (Hobs : (0 < obs_weight a)%Q).

Lemma integrate_kernel_bounded bi ti g g' :
  wf_volume g -> tsdf_bounded g ->
  integrate_kernel gd bd bi ti a g = Some g' -> tsdf_bounded g'.
Proof.
  intros Hwf Hb H.
  destruct (integrate_kernel_spec _ _ _ _ _ _ _ Hwf H)
    as [[_ ->]|[(_ & _ & ->)|(c & _ & Hc & ->)]]; try done.
  destruct (cell_bounded _ _ _ Hb Hc) as [Ht Hw].
  destruct (voxel_step_bounds a
              (thread_voxel_idx gd bd bi ti (gpu_loop_idx a)) c
              Htm Hobs Ht Hw).
  by eapply write_cell_bounded.
Qed.

Lemma run_threads_bounded ths g g' :
  wf_volume g -> tsdf_bounded g ->
  run_threads gd bd a ths g = Some g' -> tsdf_bounded g'.
Proof.
  revert g. induction ths as [|[bi ti] ths IH]; intros g Hwf Hb H.
  { by inversion H; subst. }
  cbn in H.
  destruct (integrate_kernel gd bd bi ti a g) as [g1|] eqn:Hk; [|done].
  cbn in H. destruct (integrate_kernel_wf _ _ _ _ _ _ _ Hwf Hk) as [Hwf1 _].
  eapply IH; [done| |done].
  eapply integrate_kernel_bounded; [exact Hwf|exact Hb|exact Hk].
Qed.
End bounded.

Lemma gpu_loops_bounded self s fr loops g g' :
  (0 < _trunc_margin self)%Q -> (0 < Frame.obs_weight fr)%Q ->
  wf_volume g -> tsdf_bounded g ->
  gpu_loops self s fr loops g = Some g' -> tsdf_bounded g'.
Proof.
  intros Htm Hobs. revert g.
  induction loops as [|l loops IH]; intros g Hwf Hb H.
  { by inversion H; subst. }
  cbn in H.
  destruct (cuda_integrate _ _ _ g) as [g1|] eqn:Hk; [|done]. cbn in H.
  destruct (cuda_integrate_wf _ _ _ _ _ Hwf Hk) as [Hwf1 _].
  eapply IH; [done| |done].
  eapply (run_threads_bounded _ _ (kernel_args self fr l));
    [exact Htm|exact Hobs|exact Hwf|exact Hb|exact Hk].
Qed.

Lemma np_full_Ok {A} (v : A) shape l :
  np_full v shape = Ok l -> l = replicate (Z.to_nat (prod3 shape)) v.
Proof.
  destruct shape as [[dx dy] dz]. unfold np_full, prod3. cbn.
  destruct (_ || _); [done|]. by intros [= <-].
Qed.

(** What the constructor returns: fresh arrays of [prod3 _vol_dim]
    entries on the host and, in GPU mode, on the device. *)
Lemma init_fresh pycuda vol_bnds voxel_size use_gpu self :
  __init__ pycuda vol_bnds voxel_size use_gpu = Ok self ->
  _trunc_margin self = (5 * voxel_size)%Q /\
  host self = fresh_volume (Z.to_nat (prod3 (_vol_dim self))) /\
  grid self = fresh_volume (Z.to_nat (prod3 (_vol_dim self))).
Proof.
  unfold __init__. destruct (negb _); [done|].
  set (d := derive_vol_dim vol_bnds voxel_size).
  destruct (np_full 1%Q d) as [t|] eqn:Et; [|done].
  destruct (np_full (-100)%Q d) as [o|] eqn:Eo; [|done].
  destruct (np_full 0%Q d) as [w|] eqn:Ew; [|done].
  destruct (np_full 0%Z d) as [m|] eqn:Em; [|done].
  cbn [mbind result_bind].
  apply np_full_Ok in Et, Eo, Ew, Em. subst t o w m.
  destruct (if use_gpu then pycuda else None) as [gpu_dev|].
  - destruct (gpu_dispatch _ _) as [[[[gx gy] gz] loops]|]; [|done].
    cbn. intros [= <-]. done.
  - intros [= <-]. done.
Qed.

Lemma fresh_volume_wf n : wf_volume (fresh_volume n).
Proof. unfold wf_volume, fresh_volume; cbn. by rewrite !length_replicate. Qed.

Lemma fresh_volume_bounded n : tsdf_bounded (fresh_volume n).
Proof.
  split; cbn; apply Forall_replicate; lra.
Qed.

Lemma integrate_invariant self fr self' :
  (0 < Frame.obs_weight fr)%Q -> tsdf_invariant self ->
  state_after (integrate self fr) = Some self' -> tsdf_invariant self'.
Proof.
  intros Hobs (Htm & Hwf & Hb & Hh) H.
  destruct (gpu self) as [s|] eqn:Hs.
  - unfold integrate in H. rewrite Hs in H. unfold grid in Hwf, Hb.
    rewrite Hs in Hwf, Hb.
    destruct (gpu_loops _ _ _ _ _) as [g|] eqn:Hg; [|done].
    cbn in H. inversion H; subst self'.
    unfold tsdf_invariant, grid. cbn.
    split; [done|]. split; [by eapply gpu_loops_wf|].
    split; [|done]. by eapply gpu_loops_bounded.
  - destruct (integrate_cpu_raises self fr Hs) as [e He].
    rewrite He in H. cbn in H. by inversion H; subst self'.
Qed.

Lemma integrate_all_invariant frames self self' :
  Forall (fun fr => (0 < Frame.obs_weight fr)%Q) frames ->
  tsdf_invariant self ->
  integrate_all self frames = Some self' -> tsdf_invariant self'.
Proof.
  intros Hobs. revert self.
  induction Hobs as [|fr frames Hfr _ IH]; intros self Hinv H.
  { by inversion H; subst. }
  cbn in H.
  destruct (state_after (integrate self fr)) as [self1|] eqn:H1; [|done].
  cbn in H. eapply IH; [|done]. by eapply integrate_invariant.
Qed.

(** C3.  After any number of calls of [integrate] with positive
    [obs_weight] on a grid built with a positive voxel size, on either
    execution path, every tsdf value lies in [-1, 1] (which contains the
    initial value 1). *)
Theorem tsdf_in_range pycuda vol_bnds voxel_size use_gpu self frames self' :
  __init__ pycuda vol_bnds voxel_size use_gpu = Ok self ->
  (0 < voxel_size)%Q ->
  Forall (fun fr => (0 < Frame.obs_weight fr)%Q) frames ->
  integrate_all self frames = Some self' ->
  Forall (fun t => (-1 <= t <= 1)%Q) (tsdf_vol (grid self')) /\
  Forall (fun t => (-1 <= t <= 1)%Q) (tsdf_vol (host self')) /\
  Forall (fun t => (-1 <= t <= 1)%Q) (get_volume self').2.1.1.1.
Proof.
  intros Hinit Hvs Hobs Hall.
  destruct (init_fresh _ _ _ _ _ Hinit) as (Htm & Hh & Hg).
  destruct (integrate_all_invariant frames self self' Hobs)
    as (_ & _ & Hb & Hbh); [|done|].
  { unfold tsdf_invariant. rewrite Htm, Hg, Hh.
    split; [lra|]. split; [apply fresh_volume_wf|].
    split; apply fresh_volume_bounded. }
  split; [apply Hb|]. split; [apply Hbh|].
  unfold get_volume, grid in *. destruct (gpu self'); [apply Hb|apply Hbh].
Qed.

Lemma tsdf_in_range_witness :
  Forall (fun t => (-1 <= t <= 1)%Q) (tsdf_vol (grid mean_after)) /\
  Forall (fun t => (-1 <= t <= 1)%Q) (tsdf_vol (host mean_after)) /\
  Forall (fun t => (-1 <= t <= 1)%Q) (get_volume mean_after).2.1.1.1.
Proof.
  apply (tsdf_in_range (Some demo_device) (one_voxel_bnds (1 # 100))
           (2 # 100) true mean_self mean_frames mean_after).
  - vm_compute. reflexivity.
  - reflexivity.
  - repeat constructor.
  - vm_compute. reflexivity.
Defined.

(** ** Reset *)

Lemma fill_zero_replicate {A} (z : A) (l : list A) :
  (fun _ => z) <$> l = replicate (length l) z.
Proof. induction l; cbn; by f_equal. Qed.

(** C7.  [reset_visible] sets every element of the weight and mask
    arrays to zero and leaves the tsdf, occl and color arrays as they are,
    on the host and on the device. *)
Theorem reset_visible_zeroes (self : TSDFVolume) :
  let self' := reset_visible self in
  let n := length (weight_vol (host self)) in
  let m := length (mask_vol (host self)) in
  (weight_vol (host self') = replicate n 0%Q /\
   mask_vol (host self') = replicate m 0 /\
   tsdf_vol (host self') = tsdf_vol (host self) /\
   occl_vol (host self') = occl_vol (host self) /\
   color_vol (host self') = color_vol (host self)) /\
  (weight_vol (grid self') = replicate n 0%Q /\
   mask_vol (grid self') = replicate m 0 /\
   tsdf_vol (grid self') = tsdf_vol (grid self) /\
   occl_vol (grid self') = occl_vol (grid self) /\
   color_vol (grid self') = color_vol (grid self)) /\
  _vol_dim self' = _vol_dim self /\ gpu_mode self' = gpu_mode self.
Proof.
  unfold reset_visible, grid, gpu_mode. cbn.
  destruct (gpu self) as [s|] eqn:Hs; cbn; rewrite ?Hs; cbn;
    unfold fill_zero; rewrite !fill_zero_replicate; repeat split; reflexivity.
Qed.


(** ** Construction *)

(** C8 as stated fails: bounds with min > max on every axis and a negative
    voxel size are accepted in both modes, and bounds with min = max on an
    axis give an empty grid in CPU mode. *)
Lemma init_accepts_degenerate :
  (exists self, __init__ (Some demo_device) flipped_bnds (- (1 # 2)) true = Ok self /\
     _vol_dim self = (2, 2, 2) /\ grid self = fresh_volume 8) /\
  (exists self, __init__ None flipped_bnds (- (1 # 2)) false = Ok self /\
     _vol_dim self = (2, 2, 2) /\ grid self = fresh_volume 8) /\
  (exists self, __init__ None flat_bnds (1 # 2) false = Ok self /\
     _vol_dim self = (0, 2, 2) /\ grid self = fresh_volume 0).
Proof.
  repeat split; eexists; (split; [vm_compute; reflexivity|]); done.
Qed.

Lemma np_full_negative {A} (v : A) (d : Z * Z * Z) :
  d.1.1 < 0 \/ d.1.2 < 0 \/ d.2 < 0 -> np_full v d = Raise ValueError.
Proof.
  destruct d as [[dx dy] dz]. cbn. intros H. unfold np_full.
  destruct (Z.ltb_spec dx 0), (Z.ltb_spec dy 0), (Z.ltb_spec dz 0);
    try done; lia.
Qed.

(** C8, as amended.  Construction fails when vol_bnds does not have shape
    (3, 2) or when the derived dimension ceil((max - min) / voxel_size) is
    negative on some axis; no grid is created then. *)
Theorem init_rejects pycuda vol_bnds voxel_size use_gpu :
  (nrows vol_bnds <> 3 \/ ncols vol_bnds <> 2 \/
   (derive_vol_dim vol_bnds voxel_size).1.1 < 0 \/
   (derive_vol_dim vol_bnds voxel_size).1.2 < 0 \/
   (derive_vol_dim vol_bnds voxel_size).2 < 0) ->
  raises (__init__ pycuda vol_bnds voxel_size use_gpu).
Proof.
  intros H. unfold __init__.
  destruct (Z.eqb_spec (nrows vol_bnds) 3) as [Hr|Hr];
    destruct (Z.eqb_spec (ncols vol_bnds) 2) as [Hc|Hc];
    cbn [andb negb]; try exact I.
  rewrite (np_full_negative 1%Q); [exact I|]. tauto.
Qed.

Lemma init_rejects_witness :
  raises (__init__ (Some demo_device) unit_bnds (- (1 # 2)) true).
Proof.
  apply init_rejects. right. right. left. vm_compute. reflexivity.
Defined.

(** ** The launch configuration of a constructed grid *)

Lemma icbrt_bits_spec bits acc n :
  0 <= acc -> acc * acc * acc <= n ->
  n < (acc + 2 ^ Z.of_nat bits) * (acc + 2 ^ Z.of_nat bits)
      * (acc + 2 ^ Z.of_nat bits) ->
  let r := icbrt_bits bits acc n in
  r * r * r <= n < (r + 1) * (r + 1) * (r + 1).
Proof.
  revert acc. induction bits as [|b IH]; intros acc Hacc Hlo Hhi.
  { cbn in *. lia. }
  cbn [icbrt_bits].
  assert (Hpow : 2 ^ Z.of_nat (S b) = 2 ^ Z.of_nat b + 2 ^ Z.of_nat b).
  { rewrite Nat2Z.inj_succ, Z.pow_succ_r by lia. lia. }
  pose proof (Z.pow_pos_nonneg 2 (Z.of_nat b) ltac:(lia) ltac:(lia)) as Hp.
  set (cand := acc + 2 ^ Z.of_nat b) in *.
  destruct (Z.leb_spec (cand * cand * cand) n) as [Hc|Hc].
  - apply IH; [lia|done|]. unfold cand. rewrite Hpow in Hhi.
    by rewrite <-Z.add_assoc.
  - apply IH; [done|done|]. by fold cand.
Qed.

(** [icbrt] is the integer cube root. *)
Lemma icbrt_spec n :
  0 <= n ->
  icbrt n * icbrt n * icbrt n <= n
  < (icbrt n + 1) * (icbrt n + 1) * (icbrt n + 1).
Proof.
  intros Hn. unfold icbrt. apply icbrt_bits_spec; [done|lia|].
  set (B := Z.log2 n `div` 3 + 1).
  assert (HB : 0 < B) by (pose proof (Z.log2_nonneg n);
    pose proof (Z.div_pos (Z.log2 n) 3); unfold B; lia).
  rewrite Z2Nat.id by lia. rewrite !Z.add_0_l.
  rewrite <-!Z.pow_add_r by lia.
  destruct (Z.eq_dec n 0) as [->|Hn0].
  { apply Z.pow_pos_nonneg; lia. }
  pose proof (Z.log2_spec n ltac:(lia)) as [_ Hlt].
  eapply Z.lt_le_trans; [exact Hlt|].
  apply Z.pow_le_mono_r; [lia|].
  pose proof (Z.div_mod (Z.log2 n) 3 ltac:(lia)).
  pose proof (Z.mod_pos_bound (Z.log2 n) 3 ltac:(lia)).
  unfold B. lia.
Qed.

Lemma icbrt_bits_nonneg bits acc n : 0 <= acc -> 0 <= icbrt_bits bits acc n.
Proof.
  revert acc. induction bits as [|b IH]; intros acc Hacc; [done|].
  cbn [icbrt_bits]. apply IH.
  destruct (_ <=? _); [|done].
  pose proof (Z.pow_nonneg 2 (Z.of_nat b)). lia.
Qed.

Lemma icbrt_nonneg n : 0 <= icbrt n.
Proof. by apply icbrt_bits_nonneg. Qed.

Lemma py_ceil_div_Ok a b q :
  py_ceil_div a b = Ok q -> 0 <= a -> 0 < b -> 0 <= q /\ a <= q * b.
Proof.
  unfold py_ceil_div. destruct (Z.eqb_spec b 0); [done|].
  intros [= <-] Ha Hb.
  pose proof (Qle_ceiling (inject_Z a / inject_Z b)) as Hc.
  assert (Hb' : (0 < inject_Z b)%Q) by (rewrite <-(Zlt_Qlt 0); lia).
  assert (Ha' : (0 <= inject_Z a)%Q) by (rewrite <-(Zle_Qle 0); lia).
  set (q := Qceiling _) in *.
  assert (Hq : (inject_Z a <= inject_Z q * inject_Z b)%Q).
  { apply (Qmult_le_compat_r _ _ (inject_Z b)) in Hc; [|lra].
    assert (E : (inject_Z a / inject_Z b * inject_Z b == inject_Z a)%Q)
      by (field; lra).
    by rewrite E in Hc. }
  split.
  - rewrite Zle_Qle.
    assert (0 <= inject_Z a / inject_Z b)%Q.
    { apply Qle_shift_div_l; [done|]. lra. }
    change (inject_Z 0) with 0%Q. lra.
  - rewrite Zle_Qle. by rewrite inject_Z_mult.
Qed.

Lemma py_ceil_div_nonzero a b q : py_ceil_div a b = Ok q -> b <> 0.
Proof. unfold py_ceil_div. by destruct (Z.eqb_spec b 0). Qed.

Lemma np_full_nonneg {A} (v : A) d l :
  np_full v d = Ok l -> 0 <= d.1.1 /\ 0 <= d.1.2 /\ 0 <= d.2.
Proof.
  destruct d as [[dx dy] dz]. unfold np_full. cbn.
  destruct (Z.ltb_spec dx 0), (Z.ltb_spec dy 0), (Z.ltb_spec dz 0);
    try done.
Qed.

Lemma gpu_dispatch_Ok dev n gx gy gz loops :
  device_ok dev -> 0 <= n ->
  gpu_dispatch dev n = Ok (gx, gy, gz, loops) ->
  0 < gx /\ 0 < gy /\ 0 < gz /\ 0 <= loops /\
  n <= loops * (gx * gy * gz * MAX_THREADS_PER_BLOCK dev).
Proof.
  intros (HT & HX & HY & HZ) Hn. unfold gpu_dispatch.
  destruct (py_ceil_div n _) as [n_blocks|] eqn:E1; [|done].
  cbn [mbind result_bind].
  destruct (py_ceil_div_Ok _ _ _ E1 Hn HT) as [Hnb _].
  set (x := Z.min _ (icbrt n_blocks)).
  destruct (Z.eqb_spec x 0) as [|Hx0]; [done|].
  assert (Hx : 0 < x) by (pose proof (icbrt_nonneg n_blocks); lia).
  set (y := Z.min _ (Z.sqrt _)).
  destruct (py_ceil_div n_blocks (x * y)) as [q|] eqn:E2; [|done].
  cbn [mbind result_bind].
  assert (Hy : 0 < y).
  { pose proof (py_ceil_div_nonzero _ _ _ E2).
    pose proof (Z.sqrt_nonneg (n_blocks `div` x)). unfold y in *. nia. }
  destruct (py_ceil_div_Ok _ _ _ E2 Hnb ltac:(nia)) as [Hq _].
  set (z := Z.min _ q).
  destruct (py_ceil_div n (x * y * z * _)) as [l|] eqn:E3; [|done].
  cbn [mbind result_bind]. intros [= <- <- <- <-].
  assert (Hz : 0 < z).
  { pose proof (py_ceil_div_nonzero _ _ _ E3). unfold z in *. nia. }
  destruct (py_ceil_div_Ok _ _ _ E3 Hn) as [Hl Hcov].
  { repeat apply Z.mul_pos_pos; done. }
  done.
Qed.

(** A grid without voxels cannot be built in GPU mode: the kernel never
    divides by a zero dimension. *)
Lemma gpu_dispatch_nonempty dev n r :
  device_ok dev -> 0 <= n -> gpu_dispatch dev n = Ok r -> 0 < n.
Proof.
  intros (HT & HX & _) Hn H.
  destruct (Z.eq_dec n 0) as [->|]; [|lia]. exfalso.
  unfold gpu_dispatch, py_ceil_div in H.
  destruct (Z.eqb_spec (MAX_THREADS_PER_BLOCK dev) 0); [lia|].
  cbn [mbind result_bind] in H.
  assert (E : Qceiling (inject_Z 0 / inject_Z (MAX_THREADS_PER_BLOCK dev)) = 0).
  { assert (E0 : (inject_Z 0 / inject_Z (MAX_THREADS_PER_BLOCK dev) == 0)%Q).
    { unfold Qdiv. change (inject_Z 0) with 0%Q. ring. }
    by rewrite E0. }
  rewrite E in H. change (icbrt 0) with 0 in H.
  rewrite Z.min_r in H by lia. done.
Qed.

(** A grid built in GPU mode on a device with positive limits has arrays
    of one length on the device and a launch configuration that reaches
    every voxel. *)
Lemma init_gpu_ready dev vol_bnds voxel_size self :
  device_ok dev ->
  __init__ (Some dev) vol_bnds voxel_size true = Ok self ->
  exists s, gpu self = Some s /\ wf_volume (device s) /\
    (_n_gpu_loops s * launch_size (gpu_grid s) (gpu_block s) <= 2 ^ 31 ->
     launch_covers self s).
Proof.
  intros Hdev. unfold __init__. destruct (negb _); [done|].
  set (d := derive_vol_dim vol_bnds voxel_size).
  destruct (np_full 1%Q d) as [t|] eqn:Et; [|done].
  destruct (np_full (-100)%Q d) as [o|] eqn:Eo; [|done].
  destruct (np_full 0%Q d) as [w|] eqn:Ew; [|done].
  destruct (np_full 0%Z d) as [m|] eqn:Em; [|done].
  cbn [mbind result_bind].
  destruct (np_full_nonneg _ _ _ Et) as (Hd1 & Hd2 & Hd3).
  apply np_full_Ok in Et, Eo, Ew, Em. subst t o w m.
  destruct (gpu_dispatch dev (prod3 d)) as [[[[gx gy] gz] loops]|] eqn:Eg;
    [|done].
  cbn [mbind result_bind]. intros [= <-]. eexists. split; [done|].
  cbn [device]. split; [apply (fresh_volume_wf (Z.to_nat (prod3 d)))|].
  intros Hmax.
  assert (HN : 0 <= prod3 d)
    by (unfold prod3; repeat apply Z.mul_nonneg_nonneg; done).
  destruct (gpu_dispatch_Ok _ _ _ _ _ _ Hdev HN Eg)
    as (Hx & Hy & Hz & Hl & Hcov).
  destruct Hdev as (HT & _).
  unfold launch_covers. cbn in *. unfold launch_size in Hmax. cbn in Hmax.
  repeat split; try done.
Qed.

(** ** Where the two paths part *)


(** In GPU mode the occlusion entry of an observed voxel becomes the
    maximum of its old value and the raw depth difference. *)
Lemma integrate_gpu_occl self s fr self' u c p d :
  gpu self = Some s -> wf_volume (device s) -> launch_covers self s ->
  integrate self fr = Returned self' ->
  0 <= u < prod3 (_vol_dim self) -> prod3 (_vol_dim self) < 2 ^ 31 ->
  cell (grid self) u = Some c ->
  observe (kernel_args self fr 0) u = Some (p, d) ->
  exists c', cell (grid self') u = Some c' /\ occl c' = Qmaxf (occl c) d.
Proof.
  intros Hs Hwf Hcov H Hu H31 Hc Hobs.
  rewrite (integrate_gpu_cell _ _ _ _ _ Hs Hwf Hcov H Hu H31), Hc. cbn.
  eexists. split; [done|]. by eapply voxel_step_occl.
Qed.


(** The kernel observes no voxel that projects outside the image or has
    a negative camera depth. *)
Lemma observe_outside a v :
  (let cam_pt :=
     camera_point (cam_pose a)
       (world_point (vol_origin a) (voxel_size a)
          (kernel_voxel_coords (vol_dim a) v)) in
   let pixel := image_pixel (cam_intr a) cam_pt in
   pixel.1 < 0 \/ im_w a <= pixel.1 \/ pixel.2 < 0 \/ im_h a <= pixel.2 \/
   (cam_pt.2 < 0)%Q) ->
  observe a v = None.
Proof.
  cbv zeta. intros H. unfold observe.
  set (cam_pt := camera_point _ _) in *.
  set (pixel := image_pixel _ _) in *.
  replace (outside_frustum a pixel cam_pt.2) with true; [done|].
  symmetry. unfold outside_frustum. destruct pixel as [px py]. cbn in H.
  destruct H as [H|[H|[H|[H|H]]]].
  - apply Z.ltb_lt in H. by rewrite H.
  - apply Z.geb_le in H. rewrite H. by rewrite orb_true_r.
  - apply Z.ltb_lt in H. rewrite H. by rewrite !orb_true_r.
  - apply Z.geb_le in H. rewrite H. by rewrite !orb_true_r.
  - apply Qltb_true in H. rewrite H. by rewrite !orb_true_r.
Qed.

Lemma ix_out_of_range {A} (l : list A) i :
  Z.of_nat (length l) <= i -> ix l i = None.
Proof.
  intros Hi. unfold ix. destruct (Z.ltb_spec i 0); [done|].
  apply lookup_ge_None. lia.
Qed.

(** A thread whose index equals the number of voxels is not stopped by the
    guard of line 114; when its voxel passes the frustum and depth tests
    it reads [mask_vol] one element past the end. *)
Lemma integrate_kernel_out_of_bounds gd bd bi ti a g p d :
  thread_voxel_idx gd bd bi ti (gpu_loop_idx a) = prod3 (vol_dim a) ->
  Z.of_nat (length (mask_vol g)) = prod3 (vol_dim a) ->
  observe a (prod3 (vol_dim a)) = Some (p, d) ->
  integrate_kernel gd bd bi ti a g = None.
Proof.
  intros Hidx Hlen Hobs. unfold integrate_kernel. rewrite Hidx.
  rewrite int_prod3_id
    by (rewrite <-Hidx; apply thread_voxel_idx_range).
  rewrite Z.gtb_ltb, Z.ltb_irrefl.
  unfold observe in Hobs.
  set (pt := world_point _ _ _) in *.
  set (cam_pt := camera_point (cam_pose a) pt) in *.
  set (pixel := image_pixel (cam_intr a) cam_pt) in *.
  destruct (outside_frustum a pixel cam_pt.2); [done|].
  destruct (ix (depth_im a) _) as [depth_value|]; [|done].
  cbn [mbind option_bind].
  destruct (Qeq_bool depth_value 0); [done|].
  rewrite (ix_out_of_range (mask_vol g)) by lia. done.
Qed.

Lemma gpu_occl_two_frames :
  exists self', integrate_all mean_self occl_frames = Some self' /\
    Qred <$> occl_vol (grid self') = [199 # 100].
Proof. eexists. split; vm_compute; reflexivity. Qed.

(** C2 at a grid of one voxel and a frame of one pixel whose surface is
    4 cm behind the voxel (depth_diff / trunc_margin = 0.4): from the same
    initial arrays the GPU path returns with tsdf 0.4, weight 1 and mask
    3, and the CPU path raises [TypingError] and leaves tsdf 1, weight 0 and
    mask 0. *)
Lemma gpu_cpu_disagree :
  grid mean_self = grid mean_self_cpu /\
  (exists self',
     integrate mean_self close_frame = Returned self' /\
     reduced (grid self')
     = ([2 # 5]%Q, [1 # 25]%Q, [1%Q], [13145700%Q], [3])) /\
  integrate mean_self_cpu close_frame
  = Raised (TypingError "w_new") mean_self_cpu /\
  reduced (grid mean_self_cpu) = ([1%Q], [(-100)%Q], [0%Q], [0%Q], [0]).
Proof.
  split; [vm_compute; reflexivity|].
  split; [eexists; split; vm_compute; reflexivity|].
  split; vm_compute; reflexivity.
Qed.

(** C4 on the CPU path, for the two frames of depth 0.5 m and 2 m seen by
    a voxel with qz = 0.01: both calls raise [TypingError] and occl stays at
    -100; the distance that line 251 would compare with occl for the
    second frame is 19.9, the depth difference divided by trunc_margin. *)
Lemma cpu_occl_not_updated :
  Forall (fun fr =>
            integrate mean_self_cpu fr
            = Raised (TypingError "w_new") mean_self_cpu) occl_frames /\
  integrate_all mean_self_cpu occl_frames = Some mean_self_cpu /\
  Qred <$> occl_vol (grid mean_self_cpu) = [(-100)%Q] /\
  (exists d, cpu_depth_stage mean_self_cpu (one_pixel_frame I3 2 I4 1)
             = Ok ([true], [d]) /\ (d == 199 # 10)%Q).
Proof.
  split; [repeat constructor; vm_compute; reflexivity|].
  split; [vm_compute; reflexivity|].
  split; [vm_compute; reflexivity|].
  eexists. split; [vm_compute; reflexivity|reflexivity].
Qed.

(** The test of lines 314-318 admits no voxel of camera depth zero or
    less. *)
Lemma valid_pixel_spec im_h im_w pix pix_z :
  valid_pixel im_h im_w pix pix_z = true <->
  0 <= pix.1 < im_w /\ 0 <= pix.2 < im_h /\ (0 < pix_z)%Q.
Proof.
  unfold valid_pixel. rewrite !andb_true_iff, Qltb_true, !Z.ltb_lt.
  rewrite !Z.geb_le. tauto.
Qed.

(** C6 on the GPU path, for the voxel at the camera centre: its camera
    depth is 0, the kernel's test [cam_pt_z < 0] lets it pass, and all
    entries but tsdf leave their initial values. *)
Lemma gpu_updates_voxel_at_camera_centre :
  grid centre_self = fresh_volume 1 /\
  ((camera_point (Frame.cam_pose unit_frame)
      (world_point (_vol_origin centre_self) (_voxel_size centre_self)
         (voxel_coords (_vol_dim centre_self) 0))).2 == 0)%Q /\
  exists self',
    integrate centre_self unit_frame = Returned self' /\
    reduced (grid self') = ([1%Q], [1%Q], [1%Q], [13145700%Q], [3]).
Proof.
  split; [vm_compute; reflexivity|].
  split; [vm_compute; reflexivity|].
  eexists. split; vm_compute; reflexivity.
Qed.

(** C9 at a grid of N = 1 voxel on a device with 1024 threads per block:
    the thread with threadIdx.x = 1 computes voxel_idx = 1 = N, is not
    stopped by the guard [voxel_idx > N], passes the frustum and depth
    tests and reads mask_vol[1], outside the buffer of one element. *)
Lemma kernel_guard_admits_N :
  let gd := mk_dim3 1 1 1 in
  let bd := mk_dim3 1024 1 1 in
  let a := kernel_args far_self unit_frame 0 in
  gpu_grid <$> gpu far_self = Some gd /\
  gpu_block <$> gpu far_self = Some bd /\
  launch_threads gd bd !! 1%nat = Some (mk_dim3 0 0 0, mk_dim3 1 0 0) /\
  thread_voxel_idx gd bd (mk_dim3 0 0 0) (mk_dim3 1 0 0) 0
  = prod3 (_vol_dim far_self) /\
  Z.of_nat (length (mask_vol (grid far_self))) = prod3 (_vol_dim far_self) /\
  (exists p d, observe a 1 = Some (p, d)) /\
  ix (mask_vol (grid far_self)) 1 = None /\
  integrate_kernel gd bd (mk_dim3 0 0 0) (mk_dim3 1 0 0) a (grid far_self)
  = None /\
  integrate far_self unit_frame = Undefined.
Proof.
  repeat split; try (vm_compute; reflexivity).
  eexists _, _. vm_compute. reflexivity.
Qed.

(** Lines 341-352 on their own, for a grid of one voxel and an RGB camera
    one metre beside the depth camera: the voxel is in [valid_pts], the
    pixel that [cam2pix] gives for it in the RGB camera is (100, 0), and
    indexing an image of one pixel with it raises [IndexError]; nothing
    between lines 344 and 352 compares the pixel with the image size.
    The kernel, which tests the RGB pixel again on line 170, returns and
    leaves the colour alone. *)
Lemma cpu_rgb_pixel_unchecked :
  (exists d, cpu_depth_stage far_self_cpu shifted_frame = Ok ([true], [d])) /\
  snd <$> (match cpu_project far_self_cpu (Frame.rgb_pose shifted_frame)
                   (Frame.rgb_intr shifted_frame) with
           | Ok r => Some r
           | Raise _ => None
           end) = Some [(100, 0)] /\
  ncols (Frame.color_im shifted_frame) = 1 /\
  gather_pixels (folded_color_im shifted_frame) [(100, 0)]
  = Raise IndexError /\
  (exists self',
     integrate far_self shifted_frame = Returned self' /\
     reduced (grid self') = ([0%Q], [0%Q], [1%Q], [0%Q], [3])).
Proof.
  split; [eexists; vm_compute; reflexivity|].
  split; [vm_compute; reflexivity|].
  split; [reflexivity|].
  split; [vm_compute; reflexivity|].
  eexists; split; vm_compute; reflexivity.
Qed.



(** The loop of [integrate_tsdf] and the writes of lines 336-364, for the
    voxel of [far_self] that lies 0.5 m behind the surface: had [w_new]
    been bound, the CPU path would add the weight and store the unclamped
    distance -5, where the kernel leaves weight and tsdf alone. *)
Lemma cpu_writes_without_truncation :
  (exists d, cpu_depth_stage far_self_cpu near_frame = Ok ([true], [d]) /\
             (d == -5)%Q) /\
  exists self',
    cpu_write_stage far_self_cpu near_frame (folded_color_im near_frame)
      ([true], [(0, 0, 0)], [0%Q],
       integrate_tsdf_loop [1%Q] [(-100)%Q] [(-5)%Q] [0%Q] 1)
    = Returned self' /\
    reduced (grid self')
    = ([(-5)%Q], [(-5)%Q], [1%Q], [13145700%Q], [3]).
Proof.
  split; [eexists; split; [vm_compute; reflexivity|reflexivity]|].
  eexists. split; vm_compute; reflexivity.
Qed.

(** ** Sequences of frames on the device *)

Lemma integrate_gpu_not_raised self s fr e self1 :
  gpu self = Some s -> integrate self fr <> Raised e self1.
Proof.
  intros Hs. unfold integrate. rewrite Hs.
  by destruct (gpu_loops _ _ _ _ _).
Qed.

(** In GPU mode a sequence of calls that return applies the [voxel_step]
    of each frame in turn to every voxel of the grid. *)
Lemma integrate_all_gpu_cell frames :
  forall self s self' u c,
  gpu self = Some s -> wf_volume (device s) -> launch_covers self s ->
  integrate_all self frames = Some self' ->
  0 <= u < prod3 (_vol_dim self) -> prod3 (_vol_dim self) < 2 ^ 31 ->
  cell (grid self) u = Some c ->
  cell (grid self') u = Some (voxel_steps self frames u c).
Proof.
  induction frames as [|fr frames IH];
    intros self s self' u c Hs Hwf Hcov Hall Hu H31 Hc.
  { by inversion Hall; subst. }
  cbn in Hall.
  destruct (integrate self fr) as [self1|e self1|] eqn:Hint; [| |done].
  2:{ by apply integrate_gpu_not_raised with (s := s) in Hint. }
  cbn in Hall.
  pose proof (integrate_gpu_cell _ _ _ _ u Hs Hwf Hcov Hint Hu H31) as Hcell.
  rewrite Hc in Hcell. cbn in Hcell.
  destruct (integrate_gpu_state _ _ _ _ Hs Hwf Hint) as (g & -> & Hwfg & _).
  by apply (IH (with_device self s g) _ self' u _ eq_refl Hwfg Hcov Hall Hu H31).
Qed.

(** On a grid of 2^31 voxels, which the launch bound still admits, a
    sequence of calls leaves the arrays as they were. *)
Lemma integrate_all_gpu_idle frames :
  forall self s self',
  gpu self = Some s -> launch_covers self s ->
  integrate_all self frames = Some self' ->
  2 ^ 31 <= prod3 (_vol_dim self) ->
  grid self' = grid self.
Proof.
  induction frames as [|fr frames IH]; intros self s self' Hs Hcov Hall H31.
  { by inversion Hall; subst. }
  cbn in Hall.
  destruct (integrate self fr) as [self1|e self1|] eqn:Hint; [| |done].
  2:{ by apply integrate_gpu_not_raised with (s := s) in Hint. }
  cbn in Hall.
  rewrite (integrate_gpu_idle _ _ _ _ Hs Hcov Hint H31) in Hall.
  rewrite (IH (with_device self s (device s)) _ self' eq_refl Hcov Hall H31).
  unfold grid. rewrite Hs. done.
Qed.

(** Either way: what a voxel holds after a sequence of calls. *)
Lemma integrate_all_gpu_cases frames self s self' u c :
  gpu self = Some s -> wf_volume (device s) -> launch_covers self s ->
  integrate_all self frames = Some self' ->
  0 <= u < prod3 (_vol_dim self) ->
  cell (grid self) u = Some c ->
  cell (grid self') u = Some (voxel_steps self frames u c) \/
  cell (grid self') u = Some c.
Proof.
  intros Hs Hwf Hcov Hall Hu Hc.
  destruct (Z.lt_ge_cases (prod3 (_vol_dim self)) (2 ^ 31)) as [H31|H31].
  - left. by eapply integrate_all_gpu_cell.
  - right. by rewrite (integrate_all_gpu_idle _ _ _ _ Hs Hcov Hall H31).
Qed.

Lemma voxel_steps_cons self fr frames v c :
  voxel_steps self (fr :: frames) v c
  = voxel_steps self frames v (voxel_step (kernel_args self fr 0) v c).
Proof. reflexivity. Qed.

(** A property of voxels that every kernel run keeps is kept by a
    sequence of frames. *)
Lemma voxel_steps_ind (P : Frame.t -> Prop) (R : Voxel -> Voxel -> Prop) self v :
  (forall c, R c c) ->
  (forall c1 c2 c3, R c1 c2 -> R c2 c3 -> R c1 c3) ->
  (forall fr c, P fr -> R c (voxel_step (kernel_args self fr 0) v c)) ->
  forall frames c, Forall P frames -> R c (voxel_steps self frames v c).
Proof.
  intros Hrefl Htrans Hstep frames.
  induction frames as [|fr frames IH]; intros c HP; [apply Hrefl|].
  apply Forall_cons in HP as [Hfr HP]. rewrite voxel_steps_cons.
  eapply Htrans; [by apply Hstep|by apply IH].
Qed.

Lemma voxel_step_mask a v c :
  mask (voxel_step a v c) = mask c \/
  exists m, mask (voxel_step a v c) = Z.lor (mask c) m.
Proof.
  unfold voxel_step. destruct (observe a v) as [[p d]|]; [|by left].
  right. eexists.
  destruct (Qltb d _); [done|]. by destruct (rgb_sample a v).
Qed.

Lemma voxel_step_mask_bits a v c n :
  Z.testbit (mask c) n = true -> Z.testbit (mask (voxel_step a v c)) n = true.
Proof.
  intros H. destruct (voxel_step_mask a v c) as [->|[m ->]]; [done|].
  rewrite Z.lor_spec, H. done.
Qed.

(** X1.  In GPU mode a mask bit that is set in a voxel is still set after any
    sequence of [integrate] calls that return: the kernel only ORs the
    pixel's mask into [mask_vol] (line 147). *)
Theorem gpu_mask_bits_kept self s frames self' u c n :
  gpu self = Some s -> wf_volume (device s) -> launch_covers self s ->
  integrate_all self frames = Some self' ->
  0 <= u < prod3 (_vol_dim self) ->
  cell (grid self) u = Some c ->
  Z.testbit (mask c) n = true ->
  exists c', cell (grid self') u = Some c' /\ Z.testbit (mask c') n = true.
Proof.
  intros Hs Hwf Hcov Hall Hu Hc Hn.
  destruct (integrate_all_gpu_cases frames self s self' u c
              Hs Hwf Hcov Hall Hu Hc) as [E|E]; [|by exists c].
  eexists. split; [exact E|].
  revert Hn.
  apply (voxel_steps_ind (fun _ => True)
           (fun c c' => Z.testbit (mask c) n = true ->
                        Z.testbit (mask c') n = true) self u); auto.
  - intros fr c0 _. apply voxel_step_mask_bits.
  - by apply Forall_true.
Qed.

Lemma gpu_mask_bits_kept_witness :
  exists c', cell (grid mean_after) 0 = Some c' /\
             Z.testbit (mask c') 0 = true.
Proof.
  eapply (gpu_mask_bits_kept mean_first _ (drop 1 mean_frames) mean_after 0
            _ 0).
  - vm_compute. reflexivity.
  - vm_compute. auto.
  - vm_compute. repeat split; congruence.
  - vm_compute. reflexivity.
  - vm_compute. split; congruence.
  - vm_compute. reflexivity.
  - reflexivity.
Defined.

Lemma voxel_step_weight a v c :
  weight (voxel_step a v c) = weight c \/
  weight (voxel_step a v c) = (weight c + obs_weight a)%Q.
Proof.
  unfold voxel_step. destruct (observe a v) as [[p d]|]; [|by left].
  destruct (Qltb d _); [by left|]. right. by destruct (rgb_sample a v).
Qed.

(** X2.  In GPU mode, over any sequence of [integrate] calls with non-negative
    [obs_weight] that return, neither the occlusion value nor the weight
    of a voxel decreases (lines 151 and 157-158). *)
Theorem gpu_occl_weight_monotone self s frames self' u c :
  gpu self = Some s -> wf_volume (device s) -> launch_covers self s ->
  Forall (fun fr => (0 <= Frame.obs_weight fr)%Q) frames ->
  integrate_all self frames = Some self' ->
  0 <= u < prod3 (_vol_dim self) ->
  cell (grid self) u = Some c ->
  exists c', cell (grid self') u = Some c' /\
    (occl c <= occl c')%Q /\ (weight c <= weight c')%Q.
Proof.
  intros Hs Hwf Hcov Hobs Hall Hu Hc.
  destruct (integrate_all_gpu_cases frames self s self' u c
              Hs Hwf Hcov Hall Hu Hc) as [E|E];
    [|exists c; split; [done|split; lra]].
  eexists. split; [exact E|].
  apply (voxel_steps_ind (fun fr => (0 <= Frame.obs_weight fr)%Q)
           (fun c c' => (occl c <= occl c')%Q /\ (weight c <= weight c')%Q)
           self u); [| | |done].
  - intros c0. split; lra.
  - intros c1 c2 c3 [] []. split; lra.
  - intros fr c0 Hfr. split; [apply voxel_step_occl_mono|].
    destruct (voxel_step_weight (kernel_args self fr 0) u c0) as [->| ->];
      cbn [kernel_args obs_weight]; lra.
Qed.

Lemma gpu_occl_weight_monotone_witness :
  exists c', cell (grid mean_after) 0 = Some c' /\
    (occl (mk_Voxel 1 (-100) 0 0 0) <= occl c')%Q /\
    (weight (mk_Voxel 1 (-100) 0 0 0) <= weight c')%Q.
Proof.
  eapply (gpu_occl_weight_monotone mean_self _ mean_frames mean_after 0
            (mk_Voxel 1 (-100) 0 0 0)).
  - vm_compute. reflexivity.
  - vm_compute. auto.
  - vm_compute. repeat split; congruence.
  - repeat constructor; vm_compute; congruence.
  - vm_compute. reflexivity.
  - vm_compute. split; congruence.
  - vm_compute. reflexivity.
Defined.

Lemma Qmaxf_comm3 o a b : (Qmaxf (Qmaxf o a) b == Qmaxf (Qmaxf o b) a)%Q.
Proof.
  destruct (Qmaxf_spec o a) as [[? ->]|[? ->]];
  destruct (Qmaxf_spec o b) as [[? ->]|[? ->]];
  repeat match goal with
         | |- context [Qmaxf ?x ?y] =>
             destruct (Qmaxf_spec x y) as [[? ->]|[? ->]]
         end; lra.
Qed.

Lemma Qmaxf_idem2 o a : Qmaxf (Qmaxf o a) a = Qmaxf o a.
Proof.
  destruct (Qmaxf_spec o a) as [[? ->]|[? Ho]].
  - destruct (Qmaxf_spec a a) as [[? ->]|[? ->]]; done.
  - rewrite Ho. destruct (Qmaxf_spec o a) as [[? ?]|[? ->]]; [lra|done].
Qed.

(** The part of [voxel_step] that does not depend on the voxel. *)
Lemma voxel_step_cases a v c :
  (observe a v = None /\ voxel_step a v c = c) \/
  (exists p d, observe a v = Some (p, d) /\ (d < - trunc_margin a)%Q /\
     tsdf (voxel_step a v c) = tsdf c /\
     weight (voxel_step a v c) = weight c /\
     color (voxel_step a v c) = color c /\
     occl (voxel_step a v c) = Qmaxf (occl c) d /\
     mask (voxel_step a v c)
     = Z.lor (mask c) (default 0 (ix (mask_im a) p))) \/
  (exists p d, observe a v = Some (p, d) /\ (- trunc_margin a <= d)%Q /\
     tsdf (voxel_step a v c)
     = ((tsdf c * weight c + obs_weight a * Qminf 1 (d / trunc_margin a))
        / (weight c + obs_weight a))%Q /\
     weight (voxel_step a v c) = (weight c + obs_weight a)%Q /\
     occl (voxel_step a v c) = Qmaxf (occl c) d /\
     mask (voxel_step a v c)
     = Z.lor (mask c) (default 0 (ix (mask_im a) p))).
Proof.
  unfold voxel_step. destruct (observe a v) as [[p d]|]; [|by left].
  right. destruct (Qltb d (- trunc_margin a)) eqn:Hd.
  - left. exists p, d. apply Qltb_true in Hd. done.
  - right. exists p, d. apply Qltb_false in Hd.
    by destruct (rgb_sample a v).
Qed.

Lemma voxel_step_commute a b v c :
  (0 <= weight c)%Q -> (0 < obs_weight a)%Q -> (0 < obs_weight b)%Q ->
  let c12 := voxel_step b v (voxel_step a v c) in
  let c21 := voxel_step a v (voxel_step b v c) in
  (tsdf c12 == tsdf c21)%Q /\ (weight c12 == weight c21)%Q /\
  (occl c12 == occl c21)%Q /\ mask c12 = mask c21.
Proof.
  intros Hw Ha Hb. cbv zeta.
  destruct (voxel_step_cases a v c) as
    [[Hoa Ea]|[(pa & da & Hoa & Hda & Eta & Ewa & _ & Eoa & Ema)
              |(pa & da & Hoa & Hda & Eta & Ewa & Eoa & Ema)]];
  destruct (voxel_step_cases b v c) as
    [[Hob Eb]|[(pb & db & Hob & Hdb & Etb & Ewb & _ & Eob & Emb)
              |(pb & db & Hob & Hdb & Etb & Ewb & Eob & Emb)]];
  destruct (voxel_step_cases b v (voxel_step a v c)) as
    [[Hob' Eb']|[(pb' & db' & Hob' & Hdb' & Etb' & Ewb' & _ & Eob' & Emb')
               |(pb' & db' & Hob' & Hdb' & Etb' & Ewb' & Eob' & Emb')]];
  destruct (voxel_step_cases a v (voxel_step b v c)) as
    [[Hoa' Ea']|[(pa' & da' & Hoa' & Hda' & Eta' & Ewa' & _ & Eoa' & Ema')
               |(pa' & da' & Hoa' & Hda' & Eta' & Ewa' & Eoa' & Ema')]];
  try congruence;
  repeat match goal with
         | H1 : observe ?x v = Some _, H2 : observe ?x v = Some _ |- _ =>
             rewrite H1 in H2; inversion H2; subst; clear H2
         end;
  try lra;
  rewrite ?Ea', ?Eb', ?Ea, ?Eb, ?Eta', ?Etb', ?Ewa', ?Ewb', ?Eoa', ?Eob',
    ?Ema', ?Emb', ?Eta, ?Etb, ?Ewa, ?Ewb, ?Eoa, ?Eob, ?Ema, ?Emb;
  (split; [try reflexivity|split; [try reflexivity|split; [try reflexivity|]]]);
  try apply Qmaxf_comm3; try ring; try (field; lra);
  try (rewrite <-!Z.lor_assoc; f_equal; apply Z.lor_comm).
Qed.

(** X3.  In GPU mode two frames with positive weights can be integrated in
    either order: tsdf, weight and occlusion of every voxel come out
    equal as rationals, and the mask identical.  The colour, which is
    rounded at every call, is not part of the statement. *)
Theorem gpu_two_frames_commute self s f1 f2 self12 self21 u c :
  gpu self = Some s -> wf_volume (device s) -> launch_covers self s ->
  (0 < Frame.obs_weight f1)%Q -> (0 < Frame.obs_weight f2)%Q ->
  integrate_all self [f1; f2] = Some self12 ->
  integrate_all self [f2; f1] = Some self21 ->
  0 <= u < prod3 (_vol_dim self) ->
  cell (grid self) u = Some c -> (0 <= weight c)%Q ->
  exists c12 c21,
    cell (grid self12) u = Some c12 /\ cell (grid self21) u = Some c21 /\
    (tsdf c12 == tsdf c21)%Q /\ (weight c12 == weight c21)%Q /\
    (occl c12 == occl c21)%Q /\ mask c12 = mask c21.
Proof.
  intros Hs Hwf Hcov H1 H2 H12 H21 Hu Hc Hw.
  destruct (Z.lt_ge_cases (prod3 (_vol_dim self)) (2 ^ 31)) as [H31|H31].
  - eexists _, _.
    split; [by eapply integrate_all_gpu_cell|].
    split; [by eapply integrate_all_gpu_cell|].
    by apply (voxel_step_commute (kernel_args self f1 0)
                (kernel_args self f2 0)).
  - exists c, c.
    rewrite (integrate_all_gpu_idle _ _ _ _ Hs Hcov H12 H31),
      (integrate_all_gpu_idle _ _ _ _ Hs Hcov H21 H31).
    repeat split; done.
Qed.

Lemma gpu_two_frames_commute_witness :
  exists c12 c21,
    cell (grid mean_after) 0 = Some c12 /\
    cell (grid mean_swapped) 0 = Some c21 /\
    (tsdf c12 == tsdf c21)%Q /\ (weight c12 == weight c21)%Q /\
    (occl c12 == occl c21)%Q /\ mask c12 = mask c21.
Proof.
  eapply (gpu_two_frames_commute mean_self _
            (one_pixel_frame I3 1 I4 1) (one_pixel_frame I3 (5 # 100) I4 3)
            mean_after mean_swapped 0 (mk_Voxel 1 (-100) 0 0 0)).
  - vm_compute. reflexivity.
  - vm_compute. auto.
  - vm_compute. repeat split; congruence.
  - reflexivity.
  - reflexivity.
  - vm_compute. reflexivity.
  - vm_compute. reflexivity.
  - vm_compute. split; congruence.
  - vm_compute. reflexivity.
  - vm_compute. congruence.
Defined.

Lemma voxel_step_twice a v c :
  occl (voxel_step a v (voxel_step a v c)) = occl (voxel_step a v c) /\
  mask (voxel_step a v (voxel_step a v c)) = mask (voxel_step a v c).
Proof.
  destruct (voxel_step_cases a v c) as
    [[Hoa Ea]|[(pa & da & Hoa & Hda & Eta & Ewa & _ & Eoa & Ema)
              |(pa & da & Hoa & Hda & Eta & Ewa & Eoa & Ema)]];
  destruct (voxel_step_cases a v (voxel_step a v c)) as
    [[Hoa' Ea']|[(pa' & da' & Hoa' & Hda' & Eta' & Ewa' & _ & Eoa' & Ema')
               |(pa' & da' & Hoa' & Hda' & Eta' & Ewa' & Eoa' & Ema')]];
  try congruence;
  repeat match goal with
         | H1 : observe ?x v = Some _, H2 : observe ?x v = Some _ |- _ =>
             rewrite H1 in H2; inversion H2; subst; clear H2
         end;
  rewrite ?Ea', ?Eoa', ?Ema', ?Eoa, ?Ema; try done;
  (split; [apply Qmaxf_idem2|]);
  rewrite <-Z.lor_assoc, Z.lor_diag; done.
Qed.

(** X4.  In GPU mode integrating a frame a second time changes neither the
    occlusion value nor the mask of a voxel: max and OR are idempotent. *)
Theorem gpu_frame_twice self s fr self1 self2 u c :
  gpu self = Some s -> wf_volume (device s) -> launch_covers self s ->
  integrate_all self [fr] = Some self1 ->
  integrate_all self [fr; fr] = Some self2 ->
  0 <= u < prod3 (_vol_dim self) ->
  cell (grid self) u = Some c ->
  exists c1 c2,
    cell (grid self1) u = Some c1 /\ cell (grid self2) u = Some c2 /\
    occl c2 = occl c1 /\ mask c2 = mask c1.
Proof.
  intros Hs Hwf Hcov H1 H2 Hu Hc.
  destruct (Z.lt_ge_cases (prod3 (_vol_dim self)) (2 ^ 31)) as [H31|H31].
  - eexists _, _.
    split; [by eapply integrate_all_gpu_cell|].
    split; [by eapply integrate_all_gpu_cell|].
    apply voxel_step_twice.
  - exists c, c.
    rewrite (integrate_all_gpu_idle _ _ _ _ Hs Hcov H1 H31),
      (integrate_all_gpu_idle _ _ _ _ Hs Hcov H2 H31).
    done.
Qed.

Lemma gpu_frame_twice_witness :
  exists c1 c2,
    cell (grid mean_first) 0 = Some c1 /\ cell (grid mean_twice) 0 = Some c2 /\
    occl c2 = occl c1 /\ mask c2 = mask c1.
Proof.
  eapply (gpu_frame_twice mean_self _ (one_pixel_frame I3 1 I4 1)
            mean_first mean_twice 0 (mk_Voxel 1 (-100) 0 0 0)).
  - vm_compute. reflexivity.
  - vm_compute. auto.
  - vm_compute. repeat split; congruence.
  - vm_compute. reflexivity.
  - vm_compute. reflexivity.
  - vm_compute. split; congruence.
  - vm_compute. reflexivity.
Defined.

Lemma contribution_None self v fr c :
  contribution self v fr = None ->
  tsdf (voxel_step (kernel_args self fr 0) v c) = tsdf c /\
  weight (voxel_step (kernel_args self fr 0) v c) = weight c.
Proof.
  unfold contribution. intros H.
  destruct (voxel_step_cases (kernel_args self fr 0) v c) as
    [[Ho ->]|[(p & d & Ho & Hd & Et & Ew & _)
             |(p & d & Ho & Hd & Et & Ew & _)]]; try done.
  rewrite Ho in H. cbn [kernel_args trunc_margin] in Hd.
  apply Qltb_false in Hd. rewrite Hd in H. done.
Qed.

Lemma contribution_Some self v fr ws c :
  contribution self v fr = Some ws ->
  ws.1 = Frame.obs_weight fr /\
  tsdf (voxel_step (kernel_args self fr 0) v c)
  = ((tsdf c * weight c + ws.1 * ws.2) / (weight c + ws.1))%Q /\
  weight (voxel_step (kernel_args self fr 0) v c) = (weight c + ws.1)%Q.
Proof.
  unfold contribution. intros H.
  destruct (voxel_step_cases (kernel_args self fr 0) v c) as
    [[Ho _]|[(p & d & Ho & Hd & _)
            |(p & d & Ho & Hd & Et & Ew & _)]]; rewrite Ho in H; try done.
  - cbn [kernel_args trunc_margin] in Hd.
    apply Qltb_true in Hd. rewrite Hd in H. done.
  - cbn [kernel_args trunc_margin obs_weight] in *.
    apply Qltb_false in Hd. rewrite Hd in H. inversion H; subst ws. done.
Qed.

Lemma voxel_steps_mean self v frames : forall c,
  Forall (fun fr => (0 < Frame.obs_weight fr)%Q) frames ->
  (0 <= weight c)%Q ->
  let obs := omap (contribution self v) frames in
  let c' := voxel_steps self frames v c in
  (weight c' == weight c + sum_w obs)%Q /\
  (tsdf c' * (weight c + sum_w obs) == tsdf c * weight c + sum_ws obs)%Q /\
  (obs = [] -> tsdf c' = tsdf c /\ weight c' = weight c).
Proof.
  induction frames as [|fr frames IH]; intros c Hpos Hw; cbv zeta.
  { cbn. repeat split; ring. }
  apply Forall_cons in Hpos as [Hfr Hpos].
  rewrite voxel_steps_cons. cbn [omap list_omap].
  destruct (contribution self v fr) as [ws|] eqn:Hc.
  - destruct (contribution_Some _ _ _ _ c Hc) as (Hw1 & Et & Ew).
    destruct (IH (voxel_step (kernel_args self fr 0) v c) Hpos) as (Hw' & Ht' & _).
    { rewrite Ew, Hw1. lra. }
    rewrite Ew in Hw', Ht'. rewrite Et in Ht'.
    rewrite sum_w_cons, sum_ws_cons.
    split; [rewrite Hw'; ring|]. split; [|done].
    transitivity (tsdf (voxel_steps self frames v
                          (voxel_step (kernel_args self fr 0) v c))
                  * (weight c + ws.1 + sum_w (omap (contribution self v) frames)))%Q;
      [ring|].
    rewrite Ht'. field. rewrite Hw1. lra.
  - destruct (contribution_None _ _ _ c Hc) as (Et & Ew).
    destruct (IH (voxel_step (kernel_args self fr 0) v c) Hpos) as (Hw' & Ht' & H0).
    { rewrite Ew. done. }
    rewrite Ew in Hw', Ht'. rewrite Et in Ht'.
    split; [done|]. split; [done|].
    intros Hnil. destruct (H0 Hnil) as [-> ->]. done.
Qed.

(** X5.  The running mean of the kernel over any sequence of frames with
    positive weights (GPU mode, a grid of at most 2^24 voxels, so that
    the 32-bit product of line 114 and the binary32 casts of lines
    117-119 are exact).  Only the frames in which the voxel passes the
    frustum, depth and truncation tests contribute: the weight grows by
    the sum of their weights, tsdf * weight by the sum of their
    weight * truncated distance, and a voxel to which no frame
    contributes keeps its tsdf and weight. *)
Theorem gpu_mean_of_contributions self s frames self' u c :
  gpu self = Some s -> wf_volume (device s) -> launch_covers self s ->
  prod3 (_vol_dim self) <= 2 ^ 24 ->
  Forall (fun fr => (0 < Frame.obs_weight fr)%Q) frames ->
  integrate_all self frames = Some self' ->
  0 <= u < prod3 (_vol_dim self) ->
  cell (grid self) u = Some c -> (0 <= weight c)%Q ->
  let obs := omap (contribution self u) frames in
  exists c', cell (grid self') u = Some c' /\
    (weight c' == weight c + sum_w obs)%Q /\
    (tsdf c' * (weight c + sum_w obs) == tsdf c * weight c + sum_ws obs)%Q /\
    (obs = [] -> tsdf c' = tsdf c /\ weight c' = weight c).
Proof.
  intros Hs Hwf Hcov H24 Hpos Hall Hu Hc Hw obs.
  eexists. split; [eapply integrate_all_gpu_cell; try done; lia|].
  by apply voxel_steps_mean.
Qed.

Lemma gpu_mean_of_contributions_witness :
  let obs := omap (contribution mean_self 0) mean_frames in
  exists c', cell (grid mean_after) 0 = Some c' /\
    (weight c' == weight (mk_Voxel 1 (-100) 0 0 0) + sum_w obs)%Q /\
    (tsdf c' * (weight (mk_Voxel 1 (-100) 0 0 0) + sum_w obs)
     == tsdf (mk_Voxel 1 (-100) 0 0 0) * weight (mk_Voxel 1 (-100) 0 0 0)
        + sum_ws obs)%Q /\
    (obs = [] -> tsdf c' = tsdf (mk_Voxel 1 (-100) 0 0 0) /\
                 weight c' = weight (mk_Voxel 1 (-100) 0 0 0)).
Proof.
  eapply (gpu_mean_of_contributions mean_self _ mean_frames mean_after 0
            (mk_Voxel 1 (-100) 0 0 0)).
  - vm_compute. reflexivity.
  - vm_compute. auto.
  - vm_compute. repeat split; congruence.
  - vm_compute. congruence.
  - repeat constructor.
  - vm_compute. reflexivity.
  - vm_compute. split; congruence.
  - vm_compute. reflexivity.
  - vm_compute. congruence.
Defined.

Lemma floorf_inject (q : Q) (n : Z) : (q == inject_Z n)%Q -> floorf q = inject_Z n.
Proof.
  intros H. unfold floorf. f_equal. rewrite (Qfloor_comp _ _ H).
  apply Qfloor_Z.
Qed.

Lemma unpack_color_packed (c : Q) (r g b : Z) :
  0 <= r <= 255 -> 0 <= g <= 255 -> 0 <= b <= 255 ->
  (c == inject_Z (b * 65536 + g * 256 + r))%Q ->
  triple_eq (unpack_color c) (inject_Z r, inject_Z g, inject_Z b).
Proof.
  intros Hr Hg Hb Hc. unfold unpack_color, triple_eq. cbn [fst snd].
  assert (Eb : floorf (c / color_const) = inject_Z b).
  { unfold floorf. f_equal.
    assert (c / color_const == inject_Z (b * 65536 + g * 256 + r) / inject_Z 65536)%Q
      as -> by (rewrite Hc; reflexivity).
    rewrite Qfloor_div_inject.
    symmetry. apply (Z.div_unique _ _ _ (g * 256 + r)); lia. }
  rewrite Eb.
  assert (Eg : floorf ((c - inject_Z b * color_const) / 256) = inject_Z g).
  { unfold floorf. f_equal.
    assert ((c - inject_Z b * color_const) / 256
            == inject_Z (g * 256 + r) / inject_Z 256)%Q as ->.
    { rewrite Hc. unfold color_const.
      rewrite !inject_Z_plus, !inject_Z_mult. field. }
    rewrite Qfloor_div_inject.
    symmetry. apply (Z.div_unique _ _ _ r); lia. }
  rewrite Eg. split; [|split; reflexivity].
  rewrite Hc. unfold color_const. rewrite !inject_Z_plus, !inject_Z_mult. ring.
Qed.

Lemma fold_color_rgb8 p : rgb8 p -> packed (fold_color p).
Proof.
  intros (r & g & b & Hr & Hg & Hb & H1 & H2 & H3).
  destruct p as [[c0 c1] c2]. cbn [fst snd] in *.
  exists r, g, b. repeat split; try lia.
  unfold fold_color. rewrite (floorf_inject _ (b * 65536 + g * 256 + r));
    [reflexivity|].
  rewrite H1, H2, H3. unfold color_const.
  rewrite !inject_Z_plus, !inject_Z_mult. ring.
Qed.

Lemma inject_Z_nonneg (n : Z) : 0 <= n -> (0 <= inject_Z n)%Q.
Proof. intros H. change 0%Q with (inject_Z 0). by rewrite <-Zle_Qle. Qed.

Lemma roundf_nonneg_int (x : Q) :
  (0 <= x)%Q -> exists k : Z, 0 <= k /\ roundf x = inject_Z k.
Proof.
  intros Hx. unfold roundf.
  destruct (Qle_bool 0 x) eqn:E.
  - eexists. split; [|reflexivity].
    assert (0 <= Qfloor (x + (1 # 2)))%Z; [|done].
    change 0 with (Qfloor 0). apply Qfloor_resp_le. lra.
  - apply not_true_iff_false in E. rewrite Qle_bool_iff in E. lra.
Qed.

Lemma blend_channel_byte (o n : Z) (old new w_old obs w_new : Q) :
  0 <= o -> 0 <= n -> (old == inject_Z o)%Q -> (new == inject_Z n)%Q ->
  (0 <= w_old)%Q -> (0 < obs)%Q -> (w_new == w_old + obs)%Q ->
  exists k : Z, 0 <= k <= 255 /\ blend_channel old new w_old obs w_new = inject_Z k.
Proof.
  intros Ho Hn Eo En Hw Hobs Ew. unfold blend_channel.
  destruct (roundf_nonneg_int ((old * w_old + obs * new) / w_new)) as (k & Hk & ->).
  { apply Qle_shift_div_l; [lra|]. rewrite Eo, En.
    pose proof (inject_Z_nonneg o Ho). pose proof (inject_Z_nonneg n Hn).
    nra. }
  destruct (Qminf_spec (inject_Z k) 255) as [[Hle ->]|[Hlt ->]].
  - exists k. split; [|done]. change 255%Q with (inject_Z 255) in Hle.
    rewrite <-Zle_Qle in Hle. lia.
  - exists 255. split; [lia|done].
Qed.

Lemma blend_color_packed old_color new_color w_old obs w_new :
  packed old_color -> packed new_color ->
  (0 <= w_old)%Q -> (0 < obs)%Q -> (w_new == w_old + obs)%Q ->
  packed (blend_color old_color new_color w_old obs w_new).
Proof.
  intros (r & g & b & Hr & Hg & Hb & Hc) (r' & g' & b' & Hr' & Hg' & Hb' & Hc')
    Hw Hobs Ew.
  pose proof (unpack_color_packed _ _ _ _ Hr Hg Hb Hc) as (E1 & E2 & E3).
  pose proof (unpack_color_packed _ _ _ _ Hr' Hg' Hb' Hc') as (E1' & E2' & E3').
  unfold blend_color.
  destruct (unpack_color old_color) as [[old_r old_g] old_b].
  destruct (unpack_color new_color) as [[new_r new_g] new_b].
  cbn [fst snd] in *.
  destruct (blend_channel_byte b b' old_b new_b w_old obs w_new)
    as (kb & Hkb & ->); try done; try lia.
  destruct (blend_channel_byte g g' old_g new_g w_old obs w_new)
    as (kg & Hkg & ->); try done; try lia.
  destruct (blend_channel_byte r r' old_r new_r w_old obs w_new)
    as (kr & Hkr & ->); try done; try lia.
  exists kr, kg, kb. repeat split; try lia.
  rewrite !inject_Z_plus, !inject_Z_mult. ring.
Qed.

Lemma voxel_step_packed a v c :
  (0 < obs_weight a)%Q -> Forall packed (color_im a) ->
  (0 <= weight c)%Q -> packed (color c) ->
  (0 <= weight (voxel_step a v c))%Q /\ packed (color (voxel_step a v c)).
Proof.
  intros Hobs Him Hw Hc. unfold voxel_step.
  destruct (observe a v) as [[p d]|]; [|done].
  destruct (Qltb d (- trunc_margin a)); [done|].
  destruct (rgb_sample a v) as [nc|] eqn:Hrgb; cbn; (split; [lra|]); [|done].
  apply blend_color_packed; try done; try reflexivity.
  unfold rgb_sample in Hrgb.
  destruct (outside_frustum _ _ _); [done|].
  by eapply ix_Forall.
Qed.

(** X6.  In GPU mode the colour of a voxel stays a packed colour
    (b * 65536 + g * 256 + r with bytes r, g, b) through any sequence of
    calls with positive weights whose colour images hold integer
    channels in [0,255] (lines 272 and 173-184). *)
Theorem gpu_color_stays_packed self s frames self' u c :
  gpu self = Some s -> wf_volume (device s) -> launch_covers self s ->
  Forall (fun fr => (0 < Frame.obs_weight fr)%Q /\
                    Forall rgb8 (flat (Frame.color_im fr))) frames ->
  integrate_all self frames = Some self' ->
  0 <= u < prod3 (_vol_dim self) ->
  cell (grid self) u = Some c -> (0 <= weight c)%Q -> packed (color c) ->
  exists c', cell (grid self') u = Some c' /\ packed (color c').
Proof.
  intros Hs Hwf Hcov Hfr Hall Hu Hc Hw Hp.
  destruct (integrate_all_gpu_cases frames self s self' u c
              Hs Hwf Hcov Hall Hu Hc) as [E|E]; [|by exists c].
  eexists. split; [exact E|].
  cut ((0 <= weight (voxel_steps self frames u c))%Q /\
       packed (color (voxel_steps self frames u c))); [by intros []|].
  clear Hall Hc E. revert c Hw Hp.
  induction Hfr as [|fr frames [Hobs Hrgb] _ IH]; intros c Hw Hp; [done|].
  rewrite voxel_steps_cons.
  destruct (voxel_step_packed (kernel_args self fr 0) u c) as [Hw' Hp'];
    try done.
  { cbn [kernel_args color_im]. apply Forall_fmap.
    eapply Forall_impl; [exact Hrgb|]. intros p. apply fold_color_rgb8. }
  by apply IH.
Qed.

Lemma gpu_color_stays_packed_witness :
  exists c', cell (grid mean_after) 0 = Some c' /\ packed (color c').
Proof.
  eapply (gpu_color_stays_packed mean_self _ mean_frames mean_after 0
            (mk_Voxel 1 (-100) 0 0 0)).
  - vm_compute. reflexivity.
  - vm_compute. auto.
  - vm_compute. repeat split; congruence.
  - repeat constructor; exists 100, 150, 200; repeat split; try lia;
      reflexivity.
  - vm_compute. reflexivity.
  - vm_compute. split; congruence.
  - vm_compute. reflexivity.
  - vm_compute. congruence.
  - exists 0, 0, 0. repeat split; lia.
Defined.




Lemma integrate_all_frame frames : forall self self',
  wf_volume (grid self) ->
  integrate_all self frames = Some self' ->
  host self' = host self /\ _vol_dim self' = _vol_dim self /\
  _vol_origin self' = _vol_origin self /\
  _voxel_size self' = _voxel_size self /\
  _trunc_margin self' = _trunc_margin self /\
  _vol_bnds self' = _vol_bnds self /\
  gpu_mode self' = gpu_mode self /\
  wf_volume (grid self') /\
  length (tsdf_vol (grid self')) = length (tsdf_vol (grid self)).
Proof.
  induction frames as [|fr frames IH]; intros self self' Hwf Hall.
  { by inversion Hall; subst. }
  destruct (gpu self) as [s|] eqn:Hs.
  - cbn in Hall.
    destruct (integrate self fr) as [self1|e self1|] eqn:Hint; [| |done].
    2:{ by apply integrate_gpu_not_raised with (s := s) in Hint. }
    cbn in Hall. unfold grid in Hwf. rewrite Hs in Hwf.
    destruct (integrate_gpu_state _ _ _ _ Hs Hwf Hint) as (g & -> & Hwfg & Hlen).
    destruct (IH (with_device self s g) self' Hwfg Hall)
      as (-> & -> & -> & -> & -> & -> & -> & ? & ->).
    unfold grid, gpu_mode. rewrite Hs. cbn. done.
  - rewrite integrate_all_cpu in Hall by done. by inversion Hall; subst.
Qed.

(** X8.  No sequence of [integrate] calls changes the host arrays of a grid,
    its dimensions, origin, voxel size, truncation margin, bounds or
    mode, or the length of the arrays it works on: in GPU mode the kernel
    writes the device buffers only, in CPU mode every call raises before
    its first write. *)
Theorem integrate_keeps_host_and_shape self frames self' :
  wf_volume (grid self) ->
  integrate_all self frames = Some self' ->
  host self' = host self /\ _vol_dim self' = _vol_dim self /\
  _vol_origin self' = _vol_origin self /\
  _voxel_size self' = _voxel_size self /\
  _trunc_margin self' = _trunc_margin self /\
  _vol_bnds self' = _vol_bnds self /\
  gpu_mode self' = gpu_mode self /\
  wf_volume (grid self') /\
  length (tsdf_vol (grid self')) = length (tsdf_vol (grid self)).
Proof. apply integrate_all_frame. Qed.

Lemma integrate_keeps_host_and_shape_witness :
  host mean_after = host mean_self /\ _vol_dim mean_after = _vol_dim mean_self /\
  _vol_origin mean_after = _vol_origin mean_self /\
  _voxel_size mean_after = _voxel_size mean_self /\
  _trunc_margin mean_after = _trunc_margin mean_self /\
  _vol_bnds mean_after = _vol_bnds mean_self /\
  gpu_mode mean_after = gpu_mode mean_self /\
  wf_volume (grid mean_after) /\
  length (tsdf_vol (grid mean_after)) = length (tsdf_vol (grid mean_self)).
Proof.
  apply (integrate_keeps_host_and_shape mean_self mean_frames mean_after).
  - vm_compute. auto.
  - vm_compute. reflexivity.
Defined.

Lemma init_modes pycuda vol_bnds voxel_size use_gpu self :
  __init__ pycuda vol_bnds voxel_size use_gpu = Ok self ->
  host self = fresh_volume (Z.to_nat (prod3 (_vol_dim self))) /\
  grid self = fresh_volume (Z.to_nat (prod3 (_vol_dim self))).
Proof. intros H. by destruct (init_fresh _ _ _ _ _ H) as (_ & ? & ?). Qed.

(** X9.  After the construction of a grid and any calls of [integrate],
    [get_volume] returns the tsdf, occlusion, colour and mask arrays of
    the active grid, leaves that grid as it is and returns the same when
    called again; the host weight array is still all zeros, since the
    weights are never copied back from the device (lines 366-372). *)
Theorem get_volume_after_integrate pycuda vol_bnds voxel_size use_gpu self
    frames self' :
  __init__ pycuda vol_bnds voxel_size use_gpu = Ok self ->
  integrate_all self frames = Some self' ->
  let r := get_volume self' in
  r.2 = (tsdf_vol (grid self'), occl_vol (grid self'),
         color_vol (grid self'), mask_vol (grid self')) /\
  weight_vol (host r.1)
  = replicate (Z.to_nat (prod3 (_vol_dim self))) 0%Q /\
  grid r.1 = grid self' /\
  get_volume r.1 = r.
Proof.
  intros Hinit Hall.
  destruct (init_modes _ _ _ _ _ Hinit) as [Hh Hg].
  destruct (integrate_all_frame frames self self') as (Hh' & _);
    [rewrite Hg; apply fresh_volume_wf|done|].
  cbv zeta. unfold get_volume, grid, with_host. cbn.
  rewrite Hh', Hh.
  destruct (gpu self') as [s'|] eqn:Hs'; cbn; rewrite ?Hs'; cbn; done.
Qed.

Lemma get_volume_after_integrate_witness :
  let r := get_volume mean_after in
  r.2 = (tsdf_vol (grid mean_after), occl_vol (grid mean_after),
         color_vol (grid mean_after), mask_vol (grid mean_after)) /\
  weight_vol (host r.1)
  = replicate (Z.to_nat (prod3 (_vol_dim mean_self))) 0%Q /\
  grid r.1 = grid mean_after /\
  get_volume r.1 = r.
Proof.
  apply (get_volume_after_integrate (Some demo_device)
           (one_voxel_bnds (1 # 100)) (2 # 100) true mean_self mean_frames
           mean_after).
  - vm_compute. reflexivity.
  - vm_compute. reflexivity.
Defined.

(** ** What the constructor establishes *)

(** What a successful construction has checked and stored. *)
Lemma init_inv pycuda vol_bnds voxel_size use_gpu self :
  __init__ pycuda vol_bnds voxel_size use_gpu = Ok self ->
  let d := derive_vol_dim vol_bnds voxel_size in
  let lo j := at_ (flat vol_bnds) (2 * j) in
  let n := Z.to_nat (prod3 d) in
  nrows vol_bnds = 3 /\ ncols vol_bnds = 2 /\
  (0 <= d.1.1 /\ 0 <= d.1.2 /\ 0 <= d.2) /\
  _vol_dim self = d /\ _voxel_size self = voxel_size /\
  _trunc_margin self = (5 * voxel_size)%Q /\
  _color_const self = color_const /\
  _vol_origin self = [lo 0%nat; lo 1%nat; lo 2%nat] /\
  _vol_bnds self
  = mk_ndarray2 3 2
      [lo 0%nat; (lo 0%nat + inject_Z d.1.1 * voxel_size)%Q;
       lo 1%nat; (lo 1%nat + inject_Z d.1.2 * voxel_size)%Q;
       lo 2%nat; (lo 2%nat + inject_Z d.2 * voxel_size)%Q] /\
  host self = fresh_volume n /\
  match (if use_gpu then pycuda else None) with
  | Some dev =>
      exists gx gy gz loops,
        gpu_dispatch dev (prod3 d) = Ok (gx, gy, gz, loops) /\
        gpu self
        = Some (mk_GpuState (fresh_volume n) (MAX_THREADS_PER_BLOCK dev)
                  (gx, gy, gz) loops) /\
        vox_coords self = []
  | None => gpu self = None /\ vox_coords self = meshgrid_ij d
  end.
Proof.
  unfold __init__.
  destruct (Z.eqb_spec (nrows vol_bnds) 3) as [Hr|]; [|done].
  destruct (Z.eqb_spec (ncols vol_bnds) 2) as [Hc|]; [|done].
  cbn [andb negb].
  set (d := derive_vol_dim vol_bnds voxel_size).
  destruct (np_full 1%Q d) as [t|] eqn:Et; [|done].
  destruct (np_full (-100)%Q d) as [o|] eqn:Eo; [|done].
  destruct (np_full 0%Q d) as [w|] eqn:Ew; [|done].
  destruct (np_full 0%Z d) as [m|] eqn:Em; [|done].
  cbn [mbind result_bind].
  pose proof (np_full_nonneg _ _ _ Et) as Hd.
  apply np_full_Ok in Et, Eo, Ew, Em. subst t o w m.
  destruct (if use_gpu then pycuda else None) as [gpu_dev|].
  - destruct (gpu_dispatch _ _) as [[[[gx gy] gz] loops]|] eqn:Eg; [|done].
    cbn. intros [= <-]. cbn. repeat split; try done; try apply Hd.
    by exists gx, gy, gz, loops.
  - intros [= <-]. cbn. repeat split; try done; apply Hd.
Qed.

(** X10.  What the constructor returns: non-negative dimensions, five arrays
    of [prod _vol_dim] entries holding tsdf 1, occlusion -100, weight 0,
    colour 0 and mask 0 on the host and on the device alike, a
    truncation margin of five voxels, the minima of the bounds as
    origin, and GPU mode exactly when it was asked for and PyCUDA was
    found. *)
Theorem init_initial_state pycuda vol_bnds voxel_size use_gpu self :
  __init__ pycuda vol_bnds voxel_size use_gpu = Ok self ->
  let n := Z.to_nat (prod3 (_vol_dim self)) in
  (0 <= (_vol_dim self).1.1 /\ 0 <= (_vol_dim self).1.2 /\
   0 <= (_vol_dim self).2) /\
  tsdf_vol (grid self) = replicate n 1%Q /\
  occl_vol (grid self) = replicate n (-100)%Q /\
  weight_vol (grid self) = replicate n 0%Q /\
  color_vol (grid self) = replicate n 0%Q /\
  mask_vol (grid self) = replicate n 0 /\
  host self = grid self /\
  _trunc_margin self = (5 * voxel_size)%Q /\
  _vol_origin self
  = [at_ (flat vol_bnds) 0; at_ (flat vol_bnds) 2; at_ (flat vol_bnds) 4] /\
  gpu_mode self
  = (use_gpu && match pycuda with Some _ => true | None => false end).
Proof.
  intros H.
  destruct (init_inv _ _ _ _ _ H)
    as (_ & _ & Hd & Ed & _ & Etm & _ & Eo & _ & Eh & Hg).
  cbv zeta. rewrite Ed. split; [done|].
  unfold grid, gpu_mode. rewrite Eh.
  destruct use_gpu, pycuda as [dev|]; cbn in Hg |- *;
    try (destruct Hg as (gx & gy & gz & loops & _ & -> & _));
    try (destruct Hg as [-> _]); cbn; done.
Qed.

Lemma init_initial_state_witness :
  let n := Z.to_nat (prod3 (_vol_dim cube_self)) in
  (0 <= (_vol_dim cube_self).1.1 /\ 0 <= (_vol_dim cube_self).1.2 /\
   0 <= (_vol_dim cube_self).2) /\
  tsdf_vol (grid cube_self) = replicate n 1%Q /\
  occl_vol (grid cube_self) = replicate n (-100)%Q /\
  weight_vol (grid cube_self) = replicate n 0%Q /\
  color_vol (grid cube_self) = replicate n 0%Q /\
  mask_vol (grid cube_self) = replicate n 0 /\
  host cube_self = grid cube_self /\
  _trunc_margin cube_self = (5 * (1 # 4))%Q /\
  _vol_origin cube_self
  = [at_ (flat unit_bnds) 0; at_ (flat unit_bnds) 2; at_ (flat unit_bnds) 4] /\
  gpu_mode cube_self = (false && false).
Proof.
  apply (init_initial_state None unit_bnds (1 # 4) false cube_self).
  vm_compute. reflexivity.
Defined.

Lemma derive_dim_ceiling (lo hi vs : Q) :
  (0 < vs)%Q -> 0 <= ceil_astype_int (xdiv (hi - lo) vs) ->
  let n := ceil_astype_int (xdiv (hi - lo) vs) in
  n = Qceiling ((hi - lo) / vs) /\
  (hi <= lo + inject_Z n * vs)%Q /\ (lo + inject_Z n * vs < hi + vs)%Q.
Proof.
  intros Hvs. unfold xdiv.
  destruct (Qeq_bool vs 0) eqn:E0.
  { apply Qeq_bool_iff in E0. lra. }
  cbn [ceil_astype_int].
  destruct (_ && _) eqn:Er; [|by cbv].
  intros _. cbv zeta. split; [done|].
  pose proof (Qle_ceiling ((hi - lo) / vs)) as H1.
  pose proof (Qceiling_lt ((hi - lo) / vs)) as H2.
  unfold Z.sub in H2. rewrite inject_Z_plus, inject_Z_opp in H2.
  set (n := inject_Z (Qceiling _)) in *.
  assert (E : ((hi - lo) / vs * vs == hi - lo)%Q) by (field; lra).
  split.
  - apply (Qmult_le_compat_r _ _ vs) in H1; [|lra]. rewrite E in H1. lra.
  - apply (Qmult_lt_compat_r _ _ vs) in H2; [|lra]. rewrite E in H2.
    change (inject_Z 1) with 1%Q in H2. lra.
Qed.

(** X11.  For bounds given as an array of binary64 floats and a positive
    voxel size, along an axis where the subtraction and the division of
    line 57 are exact (binary64 rounds neither max - min nor its quotient
    by voxel_size), the number of voxels is ceil((max - min) / voxel_size),
    which is also what the binary64 computation gives, the minimum is
    kept as it is, and min + n * voxel_size, the value that line 58
    computes for the new maximum, lies in [max, max + voxel_size): the
    grid covers the bounds it was given. *)
Theorem init_bounds_cover pycuda vol_bnds voxel_size use_gpu self (j : nat) :
  __init__ pycuda vol_bnds voxel_size use_gpu = Ok self ->
  (0 < voxel_size)%Q -> (j < 3)%nat ->
  let lo := at_ (flat vol_bnds) (2 * j) in
  let hi := at_ (flat vol_bnds) (2 * j + 1) in
  let dim := nth j [(_vol_dim self).1.1; (_vol_dim self).1.2;
                    (_vol_dim self).2] 0 in
  (binary64 (hi - lo) == hi - lo)%Q ->
  (binary64 (binary64 (hi - lo) / voxel_size)
   == binary64 (hi - lo) / voxel_size)%Q ->
  dim = Qceiling ((hi - lo) / voxel_size) /\
  dim = Qceiling (binary64 (binary64 (hi - lo) / voxel_size)) /\
  at_ (flat (_vol_bnds self)) (2 * j) = lo /\
  (hi <= lo + inject_Z dim * voxel_size < hi + voxel_size)%Q.
Proof.
  intros H Hvs Hj lo hi dim Hsub Hdiv.
  assert (Hfl : Qceiling (binary64 (binary64 (hi - lo) / voxel_size))
                = Qceiling ((hi - lo) / voxel_size)).
  { apply Qceiling_comp. rewrite Hdiv. by rewrite Hsub. }
  rewrite Hfl. clear Hsub Hdiv Hfl. subst lo hi dim.
  destruct (init_inv _ _ _ _ _ H)
    as (_ & _ & (Hd1 & Hd2 & Hd3) & Ed & _ & _ & _ & Eo & Eb & _).
  rewrite Ed, Eb. cbn [flat].
  destruct j as [|[|[|j]]]; [| | |lia]; cbn [nth at_ Nat.mul Nat.add fst snd];
    unfold derive_vol_dim in *; cbn [fst snd] in *;
    [destruct (derive_dim_ceiling _ _ _ Hvs Hd1) as (E & ? & ?)
    |destruct (derive_dim_ceiling _ _ _ Hvs Hd2) as (E & ? & ?)
    |destruct (derive_dim_ceiling _ _ _ Hvs Hd3) as (E & ? & ?)];
    repeat split; try done.
Qed.

Lemma init_bounds_cover_witness :
  let lo := at_ (flat unit_bnds) (2 * 1) in
  let hi := at_ (flat unit_bnds) (2 * 1 + 1) in
  let dim := nth 1 [(_vol_dim cube_self).1.1; (_vol_dim cube_self).1.2;
                    (_vol_dim cube_self).2] 0 in
  dim = Qceiling ((hi - lo) / (1 # 4)) /\
  dim = Qceiling (binary64 (binary64 (hi - lo) / (1 # 4))) /\
  at_ (flat (_vol_bnds cube_self)) (2 * 1) = lo /\
  (hi <= lo + inject_Z dim * (1 # 4) < hi + (1 # 4))%Q.
Proof.
  apply (init_bounds_cover None unit_bnds (1 # 4) false cube_self 1).
  - vm_compute. reflexivity.
  - reflexivity.
  - lia.
  - vm_compute. reflexivity.
  - vm_compute. reflexivity.
Defined.

Lemma py_ceil_div_minimal a b q :
  py_ceil_div a b = Ok q -> 0 < b -> (q - 1) * b < a.
Proof.
  unfold py_ceil_div. destruct (Z.eqb_spec b 0); [done|].
  intros [= <-] Hb.
  pose proof (Qceiling_lt (inject_Z a / inject_Z b)) as Hc.
  assert (Hb' : (0 < inject_Z b)%Q) by (rewrite <-(Zlt_Qlt 0); lia).
  apply (Qmult_lt_compat_r _ _ (inject_Z b)) in Hc; [|lra].
  assert (E : (inject_Z a / inject_Z b * inject_Z b == inject_Z a)%Q)
    by (field; lra).
  rewrite E, <-inject_Z_mult in Hc. by rewrite Zlt_Qlt.
Qed.

Lemma gpu_dispatch_limits dev n gx gy gz loops :
  device_ok dev -> 0 <= n ->
  gpu_dispatch dev n = Ok (gx, gy, gz, loops) ->
  gx <= MAX_GRID_DIM_X dev /\ gy <= MAX_GRID_DIM_Y dev /\
  gz <= MAX_GRID_DIM_Z dev /\
  (loops - 1) * (gx * gy * gz * MAX_THREADS_PER_BLOCK dev) < n.
Proof.
  intros Hdev Hn H.
  destruct (gpu_dispatch_Ok _ _ _ _ _ _ Hdev Hn H) as (Hx & Hy & Hz & _).
  destruct Hdev as (HT & _).
  unfold gpu_dispatch in H.
  destruct (py_ceil_div n _) as [n_blocks|] eqn:E1; [|done].
  cbn [mbind result_bind] in H.
  set (x := Z.min _ (icbrt n_blocks)) in *.
  destruct (Z.eqb_spec x 0) as [|Hx0]; [done|].
  set (y := Z.min _ (Z.sqrt _)) in *.
  destruct (py_ceil_div n_blocks (x * y)) as [q|] eqn:E2; [|done].
  cbn [mbind result_bind] in H.
  set (z := Z.min _ q) in *.
  destruct (py_ceil_div n (x * y * z * _)) as [l|] eqn:E3; [|done].
  cbn [mbind result_bind] in H. injection H as <- <- <- <-.
  repeat split; try (unfold x, y, z; lia).
  apply (py_ceil_div_minimal _ _ _ E3).
  repeat apply Z.mul_pos_pos; done.
Qed.

(** X12.  The launch configuration of a grid built in GPU mode on a device
    with positive limits (lines 190-197): the grid has at least one
    voxel, a block has MAX_THREADS_PER_BLOCK threads, each grid dimension
    lies between 1 and the limit of the device, there is at least one
    launch per frame, the launches together have a thread for every
    voxel, and one launch less would not. *)
Theorem init_launch_config dev vol_bnds voxel_size self :
  device_ok dev ->
  __init__ (Some dev) vol_bnds voxel_size true = Ok self ->
  exists s, gpu self = Some s /\
    let n := prod3 (_vol_dim self) in
    let threads := launch_size (gpu_grid s) (gpu_block s) in
    0 < n /\
    x3 (gpu_block s) = MAX_THREADS_PER_BLOCK dev /\
    1 <= x3 (gpu_grid s) <= MAX_GRID_DIM_X dev /\
    1 <= y3 (gpu_grid s) <= MAX_GRID_DIM_Y dev /\
    1 <= z3 (gpu_grid s) <= MAX_GRID_DIM_Z dev /\
    1 <= _n_gpu_loops s /\
    (_n_gpu_loops s - 1) * threads < n <= _n_gpu_loops s * threads.
Proof.
  intros Hdev H.
  destruct (init_inv _ _ _ _ _ H)
    as (_ & _ & (Hd1 & Hd2 & Hd3) & Ed & _ & _ & _ & _ & _ & _ & Hg).
  cbn in Hg. destruct Hg as (gx & gy & gz & loops & Eg & Es & _).
  eexists. split; [exact Es|]. rewrite Ed. cbv zeta.
  set (d := derive_vol_dim vol_bnds voxel_size) in *.
  assert (HN : 0 <= prod3 d)
    by (unfold prod3; repeat apply Z.mul_nonneg_nonneg; done).
  destruct (gpu_dispatch_Ok _ _ _ _ _ _ Hdev HN Eg)
    as (Hx & Hy & Hz & Hl & Hcov).
  destruct (gpu_dispatch_limits _ _ _ _ _ _ Hdev HN Eg)
    as (Hx' & Hy' & Hz' & Hmin).
  pose proof (gpu_dispatch_nonempty _ _ _ Hdev HN Eg) as Hpos.
  unfold launch_size, gpu_grid, gpu_block. cbn.
  repeat split; try lia.
  destruct (Z.eq_dec loops 0) as [->|]; lia.
Qed.

Lemma init_launch_config_witness :
  exists s, gpu mean_self = Some s /\
    let n := prod3 (_vol_dim mean_self) in
    let threads := launch_size (gpu_grid s) (gpu_block s) in
    0 < n /\
    x3 (gpu_block s) = MAX_THREADS_PER_BLOCK demo_device /\
    1 <= x3 (gpu_grid s) <= MAX_GRID_DIM_X demo_device /\
    1 <= y3 (gpu_grid s) <= MAX_GRID_DIM_Y demo_device /\
    1 <= z3 (gpu_grid s) <= MAX_GRID_DIM_Z demo_device /\
    1 <= _n_gpu_loops s /\
    (_n_gpu_loops s - 1) * threads < n <= _n_gpu_loops s * threads.
Proof.
  apply (init_launch_config demo_device (one_voxel_bnds (1 # 100)) (2 # 100)
           mean_self).
  - vm_compute. auto.
  - vm_compute. reflexivity.
Defined.

Lemma bind_const_nil {A B} (l : list A) (f : A -> list B) :
  (forall x, f x = []) -> l ≫= f = [].
Proof.
  intros Hf. induction l as [|x l IH]; [done|].
  by rewrite bind_cons, Hf, IH.
Qed.

Lemma meshgrid_ij_empty d :
  0 <= d.1.1 -> 0 <= d.1.2 -> 0 <= d.2 -> prod3 d = 0 -> meshgrid_ij d = [].
Proof.
  destruct d as [[dx dy] dz]. unfold prod3, meshgrid_ij. cbn.
  intros H1 H2 H3 H0.
  assert (dx = 0 \/ dy = 0 \/ dz = 0) as [-> | [-> | ->]] by nia.
  - done.
  - by apply bind_const_nil.
  - apply bind_const_nil. intros x. by apply bind_const_nil.
Qed.

Lemma init_empty dev vol_bnds voxel_size use_gpu :
  device_ok dev ->
  nrows vol_bnds = 3 -> ncols vol_bnds = 2 ->
  let d := derive_vol_dim vol_bnds voxel_size in
  0 <= d.1.1 -> 0 <= d.1.2 -> 0 <= d.2 -> prod3 d = 0 ->
  __init__ (Some dev) vol_bnds voxel_size true = Raise ZeroDivisionError /\
  exists self, __init__ None vol_bnds voxel_size use_gpu = Ok self /\
    grid self = fresh_volume 0 /\ vox_coords self = [].
Proof.
  intros Hdev Hr Hc d H1 H2 H3 H0.
  assert (Hfull : forall A (v : A), np_full v d = Ok []).
  { intros A v. unfold np_full. destruct d as [[dx dy] dz]. cbn in *.
    destruct (Z.ltb_spec dx 0), (Z.ltb_spec dy 0), (Z.ltb_spec dz 0);
      try lia. cbn. unfold prod3 in H0. cbn in H0. by rewrite H0. }
  unfold __init__. rewrite Hr, Hc. cbn [Z.eqb Pos.eqb andb negb].
  fold d. rewrite !Hfull. cbn [mbind result_bind].
  split.
  - rewrite H0. destruct (gpu_dispatch dev 0) as [r|e] eqn:Eg.
    + pose proof (gpu_dispatch_nonempty dev 0 r Hdev (Z.le_refl 0) Eg). lia.
    + cbn. revert Eg. unfold gpu_dispatch, py_ceil_div.
      destruct Hdev as (HT & HX & _).
      destruct (Z.eqb_spec (MAX_THREADS_PER_BLOCK dev) 0); [lia|].
      cbn [mbind result_bind].
      assert (E : Qceiling (inject_Z 0 / inject_Z (MAX_THREADS_PER_BLOCK dev)) = 0).
      { assert (E0 : (inject_Z 0 / inject_Z (MAX_THREADS_PER_BLOCK dev) == 0)%Q).
        { unfold Qdiv. change (inject_Z 0) with 0%Q. ring. }
        by rewrite E0. }
      rewrite E. change (icbrt 0) with 0.
      rewrite Z.min_r by lia. cbn. by intros [= <-].
  - destruct use_gpu; cbn; eexists; (split; [reflexivity|]); cbn.
    all: split; [done|]; exact (meshgrid_ij_empty d H1 H2 H3 H0).
Qed.

(** X13.  Bounds that give a grid without voxels (a dimension 0) are refused
    in GPU mode (the block count is 0, so is the grid dimension of line
    193, and line 194 divides by it) and accepted in CPU mode, which
    builds empty arrays and an empty coordinate list. *)
Theorem init_empty_grid dev vol_bnds voxel_size use_gpu :
  device_ok dev ->
  nrows vol_bnds = 3 -> ncols vol_bnds = 2 ->
  let d := derive_vol_dim vol_bnds voxel_size in
  0 <= d.1.1 -> 0 <= d.1.2 -> 0 <= d.2 -> prod3 d = 0 ->
  raises (__init__ (Some dev) vol_bnds voxel_size true) /\
  exists self, __init__ None vol_bnds voxel_size use_gpu = Ok self /\
    _vol_dim self = d /\ grid self = fresh_volume 0 /\ vox_coords self = [].
Proof.
  intros Hdev Hr Hc d H1 H2 H3 H0.
  destruct (init_empty dev vol_bnds voxel_size use_gpu Hdev Hr Hc H1 H2 H3 H0)
    as [Hg (self & Hinit & Hgrid & Hvox)].
  split; [by rewrite Hg|]. exists self.
  destruct (init_inv _ _ _ _ _ Hinit) as (_ & _ & _ & Ed & _). done.
Qed.

Lemma init_empty_grid_witness :
  raises (__init__ (Some demo_device) flat_bnds (1 # 2) true) /\
  exists self, __init__ None flat_bnds (1 # 2) true = Ok self /\
    _vol_dim self = derive_vol_dim flat_bnds (1 # 2) /\
    grid self = fresh_volume 0 /\ vox_coords self = [].
Proof.
  apply (init_empty_grid demo_device flat_bnds (1 # 2) true).
  - vm_compute. auto.
  - reflexivity.
  - reflexivity.
  - vm_compute. congruence.
  - vm_compute. congruence.
  - vm_compute. congruence.
  - vm_compute. reflexivity.
Defined.

(** ** Completion and reset *)




Lemma roundf_comp x y : (x == y)%Q -> roundf x = roundf y.
Proof.
  intros H. unfold roundf.
  assert (Qle_bool 0 x = Qle_bool 0 y) as ->.
  { apply eq_true_iff_eq. rewrite !Qle_bool_iff. by rewrite H. }
  destruct (Qle_bool 0 y); f_equal;
    [apply Qfloor_comp|apply Qceiling_comp]; by rewrite H.
Qed.

Lemma roundf_inject (n : Z) : 0 <= n -> roundf (inject_Z n) = inject_Z n.
Proof.
  intros Hn. unfold roundf.
  destruct (Qle_bool 0 (inject_Z n)) eqn:E.
  - f_equal. apply Z.le_antisymm.
    + assert (Qfloor (inject_Z n + (1 # 2)) < n + 1); [|lia].
      rewrite Zlt_Qlt.
      eapply Qle_lt_trans; [apply Qfloor_le|].
      rewrite inject_Z_plus. change (inject_Z 1) with 1%Q. lra.
    + rewrite <-(Qfloor_Z n) at 1. apply Qfloor_resp_le. lra.
  - apply not_true_iff_false in E. rewrite Qle_bool_iff in E.
    pose proof (inject_Z_nonneg n Hn). lra.
Qed.

Lemma blend_channel_first (n : Z) (old new obs w_new : Q) :
  0 <= n <= 255 -> (new == inject_Z n)%Q -> (0 < obs)%Q ->
  (w_new == 0 + obs)%Q ->
  blend_channel old new 0 obs w_new = inject_Z n.
Proof.
  intros Hn En Hobs Ew. unfold blend_channel.
  rewrite (roundf_comp _ (inject_Z n)), roundf_inject by (try lia; rewrite Ew, En; field; lra).
  destruct (Qminf_spec (inject_Z n) 255) as [[_ ->]|[Hlt _]]; [done|].
  change 255%Q with (inject_Z 255) in Hlt. rewrite <-Zlt_Qlt in Hlt. lia.
Qed.

Lemma blend_color_first old_color new_color obs w_new :
  packed new_color -> (0 < obs)%Q -> (w_new == 0 + obs)%Q ->
  (blend_color old_color new_color 0 obs w_new == new_color)%Q.
Proof.
  intros (r & g & b & Hr & Hg & Hb & Hc) Hobs Ew.
  pose proof (unpack_color_packed _ _ _ _ Hr Hg Hb Hc) as (E1 & E2 & E3).
  unfold blend_color.
  destruct (unpack_color old_color) as [[old_r old_g] old_b].
  destruct (unpack_color new_color) as [[new_r new_g] new_b].
  cbn [fst snd] in *.
  rewrite (blend_channel_first b), (blend_channel_first g),
    (blend_channel_first r) by done.
  rewrite Hc, !inject_Z_plus, !inject_Z_mult. ring.
Qed.

Lemma reset_visible_cell self s u c :
  gpu self = Some s -> wf_volume (device s) ->
  length (weight_vol (host self)) = length (tsdf_vol (device s)) ->
  length (mask_vol (host self)) = length (tsdf_vol (device s)) ->
  cell (grid self) u = Some c ->
  exists s', gpu (reset_visible self) = Some s' /\
    wf_volume (device s') /\
    _max_gpu_threads_per_block s' = _max_gpu_threads_per_block s /\
    _max_gpu_grid_dim s' = _max_gpu_grid_dim s /\
    _n_gpu_loops s' = _n_gpu_loops s /\
    cell (grid (reset_visible self)) u
    = Some (mk_Voxel (tsdf c) (occl c) 0 (color c) 0).
Proof.
  intros Hs (Ho & Hw & Hc & Hm) Hlw Hlm Hcell.
  unfold reset_visible, grid in *. cbn. rewrite Hs in *. cbn.
  eexists. split; [done|]. cbn.
  split.
  { unfold wf_volume, fill_zero. cbn. rewrite !length_fmap. done. }
  repeat split; try done.
  unfold cell in *. cbn.
  destruct (ix (tsdf_vol (device s)) u) as [t|] eqn:Et; [|done].
  destruct (ix (occl_vol (device s)) u) as [o|] eqn:Eo; [|done].
  destruct (ix (weight_vol (device s)) u) as [w|] eqn:Ew; [|done].
  destruct (ix (color_vol (device s)) u) as [k|] eqn:Ek; [|done].
  destruct (ix (mask_vol (device s)) u) as [m|] eqn:Em; [|done].
  cbn in Hcell |- *. injection Hcell as <-. cbn.
  apply ix_Some_range in Et.
  assert (Ew0 : ix (fill_zero 0%Q (weight_vol (host self))) u = Some 0%Q).
  { unfold ix, fill_zero in *. destruct (Z.ltb_spec u 0); [lia|].
    rewrite list_lookup_fmap.
    destruct (lookup_lt_is_Some_2 (weight_vol (host self)) (Z.to_nat u))
      as [x ->]; [lia|done]. }
  assert (Em0 : ix (fill_zero 0 (mask_vol (host self))) u = Some 0).
  { unfold ix, fill_zero in *. destruct (Z.ltb_spec u 0); [lia|].
    rewrite list_lookup_fmap.
    destruct (lookup_lt_is_Some_2 (mask_vol (host self)) (Z.to_nat u))
      as [x ->]; [lia|done]. }
  rewrite Ew0. cbn -[ix fill_zero]. unfold fill_zero in Em0.
  rewrite Em0. done.
Qed.

(** X15.  After [reset_visible] the first observation of a voxel, by a
    frame of positive [obs_weight], overwrites what the voxel held (GPU
    mode, a grid of at most 2^24 voxels, so that the 32-bit product of
    line 114 and the binary32 casts of lines 117-119 are exact): tsdf
    becomes the truncated distance of the frame, weight its
    [obs_weight], mask the mask pixel, and the colour the packed colour
    of the pixel; the occlusion value, which the reset keeps, is still
    maximised. *)
Theorem gpu_first_observation_after_reset self s fr self' u c p d :
  gpu self = Some s -> wf_volume (device s) -> launch_covers self s ->
  prod3 (_vol_dim self) <= 2 ^ 24 ->
  length (weight_vol (host self)) = length (tsdf_vol (device s)) ->
  length (mask_vol (host self)) = length (tsdf_vol (device s)) ->
  (0 < Frame.obs_weight fr)%Q -> (0 < _trunc_margin self)%Q ->
  integrate (reset_visible self) fr = Returned self' ->
  0 <= u < prod3 (_vol_dim self) ->
  cell (grid self) u = Some c ->
  observe (kernel_args self fr 0) u = Some (p, d) ->
  (- _trunc_margin self <= d)%Q ->
  exists c', cell (grid self') u = Some c' /\
    (tsdf c' == Qminf 1 (d / _trunc_margin self))%Q /\
    (weight c' == Frame.obs_weight fr)%Q /\
    occl c' = Qmaxf (occl c) d /\
    mask c' = default 0 (ix (astype_uint32 <$> flat (Frame.mask_im fr)) p) /\
    (forall nc, rgb_sample (kernel_args self fr 0) u = Some nc ->
                packed nc -> (color c' == nc)%Q).
Proof.
  intros Hs Hwf Hcov H24 Hlw Hlm Hobs Htm Hint Hu Hc Hob Hd.
  destruct (reset_visible_cell self s u c Hs Hwf Hlw Hlm Hc)
    as (s' & Hs' & Hwf' & ET & EG & EL & Hc').
  assert (Hcov' : launch_covers (reset_visible self) s').
  { unfold launch_covers in *. rewrite ET, EG, EL.
    replace (_vol_dim (reset_visible self)) with (_vol_dim self); [done|].
    unfold reset_visible. cbn. by destruct (gpu self). }
  assert (Eargs : kernel_args (reset_visible self) fr 0 = kernel_args self fr 0).
  { unfold reset_visible, kernel_args. cbn. by destruct (gpu self). }
  assert (Hu' : 0 <= u < prod3 (_vol_dim (reset_visible self))).
  { replace (_vol_dim (reset_visible self)) with (_vol_dim self); [done|].
    unfold reset_visible. cbn. by destruct (gpu self). }
  assert (H31 : prod3 (_vol_dim (reset_visible self)) < 2 ^ 31).
  { replace (_vol_dim (reset_visible self)) with (_vol_dim self); [lia|].
    unfold reset_visible. cbn. by destruct (gpu self). }
  pose proof (integrate_gpu_cell _ _ _ _ u Hs' Hwf' Hcov' Hint Hu' H31)
    as Hcell.
  rewrite Hc', Eargs in Hcell. cbn [fmap option_fmap option_map] in Hcell.
  eexists. split; [exact Hcell|].
  unfold voxel_step. rewrite Hob.
  cbn [kernel_args trunc_margin obs_weight mask_im tsdf occl weight color mask].
  apply Qltb_false in Hd. rewrite Hd.
  set (dist := Qminf 1 _).
  destruct (rgb_sample (kernel_args self fr 0) u) as [nc|] eqn:Hrgb;
    cbn [tsdf occl weight color mask];
    (split; [field; lra|]); (split; [ring|]); (split; [done|]);
    (split; [by rewrite Z.lor_0_l|]); [|done].
  intros nc' [= <-] Hp. by apply blend_color_first.
Qed.

Lemma gpu_first_observation_after_reset_witness :
  let fr := one_pixel_frame I3 (5 # 100) I4 3 in
  let self' :=
    default no_volume (integrate_all (reset_visible mean_first) [fr]) in
  let c := default (mk_Voxel 0 0 0 0 0) (cell (grid mean_first) 0) in
  let pd := default (0, 0%Q) (observe (kernel_args mean_first fr 0) 0) in
  exists c',
    cell (grid self') 0 = Some c' /\
    (tsdf c' == Qminf 1 (pd.2 / _trunc_margin mean_first))%Q /\
    (weight c' == Frame.obs_weight fr)%Q /\
    occl c' = Qmaxf (occl c) pd.2 /\
    mask c' = default 0 (ix (astype_uint32 <$> flat (Frame.mask_im fr)) pd.1) /\
    (forall nc,
       rgb_sample (kernel_args mean_first fr 0) 0 = Some nc ->
       packed nc -> (color c' == nc)%Q).
Proof.
  intros fr self' c pd.
  eapply (gpu_first_observation_after_reset mean_first _ fr self' 0 c
            pd.1 pd.2).
  - vm_compute. reflexivity.
  - vm_compute. auto.
  - vm_compute. repeat split; congruence.
  - vm_compute. congruence.
  - vm_compute. reflexivity.
  - vm_compute. reflexivity.
  - reflexivity.
  - vm_compute. reflexivity.
  - vm_compute. reflexivity.
  - vm_compute. split; congruence.
  - vm_compute. reflexivity.
  - vm_compute. reflexivity.
  - vm_compute. congruence.
Defined.

(** ** Poses *)

Lemma affine_inv pose :
  affine pose ->
  exists a00 a01 a02 a03 a10 a11 a12 a13 a20 a21 a22 a23 b0 b1 b2 b3,
    pose = [a00; a01; a02; a03; a10; a11; a12; a13; a20; a21; a22; a23;
            b0; b1; b2; b3] /\
    (b0 == 0 /\ b1 == 0 /\ b2 == 0 /\ b3 == 1)%Q.
Proof.
  intros [Hlen Hb].
  do 16 (destruct pose as [|? pose]; [done|]).
  destruct pose; [|done].
  do 16 eexists. split; [reflexivity|]. exact Hb.
Qed.

Lemma linalg_inv_left a00 a01 a02 a03 a10 a11 a12 a13 a20 a21 a22 a23
    b0 b1 b2 b3 inv (p : Q * Q * Q) :
  (b0 == 0 /\ b1 == 0 /\ b2 == 0 /\ b3 == 1)%Q ->
  linalg_inv [a00; a01; a02; a03; a10; a11; a12; a13; a20; a21; a22; a23;
              b0; b1; b2; b3] = Ok inv ->
  Forall2 triple_eq
    (rigid_transform
       (rigid_transform [p]
          [a00; a01; a02; a03; a10; a11; a12; a13; a20; a21; a22; a23;
           b0; b1; b2; b3]) inv) [p].
Proof.
  intros (E0 & E1 & E2 & E3). unfold linalg_inv.
  set (d := det 4 _).
  destruct (Qeq_bool d 0) eqn:Ed; [done|]. intros [= <-].
  apply Qeq_bool_neq in Ed.
  destruct p as [[x y] z].
  constructor; [|constructor].
  unfold triple_eq. cbn -[d Qmult Qplus Qdiv Qopp Qeq].
  assert (Hd : (d == a00 * (a11 * a22 - a12 * a21) - a01 * (a10 * a22 - a12 * a20)
                + a02 * (a10 * a21 - a11 * a20))%Q).
  { unfold d. cbn -[Qmult Qplus Qopp Qeq]. rewrite E0, E1, E2, E3. ring. }
  rewrite Hd in Ed. rewrite Hd, E0, E1, E2, E3. clear Hd d.
  split; [|split]; field; exact Ed.
Qed.

Lemma linalg_inv_right a00 a01 a02 a03 a10 a11 a12 a13 a20 a21 a22 a23
    b0 b1 b2 b3 inv (p : Q * Q * Q) :
  (b0 == 0 /\ b1 == 0 /\ b2 == 0 /\ b3 == 1)%Q ->
  linalg_inv [a00; a01; a02; a03; a10; a11; a12; a13; a20; a21; a22; a23;
              b0; b1; b2; b3] = Ok inv ->
  Forall2 triple_eq
    (rigid_transform
       (rigid_transform [p] inv)
       [a00; a01; a02; a03; a10; a11; a12; a13; a20; a21; a22; a23;
        b0; b1; b2; b3]) [p].
Proof.
  intros (E0 & E1 & E2 & E3). unfold linalg_inv.
  set (d := det 4 _).
  destruct (Qeq_bool d 0) eqn:Ed; [done|]. intros [= <-].
  apply Qeq_bool_neq in Ed.
  destruct p as [[x y] z].
  constructor; [|constructor].
  unfold triple_eq. cbn -[d Qmult Qplus Qdiv Qopp Qeq].
  assert (Hd : (d == a00 * (a11 * a22 - a12 * a21) - a01 * (a10 * a22 - a12 * a20)
                + a02 * (a10 * a21 - a11 * a20))%Q).
  { unfold d. cbn -[Qmult Qplus Qopp Qeq]. rewrite E0, E1, E2, E3. ring. }
  rewrite Hd in Ed. rewrite Hd, E0, E1, E2, E3. clear Hd d.
  split; [|split]; field; exact Ed.
Qed.

Lemma rigid_transform_inverse_one pose inv pts :
  affine pose -> linalg_inv pose = Ok inv ->
  Forall2 triple_eq (rigid_transform (rigid_transform pts pose) inv) pts.
Proof.
  intros Ha Hinv.
  destruct (affine_inv pose Ha)
    as (a00 & a01 & a02 & a03 & a10 & a11 & a12 & a13 & a20 & a21 & a22 & a23
        & b0 & b1 & b2 & b3 & -> & Hb).
  induction pts as [|p pts IH]; [constructor|].
  pose proof (linalg_inv_left _ _ _ _ _ _ _ _ _ _ _ _ _ _ _ _ inv p Hb Hinv) as H.
  apply Forall2_cons_1 in H as [H _].
  by constructor.
Qed.

Lemma rigid_transform_right_one pose inv pts :
  affine pose -> linalg_inv pose = Ok inv ->
  Forall2 triple_eq (rigid_transform (rigid_transform pts inv) pose) pts.
Proof.
  intros Ha Hinv.
  destruct (affine_inv pose Ha)
    as (a00 & a01 & a02 & a03 & a10 & a11 & a12 & a13 & a20 & a21 & a22 & a23
        & b0 & b1 & b2 & b3 & -> & Hb).
  induction pts as [|p pts IH]; [constructor|].
  pose proof (linalg_inv_right _ _ _ _ _ _ _ _ _ _ _ _ _ _ _ _ inv p Hb Hinv) as H.
  apply Forall2_cons_1 in H as [H _].
  by constructor.
Qed.

(** X16.  [rigid_transform] by a matrix whose last row is (0, 0, 0, 1) and
    [rigid_transform] by its [np.linalg.inv] undo each other, in both
    orders (lines 484-489 and 308). *)
Theorem rigid_transform_inverse pose inv pts :
  affine pose -> linalg_inv pose = Ok inv ->
  Forall2 triple_eq (rigid_transform (rigid_transform pts pose) inv) pts /\
  Forall2 triple_eq (rigid_transform (rigid_transform pts inv) pose) pts.
Proof.
  intros Ha Hinv. split;
    [by apply rigid_transform_inverse_one|by apply rigid_transform_right_one].
Qed.

Lemma rigid_transform_inverse_witness :
  let inv := match linalg_inv turned_pose with Ok m => m | Raise _ => [] end in
  Forall2 triple_eq
    (rigid_transform (rigid_transform [(1, 2, 3)%Q] turned_pose) inv)
    [(1, 2, 3)%Q] /\
  Forall2 triple_eq
    (rigid_transform (rigid_transform [(1, 2, 3)%Q] inv) turned_pose)
    [(1, 2, 3)%Q].
Proof.
  apply (rigid_transform_inverse turned_pose).
  - split; [reflexivity|]. repeat split; reflexivity.
  - vm_compute. reflexivity.
Defined.

Lemma camera_point_proper pose p p' :
  triple_eq p p' -> triple_eq (camera_point pose p) (camera_point pose p').
Proof.
  destruct p as [[x y] z], p' as [[x' y'] z']. intros (E1 & E2 & E3).
  cbn in *. unfold triple_eq, camera_point. cbn [fst snd].
  rewrite E1, E2, E3. done.
Qed.

(** The pose followed by the kernel's world-to-camera map gives the point
    back when the columns of the rotation are orthonormal. *)
Lemma camera_point_after_pose pose p :
  length pose = 16%nat -> orthonormal pose ->
  Forall2 triple_eq (camera_point pose <$> rigid_transform [p] pose) [p].
Proof.
  intros Hlen Ho.
  do 16 (destruct pose as [|? pose]; [done|]). destruct pose; [|done].
  destruct p as [[x y] z].
  unfold orthonormal in Ho. cbn [at_ nth Nat.mul Nat.add] in Ho.
  destruct Ho as (H00 & H11 & H22 & H01 & H02 & H12).
  constructor; [|constructor].
  unfold triple_eq, camera_point. cbn [rigid_transform fmap list_fmap fst snd
    at_ nth Nat.mul Nat.add].
  split; [|split].
  - transitivity ((q * q + q3 * q3 + q7 * q7) * x
                  + (q * q0 + q3 * q4 + q7 * q8) * y
                  + (q * q1 + q3 * q5 + q7 * q9) * z)%Q; [ring|].
    rewrite H00, H01, H02. ring.
  - transitivity ((q * q0 + q3 * q4 + q7 * q8) * x
                  + (q0 * q0 + q4 * q4 + q8 * q8) * y
                  + (q0 * q1 + q4 * q5 + q8 * q9) * z)%Q; [ring|].
    rewrite H11, H01, H12. ring.
  - transitivity ((q * q1 + q3 * q5 + q7 * q9) * x
                  + (q0 * q1 + q4 * q5 + q8 * q9) * y
                  + (q1 * q1 + q5 * q5 + q9 * q9) * z)%Q; [ring|].
    rewrite H22, H02, H12. ring.
Qed.

Lemma orthonormal_det pose :
  affine pose -> orthonormal pose ->
  (det 4 (reshape4 pose) * det 4 (reshape4 pose) == 1)%Q.
Proof.
  intros Ha Ho.
  destruct (affine_inv pose Ha)
    as (a00 & a01 & a02 & a03 & a10 & a11 & a12 & a13 & a20 & a21 & a22 & a23
        & b0 & b1 & b2 & b3 & -> & (E0 & E1 & E2 & E3)).
  unfold orthonormal in Ho. cbn [at_ nth Nat.mul Nat.add] in Ho.
  destruct Ho as (H00 & H11 & H22 & H01 & H02 & H12).
  set (g00 := (a00 * a00 + a10 * a10 + a20 * a20)%Q) in *.
  set (g11 := (a01 * a01 + a11 * a11 + a21 * a21)%Q) in *.
  set (g22 := (a02 * a02 + a12 * a12 + a22 * a22)%Q) in *.
  set (g01 := (a00 * a01 + a10 * a11 + a20 * a21)%Q) in *.
  set (g02 := (a00 * a02 + a10 * a12 + a20 * a22)%Q) in *.
  set (g12 := (a01 * a02 + a11 * a12 + a21 * a22)%Q) in *.
  transitivity (g00 * (g11 * g22 - g12 * g12) - g01 * (g01 * g22 - g12 * g02)
                + g02 * (g01 * g12 - g11 * g02))%Q.
  - cbn -[Qmult Qplus Qopp Qeq g00 g11 g22 g01 g02 g12].
    rewrite E0, E1, E2, E3. unfold g00, g11, g22, g01, g02, g12. ring.
  - rewrite H00, H11, H22, H01, H02, H12. ring.
Qed.

(** X17.  For a pose with last row (0, 0, 0, 1) whose rotation has
    orthonormal columns, [np.linalg.inv] succeeds and the camera
    coordinates of the CPU path (line 308: [rigid_transform] by the
    inverse pose) are those of the kernel (lines 126-131: the transposed
    rotation applied to the point minus the translation). *)
Theorem cpu_gpu_same_camera_point pose pts :
  affine pose -> orthonormal pose ->
  exists inv, linalg_inv pose = Ok inv /\
    Forall2 triple_eq (rigid_transform pts inv) (camera_point pose <$> pts).
Proof.
  intros Ha Ho.
  pose proof (orthonormal_det pose Ha Ho) as Hdet.
  destruct (linalg_inv pose) as [inv|e] eqn:Hinv.
  2:{ exfalso. unfold linalg_inv in Hinv.
      destruct (Qeq_bool _ 0) eqn:Ed; [|done].
      apply Qeq_bool_iff in Ed. rewrite Ed in Hdet. lra. }
  exists inv. split; [done|].
  induction pts as [|pt pts IH]; [constructor|].
  assert (H1 : Forall2 triple_eq (rigid_transform [pt] inv)
                 [camera_point pose pt]).
  { pose proof (rigid_transform_right_one pose inv [pt] Ha Hinv) as Hr.
    destruct (rigid_transform [pt] inv) as [|q [|]] eqn:Eq; try done.
    apply Forall2_cons_1 in Hr as [Hr _].
    pose proof (camera_point_after_pose pose q (proj1 Ha) Ho) as Hc.
    unfold rigid_transform in Hr. cbn [fmap list_fmap] in Hr.
    unfold rigid_transform in Hc. cbn [fmap list_fmap] in Hc.
    apply Forall2_cons_1 in Hc as [Hc _].
    apply (camera_point_proper pose) in Hr.
    constructor; [|constructor].
    destruct Hr as (? & ? & ?), Hc as (? & ? & ?).
    repeat split; etransitivity; try eassumption; symmetry; eassumption. }
  apply Forall2_cons_1 in H1 as [H1 _].
  rewrite fmap_cons. by constructor.
Qed.

Lemma cpu_gpu_same_camera_point_witness :
  exists inv, linalg_inv turned_pose = Ok inv /\
    Forall2 triple_eq (rigid_transform [(1, 2, 3)%Q] inv)
      (camera_point turned_pose <$> [(1, 2, 3)%Q]).
Proof.
  apply (cpu_gpu_same_camera_point turned_pose [(1, 2, 3)%Q]).
  - split; [reflexivity|]. repeat split; reflexivity.
  - repeat split; reflexivity.
Defined.

(** ** Indices *)

(** X18.  The threads of one launch compute pairwise different voxel indices
    (lines 107-110): as many as the launch has threads, and exactly the
    integers from loop * threads up to (loop + 1) * threads - 1, as long
    as these stay below 2^31. *)
Theorem launch_threads_distinct gd bd a :
  0 <= x3 gd -> 0 <= y3 gd -> 0 <= z3 gd -> 0 <= x3 bd ->
  0 <= gpu_loop_idx a ->
  (gpu_loop_idx a + 1) * launch_size gd bd <= 2 ^ 31 ->
  NoDup (thread_idx gd bd a <$> launch_threads gd bd) /\
  Z.of_nat (length (launch_threads gd bd)) = launch_size gd bd /\
  forall v, v ∈ thread_idx gd bd a <$> launch_threads gd bd <->
            gpu_loop_idx a * launch_size gd bd <= v
            < (gpu_loop_idx a + 1) * launch_size gd bd.
Proof.
  intros Hx Hy Hz HT Hl Hb.
  pose proof (launch_thread_indices gd bd a Hx Hy Hz HT Hl Hb) as E.
  assert (0 <= launch_size gd bd)
    by (unfold launch_size; repeat apply Z.mul_nonneg_nonneg; done).
  split; [rewrite E; apply NoDup_seqZ|].
  split.
  - rewrite <-(length_fmap (thread_idx gd bd a)), E, length_seqZ. lia.
  - intros v. rewrite E, elem_of_seqZ. lia.
Qed.

Lemma launch_threads_distinct_witness :
  let gd := mk_dim3 1 1 1 in
  let bd := mk_dim3 1024 1 1 in
  let a := kernel_args far_self unit_frame 0 in
  NoDup (thread_idx gd bd a <$> launch_threads gd bd) /\
  Z.of_nat (length (launch_threads gd bd)) = launch_size gd bd /\
  forall v, v ∈ thread_idx gd bd a <$> launch_threads gd bd <->
            gpu_loop_idx a * launch_size gd bd <= v
            < (gpu_loop_idx a + 1) * launch_size gd bd.
Proof.
  apply (launch_threads_distinct (mk_dim3 1 1 1) (mk_dim3 1024 1 1)
           (kernel_args far_self unit_frame 0)); vm_compute; congruence.
Defined.

Lemma Qtrunc_inject (n : Z) : Qtrunc (inject_Z n) = n.
Proof.
  unfold Qtrunc. destruct (Qle_bool 0 (inject_Z n));
    [apply Qfloor_Z|apply Qceiling_Z].
Qed.

Lemma voxel_coords_div d idx :
  let x := idx `div` (d.1.2 * d.2) in
  let y := (idx - x * d.1.2 * d.2) `div` d.2 in
  let z := idx - x * d.1.2 * d.2 - y * d.2 in
  voxel_coords d idx = (inject_Z x, inject_Z y, inject_Z z).
Proof.
  destruct d as [[dx dy] dz]. cbn [fst snd]. unfold voxel_coords, floorf.
  rewrite Qfloor_div_inject, Qtrunc_inject, Qfloor_div_inject, Qtrunc_inject.
  done.
Qed.

(** ** The binary32 index arithmetic of the kernel *)

Lemma Qpow2_inject (n : Z) : 0 <= n -> (2 ^ n == inject_Z (2 ^ n))%Q.
Proof. intros Hn. by rewrite Zpower_Qpower. Qed.

Lemma Qpow2_pos (e : Z) : (0 < 2 ^ e)%Q.
Proof. by apply Qpower_0_lt. Qed.

Lemma Qpow2_succ (e : Z) : (2 ^ (e + 1) == 2 * 2 ^ e)%Q.
Proof. rewrite Qpower_plus by done. rewrite Qpower_1_r. ring. Qed.

Lemma Qdiv_lt_cross (a b c d : Q) :
  (0 < b)%Q -> (0 < d)%Q -> (a * d < c * b)%Q -> (a / b < c / d)%Q.
Proof.
  intros Hb Hd H. apply Qlt_shift_div_l; [done|].
  assert (E : (a / b * d == a * d / b)%Q) by (field; lra).
  rewrite E. apply Qlt_shift_div_r; done.
Qed.

Lemma Qdiv_le_cross (a b c d : Q) :
  (0 < b)%Q -> (0 < d)%Q -> (a * d <= c * b)%Q -> (a / b <= c / d)%Q.
Proof.
  intros Hb Hd H. apply Qle_shift_div_l; [done|].
  assert (E : (a / b * d == a * d / b)%Q) by (field; lra).
  rewrite E. apply Qle_shift_div_r; done.
Qed.

Lemma Qlog2_spec (x : Q) :
  (0 < x)%Q -> (2 ^ Qlog2 x <= x < 2 ^ (Qlog2 x + 1))%Q.
Proof.
  intros Hx. destruct x as [n d].
  assert (Hn : 0 < n).
  { unfold Qlt in Hx. cbn in Hx. lia. }
  unfold Qlog2. cbn [Qnum Qden].
  pose proof (Z.log2_spec n Hn) as [Hn1 Hn2].
  pose proof (Z.log2_spec (Z.pos d) (Pos2Z.is_pos d)) as [Hd1 Hd2].
  pose proof (Z.log2_nonneg n) as Hln.
  pose proof (Z.log2_nonneg (Z.pos d)) as Hld.
  set (ln := Z.log2 n) in *. set (ld := Z.log2 (Z.pos d)) in *.
  assert (Ex : (n # d == inject_Z n / inject_Z (Z.pos d))%Q).
  { rewrite (Qmake_Qdiv n d). reflexivity. }
  assert (Ee : (2 ^ (ln - ld) == inject_Z (2 ^ ln) / inject_Z (2 ^ ld))%Q).
  { rewrite Qpower_minus by done. by rewrite !Qpow2_inject. }
  rewrite <-Z.add_1_r in Hn2, Hd2.
  rewrite Z.pow_add_r in Hn2, Hd2 by lia. change (2 ^ 1) with 2 in *.
  assert (HA : 0 < 2 ^ ln) by (apply Z.pow_pos_nonneg; lia).
  assert (HB : 0 < 2 ^ ld) by (apply Z.pow_pos_nonneg; lia).
  set (A := 2 ^ ln) in *. set (B := 2 ^ ld) in *.
  assert (HAq : (0 < inject_Z A)%Q) by (rewrite <-(Zlt_Qlt 0); done).
  assert (HBq : (0 < inject_Z B)%Q) by (rewrite <-(Zlt_Qlt 0); done).
  assert (HDq : (0 < inject_Z (Z.pos d))%Q) by (rewrite <-(Zlt_Qlt 0); done).
  destruct (Qle_bool (2 ^ (ln - ld)) (n # d)) eqn:E.
  - apply Qle_bool_iff in E. split; [done|].
    rewrite Qpow2_succ, Ee, Ex.
    assert (E2 : (2 * (inject_Z A / inject_Z B)
                  == inject_Z (2 * A) / inject_Z B)%Q).
    { rewrite inject_Z_mult. change (inject_Z 2) with 2%Q. field. lra. }
    rewrite E2. apply Qdiv_lt_cross; try done.
    rewrite <-!inject_Z_mult, <-Zlt_Qlt. nia.
  - assert (Hlt : (n # d < 2 ^ (ln - ld))%Q).
    { apply Qnot_le_lt. intros H. apply Qle_bool_iff in H. congruence. }
    replace (ln - ld - 1 + 1) with (ln - ld) by lia. split; [|done].
    assert (E1 : (2 ^ (ln - ld - 1) == inject_Z A / inject_Z (2 * B))%Q).
    { assert (E3 : (2 ^ (ln - ld) == 2 * 2 ^ (ln - ld - 1))%Q).
      { rewrite <-Qpow2_succ. by replace (ln - ld - 1 + 1) with (ln - ld) by lia. }
      rewrite Ee in E3. rewrite inject_Z_mult. change (inject_Z 2) with 2%Q.
      apply (Qmult_inj_l _ _ 2); [done|]. rewrite <-E3. field. lra. }
    rewrite E1, Ex. apply Qdiv_le_cross; try done.
    { rewrite <-(Zlt_Qlt 0). lia. }
    rewrite <-!inject_Z_mult, <-Zle_Qle. nia.
Qed.

Lemma Qdiv_le_cross_inv (a b c d : Q) :
  (0 < b)%Q -> (0 < d)%Q -> (a / b <= c / d)%Q -> (a * d <= c * b)%Q.
Proof.
  intros Hb Hd H.
  apply (Qmult_le_compat_r _ _ (b * d)) in H; [|nra].
  assert (E1 : (a / b * (b * d) == a * d)%Q) by (field; lra).
  assert (E2 : (c / d * (b * d) == c * b)%Q) by (field; lra).
  by rewrite E1, E2 in H.
Qed.

Lemma np_round_bounds (y : Q) (lo hi : Z) :
  (inject_Z lo <= y)%Q -> (y < inject_Z hi - (1 # 2))%Q ->
  exists m, np_round y = inject_Z m /\ lo <= m <= hi - 1.
Proof.
  intros Hlo Hhi. unfold np_round.
  pose proof (Qfloor_le y) as Hf1.
  assert (H1 : lo <= Qfloor y).
  { rewrite <-(Qfloor_Z lo). by apply Qfloor_resp_le. }
  set (f := Qfloor y) in *.
  assert (H2 : f <= hi - 1).
  { assert (f < hi); [|lia]. rewrite Zlt_Qlt. lra. }
  destruct (Qltb (y - inject_Z f) (1 # 2)) eqn:E1; [by exists f|].
  apply Qltb_false in E1.
  assert (H3 : f + 1 <= hi - 1).
  { assert (f < hi - 1); [|lia]. rewrite Zlt_Qlt.
    unfold Z.sub. rewrite inject_Z_plus, inject_Z_opp.
    change (inject_Z 1) with 1%Q. lra. }
  destruct (Qltb (1 # 2) _); [exists (f + 1); split; [done|lia]|].
  destruct (Z.even f); [exists f|exists (f + 1)]; (split; [done|lia]).
Qed.

Lemma np_round_inject (y : Q) (m : Z) :
  (y == inject_Z m)%Q -> np_round y = inject_Z m.
Proof.
  intros E. unfold np_round.
  rewrite (Qfloor_comp _ _ E), Qfloor_Z.
  replace (Qltb (y - inject_Z m) (1 # 2)) with true; [done|].
  symmetry. apply Qltb_true. rewrite E. lra.
Qed.

(** The floor of a binary32 quotient of two integers is their integer
    quotient as long as the dividend is at most 2^24. *)
Lemma floor_binary32_quotient (a b : Z) :
  0 <= a <= 2 ^ 24 -> 0 < b ->
  Qfloor (binary32 (inject_Z a / inject_Z b)) = a `div` b.
Proof.
  intros [Ha0 Ha] Hb.
  assert (Hbq : (0 < inject_Z b)%Q) by (by rewrite <-(Zlt_Qlt 0)).
  destruct (Z.eq_dec a 0) as [->|Hne].
  { unfold binary32.
    replace (Qeq_bool (inject_Z 0 / inject_Z b) 0) with true; [done|].
    symmetry. apply Qeq_bool_iff. unfold Qdiv. ring. }
  assert (Haq : (0 < inject_Z a)%Q) by (rewrite <-(Zlt_Qlt 0); lia).
  set (x := (inject_Z a / inject_Z b)%Q).
  assert (Hx : (0 < x)%Q).
  { unfold x. apply Qlt_shift_div_l; [done|]. lra. }
  unfold binary32.
  destruct (Qeq_bool x 0) eqn:E0.
  { apply Qeq_bool_iff in E0. lra. }
  assert (Eabs : (Qabs x == x)%Q) by (apply Qabs_pos; lra).
  destruct (Qlog2_spec (Qabs x)) as [He1 He2]; [by rewrite Eabs|].
  set (e := Qlog2 (Qabs x)) in *. rewrite Eabs in He1, He2.
  set (n := a `div` b).
  assert (Hn1 : n * b <= a) by (unfold n; rewrite Z.mul_comm; apply Z.mul_div_le; lia).
  assert (Hn2 : a <= (n + 1) * b - 1).
  { pose proof (Z.mul_succ_div_gt a b Hb). unfold n. lia. }
  assert (Hn0 : 0 <= n) by (apply Z.div_pos; lia).
  destruct (Z.le_gt_cases 24 e) as [He|He].
  { (* x = 2^24 *)
    assert (H24 : (2 ^ 24 <= x)%Q).
    { eapply Qle_trans; [|exact He1]. by apply Qpower_le_compat_l. }
    assert (Hab : 2 ^ 24 * b <= a).
    { unfold x in H24.
      assert (H' : (inject_Z (2 ^ 24) / 1 <= inject_Z a / inject_Z b)%Q).
      { assert (E24 : (inject_Z (2 ^ 24) / 1 == 2 ^ 24)%Q) by reflexivity.
        by rewrite E24. }
      apply Qdiv_le_cross_inv in H'; [|lra|done].
      rewrite Qmult_1_r, <-inject_Z_mult, <-Zle_Qle in H'. lia. }
    assert (b = 1) by nia. assert (a = 2 ^ 24) by lia.
    subst a b. subst x e n. vm_compute. reflexivity. }
  set (k := 23 - e). assert (Hk : 0 <= k) by lia.
  set (K := 2 ^ k). assert (HK : 0 < K) by (apply Z.pow_pos_nonneg; lia).
  assert (HKq : (0 < inject_Z K)%Q) by (by rewrite <-(Zlt_Qlt 0)).
  assert (Eu : (2 ^ (e - 23) == / inject_Z K)%Q).
  { replace (e - 23) with (- k) by lia.
    rewrite Qpower_opp. by rewrite Qpow2_inject. }
  assert (Ee : (2 ^ e == inject_Z (2 ^ 23) / inject_Z K)%Q).
  { replace e with (23 - k) by lia.
    rewrite Qpower_minus by done. by rewrite !Qpow2_inject by lia. }
  assert (HbK : b <= 2 * K /\ (b = 2 * K -> a = 2 ^ 24)).
  { rewrite Ee in He1. unfold x in He1.
    apply Qdiv_le_cross_inv in He1; [|done|done].
    rewrite <-!inject_Z_mult, <-Zle_Qle in He1.
    change (2 ^ 23) with 8388608 in He1. change (2 ^ 24) with 16777216 in *.
    split; [nia|]. intros Eb. nia. }
  destruct HbK as [HbK HbK'].
  set (y := (x / 2 ^ (e - 23))%Q).
  assert (Ey : (y == inject_Z (a * K) / inject_Z b)%Q).
  { unfold y, x. rewrite Eu, inject_Z_mult. field. lra. }
  destruct (Z.eq_dec b (2 * K)) as [Eb|Eb].
  - specialize (HbK' Eb).
    assert (Ey' : (y == inject_Z (2 ^ 23))%Q).
    { rewrite Ey, HbK', Eb. rewrite !inject_Z_mult.
      change (inject_Z (2 ^ 24)) with (2 * inject_Z (2 ^ 23))%Q.
      change (inject_Z 2) with 2%Q. field. lra. }
    rewrite (np_round_inject _ _ Ey').
    rewrite (Qfloor_comp _ (inject_Z (2 ^ 23) / inject_Z K)).
    2:{ rewrite Eu. reflexivity. }
    rewrite Qfloor_div_inject. unfold n. rewrite HbK', Eb.
    change (2 ^ 24) with (2 * 2 ^ 23).
    rewrite Z.div_mul_cancel_l by lia. done.
  - destruct (np_round_bounds y (n * K) ((n + 1) * K)) as (m & Em & Hm).
    + rewrite Ey. apply Qle_shift_div_l; [done|].
      rewrite <-inject_Z_mult, <-Zle_Qle. nia.
    + rewrite Ey.
      assert (H2 : 2 * (a * K) + b < 2 * ((n + 1) * K) * b) by nia.
      apply Qlt_shift_div_r; [done|].
      rewrite Zlt_Qlt in H2.
      repeat (rewrite inject_Z_plus in H2 || rewrite inject_Z_mult in H2).
      repeat (rewrite inject_Z_plus || rewrite inject_Z_mult).
      change (inject_Z 2) with 2%Q in H2.
      change (inject_Z 1) with 1%Q in *. nra.
    + rewrite Em.
      rewrite (Qfloor_comp _ (inject_Z m / inject_Z K)).
      2:{ rewrite Eu. reflexivity. }
      rewrite Qfloor_div_inject.
      symmetry. apply (Z.div_unique m K n (m - n * K)); lia.
Qed.

(** Integers of magnitude at most 2^24 are binary32 numbers. *)
Lemma float_of_int_exact (n : Z) : Z.abs n <= 2 ^ 24 -> float_of_int n = n.
Proof.
  intros H. unfold float_of_int.
  destruct (Z.ltb_spec (Z.log2 (Z.abs n)) 24) as [|Hlog]; [done|].
  assert (Hn : Z.abs n = 2 ^ 24).
  { destruct (Z.eq_dec (Z.abs n) 0) as [E|E].
    { rewrite E in Hlog. cbn in Hlog. lia. }
    assert (~ Z.abs n < 2 ^ 24); [|lia].
    rewrite Z.log2_lt_pow2 by lia. lia. }
  destruct (Z.abs_eq_or_opp n) as [E|E]; rewrite E in Hn.
  - rewrite Hn. vm_compute. reflexivity.
  - replace n with (- 2 ^ 24) by lia. vm_compute. reflexivity.
Qed.

Lemma to_int_inject (n : Z) :
  INT_MIN <= n <= INT_MAX -> to_int (Fin (inject_Z n)) = n.
Proof. intros H. cbn [to_int]. rewrite Qtrunc_inject. lia. Qed.

(** On a grid whose slabs hold at most 2^24 voxels the binary32
    arithmetic of lines 117-119 yields, for an index up to 2^24, the
    exact quotients. *)
Lemma kernel_voxel_coords_exact d idx :
  0 < d.1.2 -> 0 < d.2 -> d.1.2 * d.2 <= 2 ^ 24 -> 0 <= idx <= 2 ^ 24 ->
  kernel_voxel_coords d idx = voxel_coords d idx.
Proof.
  destruct d as [[dx dy] dz]. cbn [fst snd]. intros Hy Hz Hyz Hidx.
  rewrite voxel_coords_div. cbn [fst snd].
  unfold kernel_voxel_coords, floorf.
  assert (Hdz : dz <= 2 ^ 24) by nia.
  set (x := idx `div` (dy * dz)).
  assert (Hx : 0 <= x <= 2 ^ 24).
  { split; [apply Z.div_pos; lia|].
    apply Z.div_le_upper_bound; [lia|]. nia. }
  set (r := idx - x * dy * dz).
  assert (Hr : 0 <= r < dy * dz).
  { pose proof (Z.mod_pos_bound idx (dy * dz) ltac:(lia)).
    pose proof (Z.div_mod idx (dy * dz) ltac:(lia)). unfold r, x. lia. }
  set (y := r `div` dz).
  assert (Hy' : 0 <= y <= 2 ^ 24).
  { split; [apply Z.div_pos; lia|].
    apply Z.div_le_upper_bound; [lia|]. nia. }
  assert (Hr2 : 0 <= r - y * dz < dz).
  { pose proof (Z.mod_pos_bound r dz ltac:(lia)).
    pose proof (Z.div_mod r dz ltac:(lia)). unfold y. lia. }
  change (2 ^ 24) with 16777216 in *.
  rewrite (wrap32_id (dy * dz)) by lia.
  rewrite (float_of_int_exact idx), (float_of_int_exact (dy * dz)) by lia.
  rewrite floor_binary32_quotient by lia. fold x.
  rewrite to_int_inject by (unfold INT_MIN, INT_MAX; lia). fold r.
  rewrite (wrap32_id r) by lia.
  rewrite (float_of_int_exact r), (float_of_int_exact dz) by lia.
  rewrite floor_binary32_quotient by lia. fold y.
  rewrite to_int_inject by (unfold INT_MIN, INT_MAX; lia).
  rewrite (wrap32_id (r - y * dz)) by lia.
  rewrite (float_of_int_exact (r - y * dz)) by lia.
  done.
Qed.

Lemma voxel_coords_of_ravel d x y z :
  0 <= y < d.1.2 -> 0 <= z < d.2 ->
  voxel_coords d (ravel d (x, y, z)) = (inject_Z x, inject_Z y, inject_Z z) /\
  (0 <= x < d.1.1 <-> 0 <= ravel d (x, y, z) < prod3 d).
Proof.
  intros Hy Hz. rewrite voxel_coords_div.
  destruct d as [[dx dy] dz]. unfold ravel, prod3. cbn [fst snd] in *.
  assert (Ex : (x * dy * dz + y * dz + z) `div` (dy * dz) = x).
  { assert (y * dz <= (dy - 1) * dz)
      by (apply Z.mul_le_mono_nonneg_r; lia).
    assert (0 <= y * dz) by (apply Z.mul_nonneg_nonneg; lia).
    symmetry. apply (Z.div_unique _ _ _ (y * dz + z)); [lia|lia]. }
  rewrite Ex.
  assert (Ey : (x * dy * dz + y * dz + z - x * dy * dz) `div` dz = y).
  { symmetry. apply (Z.div_unique _ _ _ z); [lia|lia]. }
  rewrite Ey. split; [do 2 f_equal; lia|].
  assert (Hr : 0 <= y * dz + z < dy * dz).
  { assert (y * dz <= (dy - 1) * dz)
      by (apply Z.mul_le_mono_nonneg_r; lia).
    assert (0 <= y * dz) by (apply Z.mul_nonneg_nonneg; lia). lia. }
  replace (x * dy * dz + y * dz + z) with (x * (dy * dz) + (y * dz + z))
    by ring.
  replace (dx * dy * dz) with (dx * (dy * dz)) by ring.
  set (m := dy * dz) in *. set (r := y * dz + z) in *.
  split; intros; nia.
Qed.

(** Beyond 2^24 voxels the cast of the index rounds: in a grid of 512^3
    voxels the kernel takes the voxel (64, 511, 511), stored at index
    17039359, for (65, -1, 511). *)
Lemma kernel_voxel_coords_rounds :
  ravel (512, 512, 512) (64, 511, 511) = 17039359 /\
  float_of_int 17039359 = 17039360 /\
  kernel_voxel_coords (512, 512, 512) 17039359 = (65, -1, 511)%Q /\
  voxel_coords (512, 512, 512) 17039359 = (64, 511, 511)%Q.
Proof. repeat split; vm_compute; reflexivity. Qed.

(** X19.  On a grid of at most 2^24 voxels the voxel coordinates that the
    kernel computes in binary32 (lines 117-119) invert the C-order
    flattening: for a voxel (x, y, z) of the grid the flat index
    x * Dy * Dz + y * Dz + z lies in the grid and the kernel gets
    (x, y, z) back from it, the casts and the two divisions being exact
    there. *)
Theorem voxel_coords_ravel d x y z :
  prod3 d <= 2 ^ 24 ->
  0 <= x < d.1.1 -> 0 <= y < d.1.2 -> 0 <= z < d.2 ->
  0 <= ravel d (x, y, z) < prod3 d /\
  kernel_voxel_coords d (ravel d (x, y, z))
  = (inject_Z x, inject_Z y, inject_Z z).
Proof.
  intros H24 Hx Hy Hz.
  destruct (voxel_coords_of_ravel d x y z Hy Hz) as [Ev Hr].
  apply Hr in Hx as Hi. split; [done|].
  rewrite kernel_voxel_coords_exact; [done|lia|lia| |lia].
  unfold prod3 in H24. nia.
Qed.

Lemma voxel_coords_ravel_witness :
  0 <= ravel (2, 3, 4) (1, 2, 3) < prod3 (2, 3, 4) /\
  kernel_voxel_coords (2, 3, 4) (ravel (2, 3, 4) (1, 2, 3))
  = (inject_Z 1, inject_Z 2, inject_Z 3).
Proof.
  apply (voxel_coords_ravel (2, 3, 4) 1 2 3);
    first [vm_compute; congruence | vm_compute; split; congruence].
Defined.

Lemma ravel_meshgrid_ij d :
  0 <= d.1.1 -> 0 <= d.1.2 -> 0 <= d.2 ->
  ravel d <$> meshgrid_ij d = seqZ 0 (prod3 d).
Proof.
  destruct d as [[dx dy] dz]. unfold meshgrid_ij, prod3, ravel.
  cbn [fst snd]. intros Hx Hy Hz.
  rewrite fmap_list_bind.
  replace (dx * dy * dz) with (dx * (dy * dz)) by ring.
  rewrite <-(bind_seqZ_blocks 0 dx (dy * dz)) by nia.
  apply list_bind_ext; [|done]. intros x.
  rewrite fmap_list_bind.
  rewrite <-(bind_seqZ_blocks (0 + x * (dy * dz)) dy dz) by lia.
  apply list_bind_ext; [|done]. intros y.
  rewrite fmap_list_bind.
  rewrite (list_bind_ext _ (fun z => [0 + x * (dy * dz) + y * dz + z]) _
             (seqZ 0 dz)); [|intros z; cbn; f_equal; lia|done].
  rewrite (bind_singleton_fmap (Z.add _)), fmap_add_seqZ.
  f_equal; lia.
Qed.

Lemma elem_of_meshgrid_ij d c :
  c ∈ meshgrid_ij d ->
  0 <= c.1.1 < d.1.1 /\ 0 <= c.1.2 < d.1.2 /\ 0 <= c.2 < d.2.
Proof.
  destruct d as [[dx dy] dz]. unfold meshgrid_ij. cbn [fst snd].
  rewrite list_elem_of_bind. intros (x & Hc & Hx).
  rewrite list_elem_of_bind in Hc. destruct Hc as (y & Hc & Hy).
  rewrite list_elem_of_bind in Hc. destruct Hc as (z & Hc & Hz).
  apply list_elem_of_singleton in Hc as ->. cbn.
  rewrite elem_of_seqZ in Hx, Hy, Hz. lia.
Qed.

Lemma meshgrid_ij_lookup d i :
  0 <= d.1.1 -> 0 <= d.1.2 -> 0 <= d.2 -> 0 <= i < prod3 d ->
  exists c, meshgrid_ij d !! Z.to_nat i = Some c /\ ravel d c = i /\
    0 <= c.1.1 < d.1.1 /\ 0 <= c.1.2 < d.1.2 /\ 0 <= c.2 < d.2.
Proof.
  intros Hx Hy Hz Hi.
  pose proof (ravel_meshgrid_ij d Hx Hy Hz) as E.
  assert (Hlen : length (meshgrid_ij d) = Z.to_nat (prod3 d)).
  { rewrite <-(length_fmap (ravel d)), E, length_seqZ. done. }
  destruct (lookup_lt_is_Some_2 (meshgrid_ij d) (Z.to_nat i)) as [c Hc];
    [lia|].
  exists c. split; [done|]. split.
  - assert (H : (ravel d <$> meshgrid_ij d) !! Z.to_nat i = Some (ravel d c))
      by (by rewrite list_lookup_fmap, Hc).
    rewrite E in H. apply lookup_seqZ in H. lia.
  - apply elem_of_meshgrid_ij. by eapply list_elem_of_lookup_2.
Qed.

Lemma meshgrid_ij_lookup_ravel d c :
  0 <= c.1.1 < d.1.1 -> 0 <= c.1.2 < d.1.2 -> 0 <= c.2 < d.2 ->
  meshgrid_ij d !! Z.to_nat (ravel d c) = Some c.
Proof.
  intros Hx Hy Hz. destruct c as [[x y] z]. cbn [fst snd] in *.
  destruct (voxel_coords_of_ravel d x y z Hy Hz) as [Ev Hr].
  assert (Hrange : 0 <= ravel d (x, y, z) < prod3 d) by (by apply Hr).
  destruct (meshgrid_ij_lookup d (ravel d (x, y, z))
              ltac:(lia) ltac:(lia) ltac:(lia) Hrange)
    as ([[x' y'] z'] & Hc & Er & Hx' & Hy' & Hz').
  cbn [fst snd] in *.
  destruct (voxel_coords_of_ravel d x' y' z' Hy' Hz') as [Ev' _].
  rewrite Er, Ev in Ev'. injection Ev' as E1 E2 E3.
  rewrite Hc. do 2 f_equal; [f_equal|..]; lia.
Qed.

(** X20.  On a grid of at most 2^24 voxels, row i of the CPU path's
    [vox_coords] (lines 201-211) holds the voxel coordinates the kernel
    computes for the index i (lines 117-119), and [vox2world] sends it
    to the world point of the kernel (lines 215-224 and 121-124; the
    world point in exact arithmetic). *)
Theorem cpu_gpu_same_world_point origin size d i :
  prod3 d <= 2 ^ 24 ->
  0 < d.1.1 -> 0 < d.1.2 -> 0 < d.2 -> 0 <= i < prod3 d ->
  exists c p,
    meshgrid_ij d !! Z.to_nat i = Some c /\
    kernel_voxel_coords d i = (inject_Z c.1.1, inject_Z c.1.2, inject_Z c.2) /\
    vox2world origin (meshgrid_ij d) size !! Z.to_nat i = Some p /\
    triple_eq p (world_point origin size (kernel_voxel_coords d i)).
Proof.
  intros H24 Hx Hy Hz Hi.
  destruct (meshgrid_ij_lookup d i) as (c & Hc & Hr & Hcx & Hcy & Hcz);
    try lia.
  destruct c as [[x y] z]. cbn [fst snd] in *.
  destruct (voxel_coords_of_ravel d x y z Hcy Hcz) as [Ev _].
  rewrite Hr in Ev.
  assert (Ek : kernel_voxel_coords d i = voxel_coords d i).
  { apply kernel_voxel_coords_exact; [lia|lia| |lia].
    unfold prod3 in H24. nia. }
  rewrite Ek.
  eexists _, _. split; [exact Hc|]. split; [exact Ev|].
  unfold vox2world. rewrite list_lookup_fmap, Hc. split; [done|].
  rewrite Ev. unfold triple_eq, world_point. cbn. repeat split; ring.
Qed.

Lemma cpu_gpu_same_world_point_witness :
  exists c p,
    meshgrid_ij (2, 3, 4) !! Z.to_nat 23 = Some c /\
    kernel_voxel_coords (2, 3, 4) 23
    = (inject_Z c.1.1, inject_Z c.1.2, inject_Z c.2) /\
    vox2world [0; 0; 1]%Q (meshgrid_ij (2, 3, 4)) (2 # 100) !! Z.to_nat 23
    = Some p /\
    triple_eq p
      (world_point [0; 0; 1]%Q (2 # 100) (kernel_voxel_coords (2, 3, 4) 23)).
Proof.
  apply (cpu_gpu_same_world_point [0; 0; 1]%Q (2 # 100) (2, 3, 4) 23);
    first [vm_compute; congruence | vm_compute; split; congruence].
Defined.

Lemma np_round_roundf (x : Q) :
  ~ (x - inject_Z (Qfloor x) == 1 # 2)%Q -> np_round x = roundf x.
Proof.
  intros Hne. unfold np_round, roundf.
  pose proof (Qfloor_le x) as Hlo. pose proof (Qlt_floor x) as Hhi.
  rewrite inject_Z_plus in Hhi. change (inject_Z 1) with 1%Q in Hhi.
  set (f := Qfloor x) in *.
  destruct (Qltb (x - inject_Z f) (1 # 2)) eqn:E1.
  - apply Qltb_true in E1.
    destruct (Qle_bool 0 x) eqn:E0; f_equal.
    + symmetry. apply Z.le_antisymm.
      * assert (Qfloor (x + (1 # 2)) < f + 1); [|lia].
        rewrite Zlt_Qlt. eapply Qle_lt_trans; [apply Qfloor_le|].
        rewrite inject_Z_plus. change (inject_Z 1) with 1%Q. lra.
      * apply Qfloor_resp_le. lra.
    + symmetry. apply Z.le_antisymm.
      * rewrite <-(Qceiling_Z f). apply Qceiling_resp_le. lra.
      * assert (f - 1 < Qceiling (x - (1 # 2))); [|lia].
        rewrite Zlt_Qlt. eapply Qlt_le_trans; [|apply Qle_ceiling].
        unfold Z.sub. rewrite inject_Z_plus, inject_Z_opp.
        change (inject_Z 1) with 1%Q.
        apply not_true_iff_false in E0. rewrite Qle_bool_iff in E0.
        (* x < 0 *)
        assert (inject_Z f <= x)%Q by done.
        destruct (Qlt_le_dec (inject_Z f + - (1)) (x - (1 # 2))); [done|].
        exfalso.
        (* f - 1 >= x - 1/2, with f <= x : x - f <= 1/2 and >= ... *)
        lra.
  - apply Qltb_false in E1.
    assert (E2 : Qltb (1 # 2) (x - inject_Z f) = true).
    { apply Qltb_true. destruct (Qlt_le_dec (1 # 2) (x - inject_Z f)); [done|].
      exfalso. apply Hne. lra. }
    rewrite E2. apply Qltb_true in E2.
    destruct (Qle_bool 0 x) eqn:E0; f_equal.
    + symmetry. apply Z.le_antisymm.
      * assert (Qfloor (x + (1 # 2)) < f + 1 + 1); [|lia].
        rewrite Zlt_Qlt. eapply Qle_lt_trans; [apply Qfloor_le|].
        rewrite !inject_Z_plus. change (inject_Z 1) with 1%Q. lra.
      * rewrite <-(Qfloor_Z (f + 1)). apply Qfloor_resp_le.
        rewrite inject_Z_plus. change (inject_Z 1) with 1%Q. lra.
    + symmetry. apply Z.le_antisymm.
      * rewrite <-(Qceiling_Z (f + 1)). apply Qceiling_resp_le.
        rewrite inject_Z_plus. change (inject_Z 1) with 1%Q. lra.
      * assert (f < Qceiling (x - (1 # 2))); [|lia].
        rewrite Zlt_Qlt. eapply Qlt_le_trans; [|apply Qle_ceiling]. lra.
Qed.

(** ** Pixels, and what a CPU call raises *)

Lemma to_int_roundf (v : Q) (k : Z) :
  roundf v = inject_Z k -> INT_MIN <= k <= INT_MAX ->
  to_int (xroundf (Fin v)) = k /\ astype_int64 (Fin (roundf v)) = k.
Proof.
  intros E Hk. cbn. rewrite E, Qtrunc_inject.
  unfold INT_MIN, INT_MAX, INT64_MIN, INT64_MAX in *. split; [lia|].
  destruct (Z.leb_spec (- 2 ^ 63) k), (Z.leb_spec k (2 ^ 63 - 1)); cbn; lia.
Qed.

Lemma roundf_int (v : Q) : exists k, roundf v = inject_Z k.
Proof. unfold roundf. destruct (Qle_bool 0 v); by eexists. Qed.

Lemma pixel_coordinate_agrees (f c x z : Q) :
  ~ (z == 0)%Q ->
  let u := (f * (x / z) + c)%Q in
  ~ (u - inject_Z (Qfloor u) == 1 # 2)%Q ->
  INT_MIN <= Qtrunc (roundf u) <= INT_MAX ->
  astype_int64 (xnp_round (xshift (xdiv (x * f) z) c))
  = to_int (xroundf (xshift (xscale f (xdiv x z)) c)).
Proof.
  intros Hz u Htie Hk. unfold xdiv.
  destruct (Qeq_bool z 0) eqn:E0; [by apply Qeq_bool_iff in E0|].
  cbn [xscale xshift xnp_round xroundf]. fold u.
  assert (Eu : (x * f / z + c == u)%Q) by (unfold u; field; done).
  assert (Er : np_round (x * f / z + c) = roundf u).
  { rewrite np_round_roundf; [by apply roundf_comp|].
    rewrite (Qfloor_comp _ _ Eu). by rewrite Eu. }
  rewrite Er. destruct (roundf_int u) as [k Ek].
  rewrite Ek, Qtrunc_inject in Hk.
  destruct (to_int_roundf u k Ek Hk) as [E1 E2].
  cbn [xroundf] in E1. rewrite E1, E2. done.
Qed.

(** X21.  [cam2pix] (np.round, lines 228-238) and the kernel (roundf, lines
    133-134) project a camera point to the same pixel when its depth is
    not zero, neither projected coordinate lies exactly halfway between
    two integers, and both round into the range of int. *)
Theorem cpu_gpu_same_pixel intr (p : Q * Q * Q) :
  ~ (p.2 == 0)%Q ->
  let u := (at_ intr 0 * (p.1.1 / p.2) + at_ intr 2)%Q in
  let v := (at_ intr 4 * (p.1.2 / p.2) + at_ intr 5)%Q in
  ~ (u - inject_Z (Qfloor u) == 1 # 2)%Q ->
  ~ (v - inject_Z (Qfloor v) == 1 # 2)%Q ->
  INT_MIN <= Qtrunc (roundf u) <= INT_MAX ->
  INT_MIN <= Qtrunc (roundf v) <= INT_MAX ->
  cam2pix [p] intr = [image_pixel intr p] /\
  image_pixel intr p = (Qtrunc (roundf u), Qtrunc (roundf v)).
Proof.
  intros Hz u v Hu Hv Hku Hkv.
  destruct p as [[x y] z]. cbn [fst snd] in *.
  unfold cam2pix, image_pixel. cbn [fmap list_fmap fst snd Nat.mul Nat.add].
  rewrite (pixel_coordinate_agrees (at_ intr 0) (at_ intr 2) x z) by done.
  rewrite (pixel_coordinate_agrees (at_ intr 4) (at_ intr 5) y z) by done.
  split; [done|].
  unfold xdiv. destruct (Qeq_bool z 0) eqn:E0; [by apply Qeq_bool_iff in E0|].
  cbn [xscale xshift xroundf to_int]. fold u v.
  unfold INT_MIN, INT_MAX in *. f_equal; lia.
Qed.

Lemma cpu_gpu_same_pixel_witness :
  let p := ((2 # 100), (1 # 100), 1)%Q in
  cam2pix [p] zoom_intr = [image_pixel zoom_intr p] /\
  image_pixel zoom_intr p
  = (Qtrunc (roundf (at_ zoom_intr 0 * (p.1.1 / p.2) + at_ zoom_intr 2)),
     Qtrunc (roundf (at_ zoom_intr 4 * (p.1.2 / p.2) + at_ zoom_intr 5))).
Proof.
  apply (cpu_gpu_same_pixel zoom_intr ((2 # 100), (1 # 100), 1)%Q);
    first [vm_compute; congruence | vm_compute; split; congruence].
Defined.

Lemma mapM_Ok {A B} (f : A -> result B) (l : list A) :
  Forall (fun x => exists y, f x = Ok y) l ->
  exists ys, mapM f l = Ok ys /\ length ys = length l.
Proof.
  induction 1 as [|x l [y Hy] _ (ys & IH & Hlen)]; [by exists []|].
  exists (y :: ys). cbn. rewrite Hy. cbn. rewrite IH. cbn.
  split; [done|]. by rewrite Hlen.
Qed.

Lemma elem_of_select {A} (m : list bool) (a : list A) x :
  x ∈ select m a -> x ∈ a.
Proof.
  unfold select. rewrite list_elem_of_bind. intros ([b y] & Hx & Hin).
  cbn in Hx. destruct b; [|by apply elem_of_nil in Hx].
  apply list_elem_of_singleton in Hx as ->.
  apply elem_of_zip_r in Hin. done.
Qed.

Lemma gather_Ok {A} d (vol : list A) coords :
  0 <= d.1.1 -> 0 <= d.1.2 -> 0 <= d.2 ->
  Z.of_nat (length vol) = prod3 d ->
  Forall (fun c => c ∈ meshgrid_ij d) coords ->
  exists vals, gather d vol coords = Ok vals.
Proof.
  intros Hx Hy Hz Hlen Hc. unfold gather.
  destruct (mapM_Ok (fun c => match ix vol (ravel d c) with
                              | Some v => Ok v
                              | None => Raise IndexError
                              end) coords) as (vals & E & _); [|by exists vals].
  eapply Forall_impl; [exact Hc|]. intros c Hin.
  pose proof (ravel_meshgrid_ij d Hx Hy Hz) as E.
  assert (Hr : ravel d c ∈ seqZ 0 (prod3 d)).
  { rewrite <-E. by apply list_elem_of_fmap_2. }
  apply elem_of_seqZ in Hr.
  destruct (ix_in_range vol (ravel d c)) as [v ->]; [lia|]. by eexists.
Qed.

Lemma cpu_depth_stage_Ok self fr inv :
  linalg_inv (Frame.cam_pose fr) = Ok inv ->
  Z.of_nat (length (flat (Frame.depth_im fr)))
  = nrows (Frame.depth_im fr) * ncols (Frame.depth_im fr) ->
  exists r, cpu_depth_stage self fr = Ok r.
Proof.
  intros Hinv Hlen. unfold cpu_depth_stage, cpu_project. rewrite Hinv.
  cbn [mbind result_bind].
  set (pts := rigid_transform _ inv). set (pix := cam2pix pts _).
  destruct (mapM_Ok (fun pz : Z * Z * Q =>
              if valid_pixel (nrows (Frame.depth_im fr))
                   (ncols (Frame.depth_im fr)) pz.1 pz.2
              then np_getitem2 (Frame.depth_im fr) pz.1.2 pz.1.1
              else Ok 0%Q)
              (zip pix ((fun p : Q * Q * Q => p.2) <$> pts)))
    as (vals & -> & _); [|by eexists].
  apply Forall_forall. intros [[px py] pz] _. cbn [fst snd].
  destruct (valid_pixel _ _ _ _) eqn:Hv; [|by eexists].
  apply valid_pixel_spec in Hv as (Hpx & Hpy & _). cbn [fst snd] in *.
  unfold np_getitem2, np_axis.
  destruct (Z.leb_spec 0 py), (Z.ltb_spec py (nrows (Frame.depth_im fr)));
    try lia.
  destruct (Z.leb_spec 0 px), (Z.ltb_spec px (ncols (Frame.depth_im fr)));
    try lia.
  cbn.
  destruct (pixel_index_in_range (flat (Frame.depth_im fr)) _ _ px py Hlen)
    as [v ->]; try done. by eexists.
Qed.

(** X22.  Where a CPU call fails.  On a grid built in CPU mode, for a
    frame whose depth data fill its shape and whose [cam_pose] is a rigid
    motion (last row 0 0 0 1, orthonormal rotation columns, so that the
    inverse of line 308 exists), nothing raises before line 335: the
    projection, the depth lookup of line 320 and the three gathers of
    lines 331-333 return, [integrate_tsdf] raises, and [integrate]
    passes its exception on with the object left as it was. *)
Theorem cpu_integrate_raises pycuda vol_bnds voxel_size use_gpu self fr :
  __init__ pycuda vol_bnds voxel_size use_gpu = Ok self ->
  gpu_mode self = false ->
  Z.of_nat (length (flat (Frame.depth_im fr)))
  = nrows (Frame.depth_im fr) * ncols (Frame.depth_im fr) ->
  affine (Frame.cam_pose fr) -> orthonormal (Frame.cam_pose fr) ->
  exists valid_pts valid_dist w_old tsdf_vals occl_vals e,
    cpu_depth_stage self fr = Ok (valid_pts, valid_dist) /\
    gather (_vol_dim self) (weight_vol (host self))
      (select valid_pts (vox_coords self)) = Ok w_old /\
    gather (_vol_dim self) (tsdf_vol (host self))
      (select valid_pts (vox_coords self)) = Ok tsdf_vals /\
    gather (_vol_dim self) (occl_vol (host self))
      (select valid_pts (vox_coords self)) = Ok occl_vals /\
    integrate_tsdf tsdf_vals occl_vals valid_dist w_old (Frame.obs_weight fr)
    = Raise e /\
    integrate self fr = Raised e self.
Proof.
  intros Hinit Hmode Hlen Ha Ho.
  destruct (init_inv _ _ _ _ _ Hinit)
    as (_ & _ & (Hd1 & Hd2 & Hd3) & Ed & _ & _ & _ & _ & _ & Eh & Hg).
  unfold gpu_mode in Hmode.
  destruct (if use_gpu then pycuda else None) as [dev|].
  { destruct Hg as (? & ? & ? & ? & _ & Hs & _). by rewrite Hs in Hmode. }
  destruct Hg as [Hs Hvox].
  assert (Hinv : exists inv, linalg_inv (Frame.cam_pose fr) = Ok inv).
  { pose proof (orthonormal_det _ Ha Ho) as Hdet.
    unfold linalg_inv. destruct (Qeq_bool _ 0) eqn:Edet; [|by eexists].
    apply Qeq_bool_iff in Edet. rewrite Edet in Hdet. lra. }
  destruct Hinv as [inv Hinv].
  destruct (cpu_depth_stage_Ok self fr inv Hinv Hlen) as [[valid_pts dist] Hst].
  rewrite Ed. set (d := derive_vol_dim vol_bnds voxel_size) in *.
  assert (Hin : Forall (fun c => c ∈ meshgrid_ij d)
                  (select valid_pts (vox_coords self))).
  { apply Forall_forall. intros c Hc. apply elem_of_select in Hc.
    by rewrite Hvox in Hc. }
  assert (HN : 0 <= prod3 d).
  { unfold prod3. repeat apply Z.mul_nonneg_nonneg; done. }
  destruct (gather_Ok d (weight_vol (host self))
              (select valid_pts (vox_coords self)) Hd1 Hd2 Hd3)
    as [w Hw]; [rewrite Eh; cbn; rewrite length_replicate; lia|done|].
  destruct (gather_Ok d (tsdf_vol (host self))
              (select valid_pts (vox_coords self)) Hd1 Hd2 Hd3)
    as [t Ht]; [rewrite Eh; cbn; rewrite length_replicate; lia|done|].
  destruct (gather_Ok d (occl_vol (host self))
              (select valid_pts (vox_coords self)) Hd1 Hd2 Hd3)
    as [o Hoc]; [rewrite Eh; cbn; rewrite length_replicate; lia|done|].
  destruct (integrate_tsdf t o dist w (Frame.obs_weight fr)) as [r|e] eqn:Ei.
  { by rewrite integrate_tsdf_unbound in Ei. }
  exists valid_pts, dist, w, t, o, e.
  repeat (split; [done|]).
  unfold integrate, cpu_tsdf_stage. rewrite Hs, Hst. cbn [mbind result_bind].
  rewrite Ed. fold d. rewrite Hw. cbn [mbind result_bind].
  rewrite Ht. cbn [mbind result_bind]. rewrite Hoc. cbn [mbind result_bind].
  rewrite Ei. done.
Qed.

Lemma cpu_integrate_raises_witness :
  exists valid_pts valid_dist w_old tsdf_vals occl_vals e,
    cpu_depth_stage mean_self_cpu close_frame = Ok (valid_pts, valid_dist) /\
    gather (_vol_dim mean_self_cpu) (weight_vol (host mean_self_cpu))
      (select valid_pts (vox_coords mean_self_cpu)) = Ok w_old /\
    gather (_vol_dim mean_self_cpu) (tsdf_vol (host mean_self_cpu))
      (select valid_pts (vox_coords mean_self_cpu)) = Ok tsdf_vals /\
    gather (_vol_dim mean_self_cpu) (occl_vol (host mean_self_cpu))
      (select valid_pts (vox_coords mean_self_cpu)) = Ok occl_vals /\
    integrate_tsdf tsdf_vals occl_vals valid_dist w_old
      (Frame.obs_weight close_frame) = Raise e /\
    integrate mean_self_cpu close_frame = Raised e mean_self_cpu.
Proof.
  apply (cpu_integrate_raises None (one_voxel_bnds (1 # 100)) (2 # 100) true
           mean_self_cpu close_frame);
    first [vm_compute; reflexivity
          | vm_compute; repeat split; congruence].
Defined.

(** ** The downsampled queries *)

Lemma mapM_Ok_inv {A B} (f : A -> result B) (l : list A) ys :
  mapM f l = Ok ys -> Forall2 (fun x y => f x = Ok y) l ys.
Proof.
  revert ys. induction l as [|x l IH]; intros ys; cbn.
  { intros [= <-]. constructor. }
  destruct (f x) as [y|] eqn:Ey; [|done]. cbn.
  destruct (mapM f l) as [ys'|]; [|done]. cbn. intros [= <-].
  constructor; [done|by apply IH].
Qed.

Lemma slice_indices_pos n step :
  0 < step ->
  slice_indices n step
  = Ok ((fun i => i * step) <$> seqZ 0 (sliced_len n step)).
Proof.
  intros H. unfold slice_indices, sliced_len.
  destruct (Z.eqb_spec step 0); [lia|].
  destruct (Z.ltb_spec 0 step); [done|lia].
Qed.

Lemma sliced_len_bounds n step i :
  0 < step -> 0 <= n ->
  0 <= sliced_len n step /\
  (0 <= i < sliced_len n step <-> 0 <= i /\ i * step < n).
Proof.
  intros Hs Hn. unfold sliced_len.
  pose proof (Z.div_mod (n + step - 1) step ltac:(lia)) as E.
  pose proof (Z.mod_pos_bound (n + step - 1) step Hs) as Hm.
  set (q := (n + step - 1) `div` step) in *.
  split; [apply Z.div_pos; lia|]. split; intros; nia.
Qed.

Lemma list_bind_fmap {A B C} (f : A -> B) (k : B -> list C) (l : list A) :
  (f <$> l) ≫= k = l ≫= (fun x => k (f x)).
Proof.
  induction l as [|x l IH]; [done|].
  by rewrite fmap_cons, !bind_cons, IH.
Qed.

(** The sampled voxels of a positive step are the images of the
    downsampled grid under the scaling by the step. *)
Lemma sampled_coords shape step :
  (x ← (fun i => i * step) <$> seqZ 0 shape.1.1;
   y ← (fun i => i * step) <$> seqZ 0 shape.1.2;
   z ← (fun i => i * step) <$> seqZ 0 shape.2; [(x, y, z)])
  = (fun c : Z * Z * Z => (c.1.1 * step, c.1.2 * step, c.2 * step))
    <$> meshgrid_ij shape.
Proof.
  destruct shape as [[nx ny] nz]. unfold meshgrid_ij. cbn [fst snd].
  rewrite fmap_list_bind, list_bind_fmap.
  apply list_bind_ext; [|done]. intros x.
  rewrite fmap_list_bind, list_bind_fmap.
  apply list_bind_ext; [|done]. intros y.
  rewrite fmap_list_bind, list_bind_fmap. done.
Qed.

Lemma ravel_range d c :
  0 <= c.1.1 < d.1.1 -> 0 <= c.1.2 < d.1.2 -> 0 <= c.2 < d.2 ->
  0 <= ravel d c < prod3 d.
Proof.
  destruct d as [[dx dy] dz], c as [[x y] z]. unfold ravel, prod3.
  cbn [fst snd]. intros Hx Hy Hz.
  assert (0 <= y * dz + z < dy * dz).
  { assert (y * dz <= (dy - 1) * dz)
      by (apply Z.mul_le_mono_nonneg_r; lia).
    assert (0 <= y * dz) by (apply Z.mul_nonneg_nonneg; lia). lia. }
  replace (x * dy * dz + y * dz + z) with (x * (dy * dz) + (y * dz + z))
    by ring.
  replace (dx * dy * dz) with (dx * (dy * dz)) by ring.
  set (m := dy * dz) in *. set (r := y * dz + z) in *. nia.
Qed.

Lemma length_slice n step :
  0 <= n ->
  Z.of_nat (length ((fun i => i * step) <$> seqZ 0 n)) = n.
Proof. intros H. rewrite length_fmap, length_seqZ. lia. Qed.

Section downsample.
Context (d : Z * Z * Z) (reduce : Z).
Context (Hr : 0 < reduce).
Context (Hd1 : 0 <= d.1.1) (Hd2 : 0 <= d.1.2) (Hd3 : 0 <= d.2).

Local Abbreviation shape :=
  (sliced_len d.1.1 reduce, sliced_len d.1.2 reduce, sliced_len d.2 reduce).
Local Abbreviation scale :=
  (fun c : Z * Z * Z => (c.1.1 * reduce, c.1.2 * reduce, c.2 * reduce)).

Lemma scaled_in_range c :
  c ∈ meshgrid_ij shape -> 0 <= ravel d (scale c) < prod3 d.
Proof.
  intros Hc. apply elem_of_meshgrid_ij in Hc as (Hx & Hy & Hz).
  cbn [fst snd] in *.
  apply sliced_len_bounds in Hx, Hy, Hz; try done.
  apply ravel_range; cbn [fst snd]; nia.
Qed.

Lemma strided3_pos {A} (vol : list A) :
  Z.of_nat (length vol) = prod3 d ->
  exists vals,
    strided3 d vol reduce = Ok (shape, vals) /\
    Forall2 (fun c v => ix vol (ravel d (scale c)) = Some v)
      (meshgrid_ij shape) vals.
Proof.
  intros Hlen. unfold strided3.
  rewrite !slice_indices_pos by done. cbn [mbind result_bind].
  pose proof (sampled_coords shape reduce) as Es. cbn [fst snd] in Es.
  rewrite Es. clear Es.
  destruct (mapM_Ok (fun c => match ix vol (ravel d c) with
                              | Some v => Ok v
                              | None => Raise IndexError
                              end) (scale <$> meshgrid_ij shape))
    as (vals & E & _).
  { apply Forall_fmap, Forall_forall. intros c Hc.
    pose proof (scaled_in_range c Hc).
    destruct (ix_in_range vol (ravel d (scale c))) as [v Hv]; [lia|].
    cbn. cbn in Hv. rewrite Hv. by eexists. }
  unfold gather. rewrite E. cbn [mbind result_bind].
  exists vals. split.
  - rewrite !length_slice; [done|by apply sliced_len_bounds with (i := 0)..].
  - apply mapM_Ok_inv in E. apply Forall2_fmap_l in E.
    eapply Forall2_impl; [exact E|]. intros c v. cbn.
    by destruct (ix vol _) as [v'|]; [intros [= ->]|].
Qed.

End downsample.

Lemma ix_occupied occl_vol tsdf_vol i o t :
  ix occl_vol i = Some o -> ix tsdf_vol i = Some t ->
  ix ((fun p : Q * Q => occupied p.1 p.2) <$> zip occl_vol tsdf_vol) i
  = Some (occupied o t).
Proof.
  unfold ix. destruct (i <? 0); [done|]. intros Ho Ht.
  rewrite list_lookup_fmap.
  rewrite (proj2 (lookup_zip_with_Some pair occl_vol tsdf_vol (Z.to_nat i) (o, t)));
    [done|]. by exists o, t.
Qed.

Lemma get_volume_grid self :
  (get_volume self).2
  = (tsdf_vol (grid self), occl_vol (grid self), color_vol (grid self),
     mask_vol (grid self)) /\
  _vol_dim (get_volume self).1 = _vol_dim self /\
  _voxel_size (get_volume self).1 = _voxel_size self /\
  _vol_origin (get_volume self).1 = _vol_origin self.
Proof. unfold get_volume, grid. by destruct (gpu self). Qed.

(** What the downsampled query returns for a positive step, as lists
    over the downsampled grid. *)
Lemma downsampled_lists self reduce :
  0 < reduce ->
  0 <= (_vol_dim self).1.1 -> 0 <= (_vol_dim self).1.2 ->
  0 <= (_vol_dim self).2 ->
  wf_volume (grid self) ->
  Z.of_nat (length (tsdf_vol (grid self))) = prod3 (_vol_dim self) ->
  let d := _vol_dim self in
  let shape :=
    (sliced_len d.1.1 reduce, sliced_len d.1.2 reduce,
     sliced_len d.2 reduce) in
  exists pc flags,
    (get_downsampled_all_voxels_pcd_and_voxel_mask self reduce).2
    = Ok (pc, flags) /\
    Forall2 (fun c p =>
               triple_eq p
                 (world_point (_vol_origin self) (_voxel_size self)
                    (inject_Z (c.1.1 * reduce), inject_Z (c.1.2 * reduce),
                     inject_Z (c.2 * reduce))))
      (meshgrid_ij shape) pc /\
    Forall2 (fun c b =>
               exists o t,
                 ix (occl_vol (grid self))
                    (ravel d (c.1.1 * reduce, c.1.2 * reduce, c.2 * reduce))
                 = Some o /\
                 ix (tsdf_vol (grid self))
                    (ravel d (c.1.1 * reduce, c.1.2 * reduce, c.2 * reduce))
                 = Some t /\
                 b = occupied o t)
      (meshgrid_ij shape) flags.
Proof.
  intros Hr Hd1 Hd2 Hd3 (Ho & Hw & Hc & Hm) Hlen d shape.
  unfold get_downsampled_all_voxels_pcd_and_voxel_mask.
  destruct (get_volume_grid self) as (Eg & Ed & Ev & Eo).
  destruct (get_volume self) as [self1 [[[t o] c] m]].
  cbn [fst snd] in *. injection Eg as -> -> -> ->.
  rewrite Ed, Ev, Eo. fold d.
  destruct (strided3_pos d reduce Hr Hd1 Hd2 Hd3 (tsdf_vol (grid self)))
    as (v1 & -> & _); [done|].
  destruct (strided3_pos d reduce Hr Hd1 Hd2 Hd3 (color_vol (grid self)))
    as (v2 & -> & _); [by rewrite Hc|].
  destruct (strided3_pos d reduce Hr Hd1 Hd2 Hd3 (mask_vol (grid self)))
    as (v3 & -> & _); [by rewrite Hm|].
  cbn [mbind result_bind].
  destruct (strided3_pos d reduce Hr Hd1 Hd2 Hd3
              ((fun p : Q * Q => occupied p.1 p.2)
               <$> zip (occl_vol (grid self)) (tsdf_vol (grid self))))
    as (flags & -> & Hflags).
  { rewrite length_fmap, length_zip, Ho, Nat.min_id. done. }
  cbn [mbind result_bind]. eexists _, flags. split; [reflexivity|].
  split.
  - apply Forall2_fmap_r, Forall_Forall2_diag, Forall_forall.
    intros [[i j] k] _. unfold triple_eq, world_point. cbn [fst snd].
    rewrite !inject_Z_mult. unfold compose. cbn [fst snd].
    split; [|split]; ring.
  - eapply Forall2_impl; [exact Hflags|].
    intros cc b Hb. cbn beta in Hb.
    pose proof (ix_Some_range _ _ _ Hb) as Hrange.
    rewrite length_fmap, length_zip, Ho, Nat.min_id in Hrange.
    destruct (ix_in_range (occl_vol (grid self)) _ ltac:(rewrite Ho; exact Hrange))
      as [o Eo'].
    destruct (ix_in_range (tsdf_vol (grid self)) _ Hrange) as [t Et'].
    exists o, t. split; [exact Eo'|]. split; [exact Et'|].
    rewrite (ix_occupied _ _ _ o t Eo' Et') in Hb. by injection Hb.
Qed.

(** X23.  The downsampled queries for a step [reduce >= 1] (lines 398-462).
    They return ceil(Dx/reduce) * ceil(Dy/reduce) * ceil(Dz/reduce)
    points and as many flags; at the C-order position of (i, j, k) the
    point is the world position of the voxel (i, j, k) * reduce, as the
    kernel computes it, and the flag tells whether that voxel of the
    active grid has -100 < occl < 0 or -0.5 < tsdf < 0.9.  The two
    wrappers return the points and the flags. *)
Theorem downsampled_point_and_flag self reduce i j k :
  0 < reduce ->
  0 <= (_vol_dim self).1.1 -> 0 <= (_vol_dim self).1.2 ->
  0 <= (_vol_dim self).2 ->
  wf_volume (grid self) ->
  Z.of_nat (length (tsdf_vol (grid self))) = prod3 (_vol_dim self) ->
  let d := _vol_dim self in
  let shape :=
    (sliced_len d.1.1 reduce, sliced_len d.1.2 reduce,
     sliced_len d.2 reduce) in
  0 <= i < shape.1.1 -> 0 <= j < shape.1.2 -> 0 <= k < shape.2 ->
  let n := Z.to_nat (ravel shape (i, j, k)) in
  let c := (i * reduce, j * reduce, k * reduce) in
  exists pc flags p o t,
    (get_downsampled_all_voxels_pcd_and_voxel_mask self reduce).2
    = Ok (pc, flags) /\
    (get_downsampled_all_voxels_pcd self reduce).2 = Ok pc /\
    (get_downsampled_voxel_collision_mask self reduce).2 = Ok flags /\
    Z.of_nat (length pc) = prod3 shape /\ length flags = length pc /\
    0 <= ravel d c < prod3 d /\
    pc !! n = Some p /\
    triple_eq p
      (world_point (_vol_origin self) (_voxel_size self)
         (voxel_coords d (ravel d c))) /\
    ix (occl_vol (grid self)) (ravel d c) = Some o /\
    ix (tsdf_vol (grid self)) (ravel d c) = Some t /\
    flags !! n = Some (occupied o t).
Proof.
  intros Hr Hd1 Hd2 Hd3 Hwf Hlen d shape Hi Hj Hk n c.
  destruct (downsampled_lists self reduce Hr Hd1 Hd2 Hd3 Hwf Hlen)
    as (pc & flags & E & Hpc & Hfl).
  fold d shape in Hpc, Hfl.
  assert (Hshape : 0 <= shape.1.1 /\ 0 <= shape.1.2 /\ 0 <= shape.2).
  { cbn [fst snd]. repeat split; by apply sliced_len_bounds with (i := 0). }
  pose proof (meshgrid_ij_lookup_ravel shape (i, j, k) Hi Hj Hk) as Hmg.
  fold n in Hmg.
  destruct (Forall2_lookup_l _ _ _ _ _ Hpc Hmg) as (p & Hp & Hpe).
  destruct (Forall2_lookup_l _ _ _ _ _ Hfl Hmg) as (b & Hb & o & t & Ho & Ht & ->).
  cbn [fst snd] in Hpe, Ho, Ht.
  assert (Hc : 0 <= ravel d c < prod3 d).
  { apply (scaled_in_range d reduce Hr Hd1 Hd2 Hd3 (i, j, k)).
    by eapply list_elem_of_lookup_2. }
  exists pc, flags, p, o, t.
  split; [exact E|].
  split; [unfold get_downsampled_all_voxels_pcd; cbn [snd]; by rewrite E|].
  split;
    [unfold get_downsampled_voxel_collision_mask; cbn [snd]; by rewrite E|].
  split.
  { rewrite <-(Forall2_length _ _ _ Hpc).
    pose proof (ravel_meshgrid_ij shape) as Er.
    rewrite <-(length_fmap (ravel shape)), Er, length_seqZ by apply Hshape.
    assert (0 <= prod3 shape)
      by (unfold prod3; repeat apply Z.mul_nonneg_nonneg; apply Hshape).
    lia. }
  split.
  { by rewrite <-(Forall2_length _ _ _ Hpc), <-(Forall2_length _ _ _ Hfl). }
  split; [exact Hc|]. split; [exact Hp|].
  split; [|done].
  assert (Hc2 : 0 <= j * reduce < d.1.2 /\ 0 <= k * reduce < d.2).
  { cbn [fst snd] in Hj, Hk.
    apply sliced_len_bounds in Hj, Hk; try done. lia. }
  unfold c.
  destruct (voxel_coords_of_ravel d (i * reduce) (j * reduce) (k * reduce))
    as [-> _]; [apply Hc2..|]. exact Hpe.
Qed.

Lemma downsampled_point_and_flag_witness :
  let d := _vol_dim cube_self in
  let shape := (sliced_len d.1.1 2, sliced_len d.1.2 2, sliced_len d.2 2) in
  let n := Z.to_nat (ravel shape (1, 1, 1)) in
  let c := (1 * 2, 1 * 2, 1 * 2) in
  exists pc flags p o t,
    (get_downsampled_all_voxels_pcd_and_voxel_mask cube_self 2).2
    = Ok (pc, flags) /\
    (get_downsampled_all_voxels_pcd cube_self 2).2 = Ok pc /\
    (get_downsampled_voxel_collision_mask cube_self 2).2 = Ok flags /\
    Z.of_nat (length pc) = prod3 shape /\ length flags = length pc /\
    0 <= ravel d c < prod3 d /\
    pc !! n = Some p /\
    triple_eq p
      (world_point (_vol_origin cube_self) (_voxel_size cube_self)
         (voxel_coords d (ravel d c))) /\
    ix (occl_vol (grid cube_self)) (ravel d c) = Some o /\
    ix (tsdf_vol (grid cube_self)) (ravel d c) = Some t /\
    flags !! n = Some (occupied o t).
Proof.
  apply (downsampled_point_and_flag cube_self 2 1 1 1);
    first [vm_compute; congruence | vm_compute; split; congruence
          | vm_compute; auto].
Defined.

(** X24.  On a grid that was just constructed no voxel is flagged as occupied:
    occl = -100 fails occl > -100 and tsdf = 1 fails tsdf < 0.9. *)
Theorem downsampled_fresh_grid pycuda vol_bnds voxel_size use_gpu self reduce :
  __init__ pycuda vol_bnds voxel_size use_gpu = Ok self ->
  0 < reduce ->
  exists pc flags,
    (get_downsampled_all_voxels_pcd_and_voxel_mask self reduce).2
    = Ok (pc, flags) /\
    length flags = length pc /\
    Forall (fun b => b = false) flags.
Proof.
  intros Hinit Hr.
  destruct (init_inv _ _ _ _ _ Hinit)
    as (_ & _ & (Hd1 & Hd2 & Hd3) & Ed & _).
  destruct (init_modes _ _ _ _ _ Hinit) as [_ Eg].
  rewrite <-Ed in Hd1, Hd2, Hd3.
  assert (HN : 0 <= prod3 (_vol_dim self))
    by (unfold prod3; repeat apply Z.mul_nonneg_nonneg; done).
  destruct (downsampled_lists self reduce Hr Hd1 Hd2 Hd3)
    as (pc & flags & E & Hpc & Hfl).
  { rewrite Eg. apply fresh_volume_wf. }
  { rewrite Eg. cbn. rewrite length_replicate. lia. }
  exists pc, flags. split; [exact E|].
  split.
  { by rewrite <-(Forall2_length _ _ _ Hpc), <-(Forall2_length _ _ _ Hfl). }
  eapply Forall2_Forall_r; [exact Hfl|]. apply Forall_true.
  intros c b (o & t & Ho & Ht & ->).
  rewrite Eg in Ho, Ht. cbn [fresh_volume occl_vol tsdf_vol] in Ho, Ht.
  unfold ix in Ho, Ht. destruct (_ <? 0); [done|].
  apply lookup_replicate in Ho as [-> _]. apply lookup_replicate in Ht as [-> _].
  reflexivity.
Qed.

Lemma downsampled_fresh_grid_witness :
  exists pc flags,
    (get_downsampled_all_voxels_pcd_and_voxel_mask cube_self 2).2
    = Ok (pc, flags) /\
    length flags = length pc /\
    Forall (fun b => b = false) flags.
Proof.
  apply (downsampled_fresh_grid None unit_bnds (1 # 4) false cube_self 2).
  - vm_compute. reflexivity.
  - lia.
Defined.

(** X25.  With [reduce = 0] the three downsampled queries raise ValueError (a
    slice step cannot be zero, line 424), after [get_volume] has copied
    the device arrays to the host. *)
Theorem downsampled_zero_step self :
  get_downsampled_all_voxels_pcd_and_voxel_mask self 0
  = ((get_volume self).1, Raise ValueError) /\
  get_downsampled_all_voxels_pcd self 0
  = ((get_volume self).1, Raise ValueError) /\
  get_downsampled_voxel_collision_mask self 0
  = ((get_volume self).1, Raise ValueError).
Proof.
  unfold get_downsampled_all_voxels_pcd, get_downsampled_voxel_collision_mask,
    get_downsampled_all_voxels_pcd_and_voxel_mask.
  destruct (get_volume self) as [self1 [[[t o] c] m]]. done.
Qed.

(** ** The view frustum *)

Lemma foldl_Qmaxf_spec a x :
  let m := foldl Qmaxf x a in
  m ∈ x :: a /\ Forall (fun y => (y <= m)%Q) (x :: a).
Proof.
  revert x. induction a as [|y a IH]; intros x; cbn.
  { split; [left|]. constructor; [lra|constructor]. }
  destruct (IH (Qmaxf x y)) as [Hin Hle]. cbn in Hin, Hle.
  apply Forall_cons in Hle as [Hm Hle].
  destruct (Qmaxf_spec x y) as [[Hxy E]|[Hxy E]]; rewrite E in *.
  - split.
    + apply elem_of_cons in Hin as [->|Hin]; [right; left|by do 2 right].
    + constructor; [lra|]. by constructor.
  - split.
    + apply elem_of_cons in Hin as [->|Hin]; [left|by do 2 right].
    + constructor; [done|]. constructor; [lra|done].
Qed.

Lemma np_max_spec a m :
  np_max a = Ok m -> m ∈ a /\ Forall (fun y => (y <= m)%Q) a.
Proof.
  destruct a as [|x a]; [done|]. intros [= <-]. apply foldl_Qmaxf_spec.
Qed.

Lemma image_pixel_proper intr p p' :
  triple_eq p p' -> image_pixel intr p = image_pixel intr p'.
Proof.
  destruct p as [[x y] z], p' as [[x' y'] z']. intros (E1 & E2 & E3).
  cbn [fst snd] in *. unfold image_pixel, xdiv.
  assert (Ez : Qeq_bool z 0 = Qeq_bool z' 0).
  { apply eq_true_iff_eq. rewrite !Qeq_bool_iff. by rewrite E3. }
  assert (Ex : Qeq_bool x 0 = Qeq_bool x' 0).
  { apply eq_true_iff_eq. rewrite !Qeq_bool_iff. by rewrite E1. }
  assert (Ey : Qeq_bool y 0 = Qeq_bool y' 0).
  { apply eq_true_iff_eq. rewrite !Qeq_bool_iff. by rewrite E2. }
  assert (Lx : Qltb x 0 = Qltb x' 0).
  { apply eq_true_iff_eq. rewrite !Qltb_true. by rewrite E1. }
  assert (Ly : Qltb y 0 = Qltb y' 0).
  { apply eq_true_iff_eq. rewrite !Qltb_true. by rewrite E2. }
  rewrite Ez, Ex, Ey, Lx, Ly.
  destruct (Qeq_bool z' 0); [done|].
  cbn [xscale xshift xroundf to_int].
  rewrite (roundf_comp (at_ intr (0 * 3 + 0) * (x / z) + at_ intr (0 * 3 + 2))
                       (at_ intr (0 * 3 + 0) * (x' / z') + at_ intr (0 * 3 + 2)))
    by (by rewrite E1, E3).
  rewrite (roundf_comp (at_ intr (1 * 3 + 1) * (y / z) + at_ intr (1 * 3 + 2))
                       (at_ intr (1 * 3 + 1) * (y' / z') + at_ intr (1 * 3 + 2)))
    by (by rewrite E2, E3).
  done.
Qed.

Lemma image_pixel_corner intr (u v : Z) (d : Q) :
  ~ (at_ intr 0 == 0)%Q -> ~ (at_ intr 4 == 0)%Q -> ~ (d == 0)%Q ->
  0 <= u <= INT_MAX -> 0 <= v <= INT_MAX ->
  image_pixel intr
    (((inject_Z u - at_ intr 2) * d / at_ intr 0)%Q,
     ((inject_Z v - at_ intr 5) * d / at_ intr 4)%Q, d) = (u, v).
Proof.
  intros Hfx Hfy Hd Hu Hv. unfold image_pixel, xdiv.
  destruct (Qeq_bool d 0) eqn:E0; [by apply Qeq_bool_iff in E0|].
  cbn [xscale xshift xroundf to_int Nat.mul Nat.add].
  rewrite (roundf_comp _ (inject_Z u)) by (field; done).
  rewrite (roundf_comp (_ * (_ / d) + at_ intr 5) (inject_Z v))
    by (field; done).
  rewrite !roundf_inject, !Qtrunc_inject by lia.
  unfold INT_MAX, INT_MIN in *. f_equal; lia.
Qed.

(** X26.  [get_view_frustum] raises ValueError on an empty depth image (np.max
    of an empty array); otherwise, for non-zero focal lengths, it returns
    five points of which the first, the apex of the frustum, is the
    translation column of [cam_pose]. *)
Theorem view_frustum_apex depth_im cam_intr cam_pose :
  (flat depth_im = [] ->
   get_view_frustum depth_im cam_intr cam_pose = Raise ValueError) /\
  (flat depth_im <> [] ->
   ~ (at_ cam_intr 0 == 0)%Q -> ~ (at_ cam_intr 4 == 0)%Q ->
   exists r apex rest,
     get_view_frustum depth_im cam_intr cam_pose = Ok r /\
     columns r = apex :: rest /\ length rest = 4%nat /\
     triple_eq apex (at_ cam_pose 3, at_ cam_pose 7, at_ cam_pose 11)).
Proof.
  unfold get_view_frustum. split.
  - intros ->. done.
  - intros Hne Hfx Hfy. destruct (flat depth_im) as [|x a]; [done|].
    cbn [np_max mbind result_bind].
    eexists _, _, _. split; [reflexivity|].
    split; [reflexivity|]. split; [reflexivity|].
    unfold triple_eq. cbn [fst snd at_ nth Nat.mul Nat.add] in *.
    split; [|split]; field; done.
Qed.

(** X27.  The four far corners [get_view_frustum] returns, for a pose with
    orthonormal rotation and last row (0, 0, 0, 1) and non-zero focal
    lengths: seen from the camera they lie at the largest depth of the
    image, and when that depth is not zero the kernel projects them to
    the pixels (0, 0), (0, H), (W, 0) and (W, H), one past the last
    column and row. *)
Theorem view_frustum_corners depth_im cam_intr cam_pose r :
  get_view_frustum depth_im cam_intr cam_pose = Ok r ->
  affine cam_pose -> orthonormal cam_pose ->
  ~ (at_ cam_intr 0 == 0)%Q -> ~ (at_ cam_intr 4 == 0)%Q ->
  0 <= ncols depth_im <= INT_MAX -> 0 <= nrows depth_im <= INT_MAX ->
  exists max_depth,
    max_depth ∈ flat depth_im /\
    Forall (fun d => (d <= max_depth)%Q) (flat depth_im) /\
    Forall (fun p => ((camera_point cam_pose p).2 == max_depth)%Q)
      (drop 1 (columns r)) /\
    (~ (max_depth == 0)%Q ->
     (fun p => image_pixel cam_intr (camera_point cam_pose p))
     <$> drop 1 (columns r)
     = [(0, 0); (0, nrows depth_im); (ncols depth_im, 0);
        (ncols depth_im, nrows depth_im)]).
Proof.
  unfold get_view_frustum. intros H Ha Ho Hfx Hfy Hw Hh.
  destruct (np_max (flat depth_im)) as [m|] eqn:Em; [|done].
  cbn [mbind result_bind] in H. injection H as <-.
  destruct (np_max_spec _ _ Em) as [Hin Hmax].
  exists m. split; [done|]. split; [done|].
  set (fx := at_ cam_intr (0 * 3 + 0)). set (cx := at_ cam_intr (0 * 3 + 2)).
  set (fy := at_ cam_intr (1 * 3 + 1)). set (cy := at_ cam_intr (1 * 3 + 2)).
  assert (Hcorner : forall q p,
    rigid_transform [q] cam_pose = [p] -> triple_eq (camera_point cam_pose p) q).
  { intros q p E.
    pose proof (camera_point_after_pose cam_pose q (proj1 Ha) Ho) as Hc.
    rewrite E in Hc. apply Forall2_cons_1 in Hc as [Hc _]. exact Hc. }
  cbn [columns fst snd zip zip_with fmap list_fmap rigid_transform drop].
  pose proof (fun q => Hcorner q _ eq_refl) as Hcorner'.
  cbn [fst snd zip zip_with fmap list_fmap rigid_transform] in Hcorner'.
  pose proof (Hcorner' (((inject_Z 0 - cx) * m / fx)%Q,
                        ((inject_Z 0 - cy) * m / fy)%Q, m)) as H1.
  pose proof (Hcorner' (((inject_Z 0 - cx) * m / fx)%Q,
                        ((inject_Z (nrows depth_im) - cy) * m / fy)%Q, m)) as H2.
  pose proof (Hcorner' (((inject_Z (ncols depth_im) - cx) * m / fx)%Q,
                        ((inject_Z 0 - cy) * m / fy)%Q, m)) as H3.
  pose proof (Hcorner' (((inject_Z (ncols depth_im) - cx) * m / fx)%Q,
                        ((inject_Z (nrows depth_im) - cy) * m / fy)%Q, m)) as H4.
  cbn [fst snd] in H1, H2, H3, H4.
  split.
  - repeat constructor; [apply H1|apply H2|apply H3|apply H4].
  - intros Hm.
    rewrite (image_pixel_proper _ _ _ H1), (image_pixel_proper _ _ _ H2),
      (image_pixel_proper _ _ _ H3), (image_pixel_proper _ _ _ H4).
    unfold fx, fy, cx, cy. cbn [Nat.mul Nat.add].
    rewrite !image_pixel_corner by (try done; unfold INT_MAX in *; lia).
    done.
Qed.

Lemma view_frustum_corners_witness :
  let r := match get_view_frustum small_depth zoom_intr turned_pose with
           | Ok r => r
           | Raise _ => ([], [], [])
           end in
  exists max_depth,
    max_depth ∈ flat small_depth /\
    Forall (fun d => (d <= max_depth)%Q) (flat small_depth) /\
    Forall (fun p => ((camera_point turned_pose p).2 == max_depth)%Q)
      (drop 1 (columns r)) /\
    (~ (max_depth == 0)%Q ->
     (fun p => image_pixel zoom_intr (camera_point turned_pose p))
     <$> drop 1 (columns r)
     = [(0, 0); (0, nrows small_depth); (ncols small_depth, 0);
        (ncols small_depth, nrows small_depth)]).
Proof.
  apply (view_frustum_corners small_depth zoom_intr turned_pose).
  - vm_compute. reflexivity.
  - split; [reflexivity|]. repeat split; reflexivity.
  - repeat split; reflexivity.
  - vm_compute. congruence.
  - vm_compute. congruence.
  - vm_compute. split; congruence.
  - vm_compute. split; congruence.
Defined.
